(** * Bulk Migration: the migration engine (services/migrationService.js)

    A shallow embedding of the engine that copies tables from a source
    PostgreSQL database into a target one: column classification, the
    type preparer, the schema replayer, the three data rules and the
    coordinator loop, followed by the properties proved about them. *)

From Stdlib Require Import String Ascii List ZArith Lia Bool Arith.
From Stdlib Require Import DecimalString.
Import ListNotations.
Open Scope list_scope.
Open Scope string_scope.

Set Warnings "-register-all".

(* ================================================================== *)
(** * JavaScript strings and values *)
(* ================================================================== *)

Module Js.

(** The double-quote character, by its code, and as a string. *)
Definition dquote : ascii := "034"%char.
Definition dq : string := String dquote EmptyString.

(** [Array.prototype.includes] on an array of strings. *)
Definition includes (xs : list string) (k : string) : bool :=
  existsb (String.eqb k) xs.

(** [String.prototype.startsWith]. *)
Fixpoint startsWith (s p : string) {struct p} : bool :=
  match p with
  | EmptyString => true
  | String a p' =>
      match s with
      | String b s' => Ascii.eqb a b && startsWith s' p'
      | EmptyString => false
      end
  end.

(** [String.prototype.includes]: substring test. *)
Definition str_includes (s needle : string) : bool :=
  match String.index 0 needle s with Some _ => true | None => false end.

(** [Array.prototype.join] on strings. *)
Definition join (sep : string) (xs : list string) : string :=
  String.concat sep xs.

(** Decimal rendering of an integer, as a template literal does. *)
Definition of_Z (z : Z) : string := NilZero.string_of_int (Z.to_int z).

(** [s.replace] of the pattern that matches every double quote by a
    backslash and a double quote; no other character is touched. *)
Fixpoint escape_quotes (s : string) : string :=
  match s with
  | EmptyString => EmptyString
  | String c r =>
      if Ascii.eqb c dquote
      then String "\"%char (String dquote (escape_quotes r))
      else String c (escape_quotes r)
  end.

(** [s.replace('_', '')]: a string pattern replaces the first
    occurrence only. *)
Fixpoint remove_first_underscore (s : string) : string :=
  match s with
  | EmptyString => EmptyString
  | String c r =>
      if Ascii.eqb c "_"%char then r
      else String c (remove_first_underscore r)
  end.

(** Values a row of the driver can hold.  A [Date] carries its two
    renderings ([toISOString] and [toString]); numbers are sampled by
    the integers, the engine never computes on row values. *)
Inductive value : Type :=
| Null
| Undefined
| Bool (b : bool)
| Num (n : Z)
| BigInt (n : Z)
| Str (s : string)
| Date (iso text : string)
| Arr (elems : list value)
| Obj (fields : list (string * value)).

Inductive type_tag :=
| TUndefined | TObject | TBoolean | TNumber | TBigint | TString.

Definition typeof (v : value) : type_tag :=
  match v with
  | Undefined => TUndefined
  | Null | Date _ _ | Arr _ | Obj _ => TObject
  | Bool _ => TBoolean
  | Num _ => TNumber
  | BigInt _ => TBigint
  | Str _ => TString
  end.

Definition is_object (v : value) : bool :=
  match typeof v with TObject => true | _ => false end.
Definition is_string (v : value) : bool :=
  match v with Str _ => true | _ => false end.
Definition is_date (v : value) : bool :=
  match v with Date _ _ => true | _ => false end.
Definition is_nullish (v : value) : bool :=
  match v with Null | Undefined => true | _ => false end.

(** ** String conversion, as [join] and template literals apply it *)

Fixpoint to_string (v : value) : string :=
  match v with
  | Null => "null"
  | Undefined => "undefined"
  | Bool true => "true"
  | Bool false => "false"
  | Num n => of_Z n
  | BigInt n => of_Z n
  | Str s => s
  | Date _ text => text
  | Arr xs =>
      join "," (map (fun x => match x with
                              | Null | Undefined => ""
                              | _ => to_string x
                              end) xs)
  | Obj _ => "[object Object]"
  end.

(** One element of [xs.join(sep)]: null and undefined give the
    empty string. *)
Definition join_elem (v : value) : string :=
  match v with
  | Null | Undefined => ""
  | _ => to_string v
  end.

(** ** JSON.stringify *)

Definition hex_digit (n : nat) : ascii :=
  match n with
  | 0 => "0" | 1 => "1" | 2 => "2" | 3 => "3" | 4 => "4" | 5 => "5"
  | 6 => "6" | 7 => "7" | 8 => "8" | 9 => "9" | 10 => "a" | 11 => "b"
  | 12 => "c" | 13 => "d" | 14 => "e" | _ => "f"
  end%char.

(** QuoteJSONString on one character. *)
Definition quote_char (c : ascii) : string :=
  let n := nat_of_ascii c in
  if Ascii.eqb c dquote then "\" ++ dq
  else if Ascii.eqb c "\"%char then "\\"
  else if Nat.eqb n 8 then "\b"
  else if Nat.eqb n 9 then "\t"
  else if Nat.eqb n 10 then "\n"
  else if Nat.eqb n 12 then "\f"
  else if Nat.eqb n 13 then "\r"
  else if Nat.ltb n 32 then
    "\u00" ++ String (hex_digit (n / 16)) (String (hex_digit (n mod 16)) "")
  else String c "".

Fixpoint quote_body (s : string) : string :=
  match s with
  | EmptyString => EmptyString
  | String c r => quote_char c ++ quote_body r
  end.

Definition quote (s : string) : string := dq ++ quote_body s ++ dq.

(** All-or-nothing sequencing of serialised parts. *)
Fixpoint sequence (xs : list (option string)) : option (list string) :=
  match xs with
  | [] => Some []
  | None :: _ => None
  | Some s :: r =>
      match sequence r with Some l => Some (s :: l) | None => None end
  end.

(** [JSON.stringify v]; [None] stands for the thrown [TypeError]
    (a BigInt anywhere in the value).  Inside an array [undefined]
    prints as null, inside an object the property is left out.  The
    engine applies it to objects and strings only. *)
Fixpoint stringify (v : value) : option string :=
  match v with
  | Null => Some "null"
  | Undefined => Some "null"
  | Bool true => Some "true"
  | Bool false => Some "false"
  | Num n => Some (of_Z n)
  | BigInt _ => None
  | Str s => Some (quote s)
  | Date iso _ => Some (quote iso)
  | Arr xs =>
      match sequence (map stringify xs) with
      | Some parts => Some ("[" ++ join "," parts ++ "]")
      | None => None
      end
  | Obj fs =>
      let members :=
        (fix go (l : list (string * value)) : list (option string) :=
           match l with
           | [] => []
           | (_, Undefined) :: r => go r
           | (k, x) :: r =>
               match stringify x with
               | Some s => Some (quote k ++ ":" ++ s)
               | None => None
               end :: go r
           end) fs in
      match sequence members with
      | Some parts => Some ("{" ++ join "," parts ++ "}")
      | None => None
      end
  end.

(** ** JSON.parse, as far as the engine uses it: does the text parse? *)

Definition code (c : ascii) : nat := nat_of_ascii c.

Definition is_ws (c : ascii) : bool :=
  Nat.eqb (code c) 32 || Nat.eqb (code c) 9
  || Nat.eqb (code c) 10 || Nat.eqb (code c) 13.

Definition is_digit (c : ascii) : bool :=
  Nat.leb 48 (code c) && Nat.leb (code c) 57.

Definition is_hex (c : ascii) : bool :=
  is_digit c
  || (Nat.leb 97 (code c) && Nat.leb (code c) 102)
  || (Nat.leb 65 (code c) && Nat.leb (code c) 70).

Fixpoint skip_ws (l : list ascii) : list ascii :=
  match l with
  | c :: r => if is_ws c then skip_ws r else l
  | [] => []
  end.

Fixpoint skip_digits (l : list ascii) : list ascii :=
  match l with
  | c :: r => if is_digit c then skip_digits r else l
  | [] => []
  end.

Fixpoint strip_prefix (p l : list ascii) : option (list ascii) :=
  match p, l with
  | [], _ => Some l
  | a :: p', b :: l' => if Ascii.eqb a b then strip_prefix p' l' else None
  | _ :: _, [] => None
  end.

(** The rest of the input after a string body and its closing quote. *)
Fixpoint scan_string (l : list ascii) : option (list ascii) :=
  match l with
  | [] => None
  | c :: r =>
      if Ascii.eqb c dquote then Some r
      else if Ascii.eqb c "\"%char then
        match r with
        | [] => None
        | e :: r' =>
            if existsb (Ascii.eqb e)
                 [dquote ; "\" ; "/" ; "b" ; "f" ; "n" ; "r" ; "t"]%char
            then scan_string r'
            else if Ascii.eqb e "u"%char then
              match r' with
              | h1 :: h2 :: h3 :: h4 :: r'' =>
                  if is_hex h1 && is_hex h2 && is_hex h3 && is_hex h4
                  then scan_string r'' else None
              | _ => None
              end
            else None
        end
      else if Nat.ltb (code c) 32 then None
      else scan_string r
  end.

Definition scan_exponent (l : list ascii) : option (list ascii) :=
  match l with
  | e :: r =>
      if Ascii.eqb e "e"%char || Ascii.eqb e "E"%char then
        let r1 := match r with
                  | sg :: r' =>
                      if Ascii.eqb sg "+"%char || Ascii.eqb sg "-"%char
                      then r' else r
                  | [] => r
                  end in
        match r1 with
        | d :: r2 => if is_digit d then Some (skip_digits r2) else None
        | [] => None
        end
      else Some l
  | [] => Some l
  end.

Definition scan_fraction (l : list ascii) : option (list ascii) :=
  match l with
  | dot :: r =>
      if Ascii.eqb dot "."%char then
        match r with
        | d :: r' => if is_digit d then scan_exponent (skip_digits r') else None
        | [] => None
        end
      else scan_exponent l
  | [] => Some l
  end.

Definition scan_number (l : list ascii) : option (list ascii) :=
  let l1 := match l with
            | m :: r => if Ascii.eqb m "-"%char then r else l
            | [] => l
            end in
  match l1 with
  | d :: r =>
      if Ascii.eqb d "0"%char then scan_fraction r
      else if is_digit d then scan_fraction (skip_digits r)
      else None
  | [] => None
  end.

Definition chars (s : string) : list ascii := list_ascii_of_string s.

Fixpoint scan_value (fuel : nat) (l : list ascii) : option (list ascii) :=
  match fuel with
  | 0 => None
  | S f =>
      match skip_ws l with
      | [] => None
      | c :: r =>
          if Ascii.eqb c dquote then scan_string r
          else if Ascii.eqb c "["%char then
            match skip_ws r with
            | c' :: r' =>
                if Ascii.eqb c' "]"%char then Some r' else scan_elements f r
            | [] => None
            end
          else if Ascii.eqb c "{"%char then
            match skip_ws r with
            | c' :: r' =>
                if Ascii.eqb c' "}"%char then Some r' else scan_members f r
            | [] => None
            end
          else
            match strip_prefix (chars "null") (c :: r) with
            | Some r' => Some r'
            | None =>
            match strip_prefix (chars "true") (c :: r) with
            | Some r' => Some r'
            | None =>
            match strip_prefix (chars "false") (c :: r) with
            | Some r' => Some r'
            | None => scan_number (c :: r)
            end end end
      end
  end
with scan_elements (fuel : nat) (l : list ascii) : option (list ascii) :=
  match fuel with
  | 0 => None
  | S f =>
      match scan_value f l with
      | None => None
      | Some r =>
          match skip_ws r with
          | c :: r' =>
              if Ascii.eqb c ","%char then scan_elements f r'
              else if Ascii.eqb c "]"%char then Some r'
              else None
          | [] => None
          end
      end
  end
with scan_members (fuel : nat) (l : list ascii) : option (list ascii) :=
  match fuel with
  | 0 => None
  | S f =>
      match skip_ws l with
      | q :: r =>
          if Ascii.eqb q dquote then
            match scan_string r with
            | None => None
            | Some r1 =>
                match skip_ws r1 with
                | colon :: r2 =>
                    if Ascii.eqb colon ":"%char then
                      match scan_value f r2 with
                      | None => None
                      | Some r3 =>
                          match skip_ws r3 with
                          | c :: r4 =>
                              if Ascii.eqb c ","%char then scan_members f r4
                              else if Ascii.eqb c "}"%char then Some r4
                              else None
                          | [] => None
                          end
                      end
                    else None
                | [] => None
                end
            end
          else None
      | [] => None
      end
  end.

(** [true] when [JSON.parse s] returns, [false] when it throws. *)
Definition parse_ok (s : string) : bool :=
  let l := chars s in
  match scan_value (2 * List.length l + 2) l with
  | Some r => match skip_ws r with [] => true | _ => false end
  | None => false
  end.

End Js.

(* ================================================================== *)
(** * Catalog rows and column classification *)
(* ================================================================== *)

(** One row of [information_schema.columns] as [getTableColumnsDetailed]
    selects it; the integer columns are null or a number. *)
Record Column : Type := {
  column_name : string;
  data_type : string;
  udt_name : string;
  is_nullable : string;
  character_maximum_length : option Z;
  numeric_precision : option Z;
  numeric_scale : option Z;
  column_default : option string
}.

Definition isJsonColumn (col : Column) : bool :=
  String.eqb (data_type col) "json"
  || String.eqb (data_type col) "jsonb"
  || String.eqb (udt_name col) "json"
  || String.eqb (udt_name col) "jsonb".

Definition isArrayColumn (col : Column) : bool :=
  String.eqb (data_type col) "ARRAY" || Js.startsWith (udt_name col) "_".

(** [columns.filter(...).map(col => col.column_name)] *)
Definition getJsonColumns (columns : list Column) : list string :=
  map column_name (filter isJsonColumn columns).

Definition getArrayColumns (columns : list Column) : list string :=
  map column_name (filter isArrayColumn columns).

(* ================================================================== *)
(** * Schema replay: the type mapping and the null-fill table *)
(* ================================================================== *)

(** [n || d] on a catalog number: null and 0 are both falsy. *)
Definition num_or (n : option Z) (d : Z) : Z :=
  match n with
  | Some v => if Z.eqb v 0 then d else v
  | None => d
  end.

(** [s || d] on a string that may be null: null and '' are falsy. *)
Definition str_or (s : option string) (d : string) : string :=
  match s with
  | Some v => if String.eqb v "" then d else v
  | None => d
  end.

Definition truthy_str (s : option string) : bool :=
  match s with Some v => negb (String.eqb v "") | None => false end.

Definition columnToSqlType (col : Column) : string :=
  let ty := data_type col in
  if String.eqb ty "character varying" then
    match character_maximum_length col with
    | Some n => if Z.eqb n 0 then "varchar(255)"
                else "varchar(" ++ Js.of_Z n ++ ")"
    | None => "varchar(255)"
    end
  else if String.eqb ty "character" then
    match character_maximum_length col with
    | Some n => if Z.eqb n 0 then "char(1)"
                else "char(" ++ Js.of_Z n ++ ")"
    | None => "char(1)"
    end
  else if String.eqb ty "numeric" then
    "numeric(" ++ Js.of_Z (num_or (numeric_precision col) 10) ++ ","
               ++ Js.of_Z (num_or (numeric_scale col) 2) ++ ")"
  else if String.eqb ty "integer" then "integer"
  else if String.eqb ty "bigint" then "bigint"
  else if String.eqb ty "smallint" then "smallint"
  else if String.eqb ty "boolean" then "boolean"
  else if String.eqb ty "text" then "text"
  else if String.eqb ty "json" then "json"
  else if String.eqb ty "jsonb" then "jsonb"
  else if String.eqb ty "uuid" then "uuid"
  else if String.eqb ty "timestamp without time zone" then "timestamp"
  else if String.eqb ty "timestamp with time zone" then "timestamptz"
  else if String.eqb ty "date" then "date"
  else if String.eqb ty "time without time zone" then "time"
  else if String.eqb ty "double precision" then "double precision"
  else if String.eqb ty "real" then "real"
  else if String.eqb ty "bytea" then "bytea"
  else if String.eqb ty "ARRAY" then
    Js.remove_first_underscore (udt_name col) ++ "[]"
  else if String.eqb (udt_name col) "" then ty else udt_name col.

(** [getDefaultValueForType]: [None] is the JavaScript null. *)
Definition getDefaultValueForType (dataType : string) : option string :=
  if Js.includes ["integer"; "bigint"; "smallint"; "numeric";
                  "double precision"; "real"] dataType then Some "0"
  else if String.eqb dataType "boolean" then Some "false"
  else if Js.includes ["character varying"; "character"; "text"] dataType
       then Some "''"
  else if Js.includes ["json"; "jsonb"] dataType then Some "'{}'"
  else if Js.includes ["timestamp without time zone";
                       "timestamp with time zone"] dataType then Some "NOW()"
  else if String.eqb dataType "date" then Some "CURRENT_DATE"
  else if String.eqb dataType "uuid" then Some "gen_random_uuid()"
  else None.

(** [col.column_default && col.column_default.includes('nextval')] *)
Definition hasNextvalDefault (col : Column) : bool :=
  match column_default col with
  | Some d => negb (String.eqb d "") && Js.str_includes d "nextval"
  | None => false
  end.

(* ================================================================== *)
(** * The type preparer *)
(* ================================================================== *)

(** A row is the object the driver returns: its own enumerable
    properties in column order. *)
Definition Row : Type := list (string * Js.value).

Inductive Level := Info | Warning | Error.

(** A line of the application logger. *)
Definition LogLine : Type := (Level * string)%type.

(** One element of an array literal: a string is put between double
    quotes with its own double quotes escaped, anything else is left
    to [join] to turn into text. *)
Definition arrayElement (v : Js.value) : string :=
  match v with
  | Js.Str s => Js.dq ++ Js.escape_quotes s ++ Js.dq
  | _ => Js.join_elem v
  end.

(** The mapped elements joined by commas, between braces. *)
Definition arrayLiteral (elems : list Js.value) : string :=
  "{" ++ Js.join "," (map arrayElement elems) ++ "}".

(** The body of the loop of [prepareRowForInsert] for one property:
    the prepared value and what was logged. *)
Definition prepareValue (jsonColumns arrayColumns : list string)
    (key : string) (value : Js.value) : Js.value * list LogLine :=
  if Js.is_nullish value then (Js.Null, [])
  else if Js.includes jsonColumns key then
    if Js.is_object value then
      match Js.stringify value with
      | Some s => (Js.Str s, [])
      | None =>
          (Js.Str "{}", [(Error, "Failed to stringify JSON column " ++ key ++ ":")])
      end
    else
      match value with
      | Js.Str s =>
          if Js.parse_ok s then (value, [])
          else (Js.Str (Js.quote s), [])
      | _ => (value, [])
      end
  else if Js.includes arrayColumns key then
    match value with
    | Js.Arr elems => (Js.Str (arrayLiteral elems), [])
    | _ => (value, [])
    end
  else if Js.is_object value && negb (Js.is_date value) then
    match Js.stringify value with
    | Some s => (Js.Str s, [])
    | None =>
        (Js.Null, [(Error, "Failed to stringify object in column " ++ key ++ ":")])
    end
  else (value, []).

Definition prepareRowForInsert (row : Row)
    (jsonColumns arrayColumns : list string) : Row * list LogLine :=
  let cells :=
    map (fun kv => (fst kv, prepareValue jsonColumns arrayColumns (fst kv) (snd kv)))
        row in
  (map (fun c => (fst c, fst (snd c))) cells,
   concat (map (fun c => snd (snd c)) cells)).

(* ================================================================== *)
(** * PostgreSQL's reading of an array literal *)
(* ================================================================== *)

(** The server side of an ARRAY column: how [array_in] reads a
    one-dimensional text array literal, after the server manual
    (section "Array Input and Output Syntax"): elements between braces,
    separated by commas; inside double quotes a backslash takes the next
    character literally; an unquoted element runs to the next comma or
    brace, the unquoted word NULL being the null element. *)
Module PgArray.

Inductive state :=
| Start
| Elem (acc : list (option string))
| Quoted (acc : list (option string)) (cur : list ascii)
| QuotedEsc (acc : list (option string)) (cur : list ascii)
| AfterQuoted (acc : list (option string))
| Bare (acc : list (option string)) (cur : list ascii)
| BareEsc (acc : list (option string)) (cur : list ascii)
| Done (acc : list (option string))
| Malformed.

Definition text (cur : list ascii) : string :=
  string_of_list_ascii (rev cur).

Definition bare_elem (cur : list ascii) : option string :=
  if String.eqb (text cur) "NULL" then None else Some (text cur).

Definition step (st : state) (c : ascii) : state :=
  match st with
  | Start => if Ascii.eqb c "{"%char then Elem [] else Malformed
  | Elem acc =>
      if Ascii.eqb c Js.dquote then Quoted acc []
      else if Ascii.eqb c "}"%char then
        match acc with [] => Done [] | _ => Malformed end
      else if Ascii.eqb c ","%char then Malformed
      else if Ascii.eqb c "\"%char then BareEsc acc []
      else Bare acc [c]
  | Quoted acc cur =>
      if Ascii.eqb c Js.dquote then AfterQuoted (Some (text cur) :: acc)
      else if Ascii.eqb c "\"%char then QuotedEsc acc cur
      else Quoted acc (c :: cur)
  | QuotedEsc acc cur => Quoted acc (c :: cur)
  | AfterQuoted acc =>
      if Ascii.eqb c ","%char then Elem acc
      else if Ascii.eqb c "}"%char then Done acc
      else Malformed
  | Bare acc cur =>
      if Ascii.eqb c ","%char then Elem (bare_elem cur :: acc)
      else if Ascii.eqb c "}"%char then Done (bare_elem cur :: acc)
      else if Ascii.eqb c Js.dquote then Malformed
      else if Ascii.eqb c "\"%char then BareEsc acc cur
      else Bare acc (c :: cur)
  | BareEsc acc cur => Bare acc (c :: cur)
  | Done _ => Malformed
  | Malformed => Malformed
  end.

(** The elements of the literal, [None] when it is malformed. *)
Definition parse (s : string) : option (list (option string)) :=
  match fold_left step (list_ascii_of_string s) Start with
  | Done acc => Some (rev acc)
  | _ => None
  end.

End PgArray.

(* ================================================================== *)
(** * The databases, the job store and the statements sent to them *)
(* ================================================================== *)

(** Association lists keyed by name: tables of a database, rows of the
    job store by id. *)
Fixpoint lookup {V : Type} (k : string) (l : list (string * V)) : option V :=
  match l with
  | [] => None
  | (k', v) :: r => if String.eqb k k' then Some v else lookup k r
  end.

Definition has_key {V : Type} (k : string) (l : list (string * V)) : bool :=
  match lookup k l with Some _ => true | None => false end.

(** Replace the value stored under [k] (the first one), leave the list
    alone when the key is absent. *)
Fixpoint update {V : Type} (k : string) (f : V -> V) (l : list (string * V))
  : list (string * V) :=
  match l with
  | [] => []
  | (k', v) :: r =>
      if String.eqb k k' then (k', f v) :: r else (k', v) :: update k f r
  end.

(** [session_replication_role] of the target session. *)
Inductive Role := RoleDefault | RoleReplica.

(** A row of [information_schema.sequences] as [getTableSequences]
    selects it. *)
Record Sequence : Type := {
  sequence_name : string;
  seq_increment : option string;
  seq_minimum_value : option string;
  seq_start_value : option string
}.

(** What the engine reads of one source table.  The source is not
    written to, and is taken not to change while a job runs. *)
Record SourceTable : Type := {
  src_columns : list Column;
  src_rows : list Row;
  src_primary_key : list string;          (* one row per key column *)
  src_sequences : list Sequence;
  src_unique : list (string * string);    (* constraint_name, columns *)
  src_indexes : list (string * string)    (* indexname, indexdef *)
}.

Definition SourceDb : Type := list (string * SourceTable).

(** What the engine reads back of one target table. *)
Record TargetTable : Type := {
  tgt_columns : list Column;
  tgt_rows : list Row;
  tgt_indexes : list string
}.

(** The target database: its tables, and its sequences with the column
    that owns each. *)
Record TargetDb : Type := {
  tgt_tables : list (string * TargetTable);
  tgt_sequences : list (string * option (string * string))
}.

Inductive Status := Pending | Running | Completed | Failed.
Inductive ResultStatus := Success | TableFailed.

(** An entry of the [results] array of a job. *)
Record TableResult : Type := {
  res_collection : string;
  res_rule : string;
  res_rowsMigrated : option nat;
  res_status : ResultStatus;
  res_error : option string
}.

(** A row of the [connections] table. *)
Record Connection : Type := {
  conn_host : string;
  conn_port : Z;
  conn_database : string;
  conn_username : string;
  conn_password : string;
  conn_ssl : bool;
  conn_reject_unauthorized : bool
}.

(** A row of the [migrations] table, as far as the engine writes it. *)
Record Migration : Type := {
  mig_status : Status;
  mig_result : option (list TableResult);
  mig_duration_ms : option nat;
  mig_error_message : option string
}.

(** What [update] sets on a row of [migrations]. *)
Record MigrationUpdate : Type := {
  upd_status : Status;
  upd_result : option (list TableResult);
  upd_error_message : option string;
  upd_duration_ms : nat
}.

(** A row of [migration_logs]. *)
Record MigrationLog : Type := {
  log_migration_id : string;
  log_collection_name : string;
  log_level : Level;
  log_message : string
}.

Record JobStore : Type := {
  connections : list (string * Connection);
  migrations : list (string * Migration);
  migration_logs : list MigrationLog
}.

(** Every statement the engine sends, to the job store, to the source
    or to the target. *)
Inductive Stmt : Type :=
(* job store *)
| SelectConnection (id : string)
| InsertLog (entry : MigrationLog)
| UpdateMigration (id : string) (u : MigrationUpdate)
(* source *)
| SrcColumns (table : string)
| SrcColumnsDetailed (table : string)
| SrcCount (table : string)
| SrcSelect (table : string) (limit offset : nat)
| SrcSelectAll (table : string)
| SrcPrimaryKey (table : string)
| SrcSequences (table : string)
| SrcUniqueConstraints (table : string)
| SrcIndexes (table : string)
(* target *)
| HasTable (table : string)
| TableExists (table : string)
| CountRows (table : string)
| SetRole (r : Role)
| Truncate (table : string)
| SerialColumns (table : string)
| MaxOf (table column : string)
| Setval (sequence : string) (next : Z)
| InsertBatch (table : string) (rows : list Row)
| InsertRow (table : string) (row : Row)
| Upsert (table : string) (row : Row) (conflict : string)
| AddUnique (table name columns : string)
| SequenceExists (name : string)
| CreateSequence (sql : string) (name : string) (if_not_exists : bool)
| CreateTable (sql : string) (table : string) (columns : list Column)
| SetColumnDefault (table column sequence : string)
| OwnSequence (sequence table column : string)
| AddPrimaryKey (table name columns : string)
| TgtColumnsDetailed (table : string)
| AddColumn (sql : string) (table : string) (col : Column)
| TgtIndexes (table : string)
| CreateIndex (table name indexdef : string).

(** One statement as it was executed: the role the target session had
    when it was sent, and whether it came back without an error. *)
Record Event : Type := {
  ev_stmt : Stmt;
  ev_role : Role;
  ev_ok : bool
}.

(** The state a job runs in.  [clock] counts the statements sent so
    far and serves as the time of day; [trace] holds them, the latest
    first; [applog] is the application logger, the latest first. *)
Record World : Type := {
  clock : nat;
  target : TargetDb;
  role : Role;
  store : JobStore;
  trace : list Event;
  applog : list LogLine
}.

(** What a job does not change: the source database, and which
    statements fail for reasons of their own (a lost connection, a
    violated constraint, a timeout), by statement and time, with the
    message of the error. *)
Record Env : Type := {
  source : SourceDb;
  faults : Stmt -> nat -> option string
}.

(* ================================================================== *)
(** * Asynchronous code: state, exceptions, and the loop bound *)
(* ================================================================== *)

Inductive Result (A : Type) : Type :=
| Ok (a : A)
| Throw (message : string)
| OutOfFuel.
Arguments Ok {A} a.
Arguments Throw {A} message.
Arguments OutOfFuel {A}.

Definition M (A : Type) : Type := World -> Result A * World.

Definition ret {A} (a : A) : M A := fun w => (Ok a, w).

Definition bind {A B} (m : M A) (f : A -> M B) : M B :=
  fun w =>
    match m w with
    | (Ok a, w') => f a w'
    | (Throw e, w') => (Throw e, w')
    | (OutOfFuel, w') => (OutOfFuel, w')
    end.

Definition throw {A} (e : string) : M A := fun w => (Throw e, w).

(** [try { m } catch (error) { h error.message }] *)
Definition try_catch {A} (m : M A) (h : string -> M A) : M A :=
  fun w =>
    match m w with
    | (Throw e, w') => h e w'
    | r => r
    end.

(** [try { m } finally { f }]: an exception of [f] replaces the
    outcome of [m]. *)
Definition try_finally {A} (m : M A) (f : M unit) : M A :=
  fun w =>
    match m w with
    | (OutOfFuel, w') => (OutOfFuel, w')
    | (r, w') =>
        match f w' with
        | (Ok _, w'') => (r, w'')
        | (Throw e, w'') => (Throw e, w'')
        | (OutOfFuel, w'') => (OutOfFuel, w'')
        end
    end.

Declare Scope engine_scope.
Delimit Scope engine_scope with engine.
Notation "x <- m ;; k" := (bind m (fun x => k))
  (at level 61, m at next level, right associativity) : engine_scope.
Notation "m ;; k" := (bind m (fun _ => k))
  (at level 61, right associativity) : engine_scope.
Open Scope engine_scope.

(** [for (const x of xs) { body }] with the loop's variables in [acc]. *)
Fixpoint for_each {A S : Type} (xs : list A) (body : A -> S -> M S) (acc : S)
  : M S :=
  match xs with
  | [] => ret acc
  | x :: r => acc' <- body x acc ;; for_each r body acc'
  end.

Definition set_clock (n : nat) (w : World) : World :=
  {| clock := n; target := target w; role := role w; store := store w;
     trace := trace w; applog := applog w |}.
Definition set_target (t : TargetDb) (w : World) : World :=
  {| clock := clock w; target := t; role := role w; store := store w;
     trace := trace w; applog := applog w |}.
Definition set_role (r : Role) (w : World) : World :=
  {| clock := clock w; target := target w; role := r; store := store w;
     trace := trace w; applog := applog w |}.
Definition set_store (s : JobStore) (w : World) : World :=
  {| clock := clock w; target := target w; role := role w; store := s;
     trace := trace w; applog := applog w |}.
Definition set_trace (t : list Event) (w : World) : World :=
  {| clock := clock w; target := target w; role := role w; store := store w;
     trace := t; applog := applog w |}.
Definition set_applog (l : list LogLine) (w : World) : World :=
  {| clock := clock w; target := target w; role := role w; store := store w;
     trace := trace w; applog := l |}.

(** The statement [s] was sent in [w]: the clock advances and the
    trace remembers it. *)
Definition sent (s : Stmt) (ok : bool) (w : World) : World :=
  set_trace ({| ev_stmt := s; ev_role := role w; ev_ok := ok |} :: trace w)
            (set_clock (S (clock w)) w).

(** [logger.info], [logger.warn], [logger.error] *)
Definition logger (l : Level) (message : string) : M unit :=
  fun w => (Ok tt, set_applog ((l, message) :: applog w) w).

(** [Date.now()] *)
Definition now : M nat := fun w => (Ok (clock w), w).

(* ================================================================== *)
(** * What the databases answer *)
(* ================================================================== *)

(** The reply of a database to one statement: its rows, or the error
    it raises. *)
Inductive Reply (A : Type) : Type :=
| Answer (a : A)
| Refuse (message : string).
Arguments Answer {A} a.
Arguments Refuse {A} message.

Definition answered {A} (r : Reply A) : bool :=
  match r with Answer _ => true | Refuse _ => false end.

(** The promise of the driver settles accordingly. *)
Definition settle {A} (r : Reply A) : Result A :=
  match r with Answer a => Ok a | Refuse e => Throw e end.

(** An identifier between double quotes, as the engine splices it. *)
Definition ident (name : string) : string := Js.dq ++ name ++ Js.dq.

Definition relation_missing (t : string) : string :=
  "relation " ++ ident t ++ " does not exist".

Definition endsWith (s suffix : string) : bool :=
  let n := String.length s in
  let k := String.length suffix in
  Nat.leb k n && String.eqb (String.substring (n - k) k s) suffix.

Module Source.

Definition columns (t : string) (db : SourceDb) : Reply (list Column) :=
  match lookup t db with
  | Some tb => Answer (src_columns tb)
  | None => Answer []
  end.

Definition count (t : string) (db : SourceDb) : Reply nat :=
  match lookup t db with
  | Some tb => Answer (List.length (src_rows tb))
  | None => Refuse (relation_missing t)
  end.

(** [select('*').limit(limit).offset(offset)] *)
Definition select (t : string) (limit offset : nat) (db : SourceDb)
  : Reply (list Row) :=
  match lookup t db with
  | Some tb => Answer (firstn limit (skipn offset (src_rows tb)))
  | None => Refuse (relation_missing t)
  end.

Definition select_all (t : string) (db : SourceDb) : Reply (list Row) :=
  match lookup t db with
  | Some tb => Answer (src_rows tb)
  | None => Refuse (relation_missing t)
  end.

(** The key columns of the primary index; the cast to [regclass]
    fails for a table that does not exist. *)
Definition primary_key (t : string) (db : SourceDb) : Reply (list string) :=
  match lookup t db with
  | Some tb => Answer (src_primary_key tb)
  | None => Refuse (relation_missing t)
  end.

Definition sequences (t : string) (db : SourceDb) : Reply (list Sequence) :=
  match lookup t db with
  | Some tb => Answer (src_sequences tb)
  | None => Answer []
  end.

Definition unique_constraints (t : string) (db : SourceDb)
  : Reply (list (string * string)) :=
  match lookup t db with
  | Some tb => Answer (src_unique tb)
  | None => Answer []
  end.

(** [pg_indexes] of the table, [indexname NOT LIKE '%_pkey']. *)
Definition indexes (t : string) (db : SourceDb)
  : Reply (list (string * string)) :=
  match lookup t db with
  | Some tb =>
      Answer (filter (fun i => negb (endsWith (fst i) "_pkey")) (src_indexes tb))
  | None => Answer []
  end.

End Source.

Module Target.

Definition with_tables (ts : list (string * TargetTable)) (db : TargetDb)
  : TargetDb :=
  {| tgt_tables := ts; tgt_sequences := tgt_sequences db |}.

Definition with_sequences (ss : list (string * option (string * string)))
    (db : TargetDb) : TargetDb :=
  {| tgt_tables := tgt_tables db; tgt_sequences := ss |}.

Definition with_rows (rows : list Row) (tb : TargetTable) : TargetTable :=
  {| tgt_columns := tgt_columns tb; tgt_rows := rows;
     tgt_indexes := tgt_indexes tb |}.

Definition with_columns (cols : list Column) (tb : TargetTable) : TargetTable :=
  {| tgt_columns := cols; tgt_rows := tgt_rows tb;
     tgt_indexes := tgt_indexes tb |}.

Definition with_indexes (ix : list string) (tb : TargetTable) : TargetTable :=
  {| tgt_columns := tgt_columns tb; tgt_rows := tgt_rows tb;
     tgt_indexes := ix |}.

Definition with_default (d : option string) (c : Column) : Column :=
  {| column_name := column_name c; data_type := data_type c;
     udt_name := udt_name c; is_nullable := is_nullable c;
     character_maximum_length := character_maximum_length c;
     numeric_precision := numeric_precision c;
     numeric_scale := numeric_scale c; column_default := d |}.

(** A statement on one table that must exist. *)
Definition on_table {A} (t : string) (db : TargetDb)
    (k : TargetTable -> Reply A * TargetTable) : Reply A * TargetDb :=
  match lookup t (tgt_tables db) with
  | Some tb =>
      let (r, tb') := k tb in
      (r, with_tables (update t (fun _ => tb') (tgt_tables db)) db)
  | None => (Refuse (relation_missing t), db)
  end.

Definition has_table (t : string) (db : TargetDb) : Reply bool * TargetDb :=
  (Answer (has_key t (tgt_tables db)), db).

Definition count (t : string) (db : TargetDb) : Reply nat * TargetDb :=
  on_table t db (fun tb => (Answer (List.length (tgt_rows tb)), tb)).

Definition truncate (t : string) (db : TargetDb) : Reply unit * TargetDb :=
  on_table t db (fun tb => (Answer tt, with_rows [] tb)).

(** The sequence a column owns, as [pg_get_serial_sequence] names it. *)
Definition serial_sequence (t c : string) (db : TargetDb) : option string :=
  match
    find (fun s => match snd s with
                   | Some (t', c') => String.eqb t t' && String.eqb c c'
                   | None => false
                   end) (tgt_sequences db)
  with
  | Some s => Some ("public." ++ fst s)
  | None => None
  end.

(** The columns whose default is [LIKE 'nextval%'], each with its
    sequence. *)
Definition serial_columns (t : string) (db : TargetDb)
  : Reply (list (string * option string)) * TargetDb :=
  match lookup t (tgt_tables db) with
  | Some tb =>
      (Answer (map (fun c => (column_name c, serial_sequence t (column_name c) db))
               (filter (fun c => match column_default c with
                                 | Some d => Js.startsWith d "nextval"
                                 | None => false
                                 end) (tgt_columns tb))), db)
  | None => (Answer [], db)
  end.

Definition cell_number (c : string) (row : Row) : option Z :=
  match lookup c row with
  | Some (Js.Num n) => Some n
  | _ => None
  end.

Definition max_opt (a b : option Z) : option Z :=
  match a, b with
  | Some x, Some y => Some (Z.max x y)
  | Some x, None => Some x
  | None, b => b
  end.

(** [max(column)]: null on an empty table. *)
Definition max_of (t c : string) (db : TargetDb)
  : Reply (option Z) * TargetDb :=
  on_table t db (fun tb =>
    (Answer (fold_right max_opt None (map (cell_number c) (tgt_rows tb))), tb)).

(** The values of sequences are not part of the model. *)
Definition setval (seq : string) (next : Z) (db : TargetDb)
  : Reply unit * TargetDb :=
  (Answer tt, db).

Definition insert (t : string) (rows : list Row) (db : TargetDb)
  : Reply unit * TargetDb :=
  on_table t db (fun tb => (Answer tt, with_rows (tgt_rows tb ++ rows)%list tb)).

Definition same_key (a b : option Js.value) : bool :=
  match a, b with
  | Some (Js.Num x), Some (Js.Num y) => Z.eqb x y
  | Some (Js.BigInt x), Some (Js.BigInt y) => Z.eqb x y
  | Some (Js.Str x), Some (Js.Str y) => String.eqb x y
  | Some (Js.Bool x), Some (Js.Bool y) => Bool.eqb x y
  | _, _ => false
  end.

(** [insert(row).onConflict(key).merge()]: the row takes the place
    of the one with its key, or is added. *)
Definition upsert (t : string) (row : Row) (key : string) (db : TargetDb)
  : Reply unit * TargetDb :=
  on_table t db (fun tb =>
    let clash r := same_key (lookup key r) (lookup key row) in
    if existsb clash (tgt_rows tb)
    then (Answer tt, with_rows (map (fun r => if clash r then row else r)
                                (tgt_rows tb)) tb)
    else (Answer tt, with_rows (tgt_rows tb ++ [row])%list tb)).

(** Constraints are not part of the model. *)
Definition add_unique (t name cols : string) (db : TargetDb)
  : Reply unit * TargetDb :=
  on_table t db (fun tb => (Answer tt, tb)).

Definition sequence_exists (name : string) (db : TargetDb)
  : Reply bool * TargetDb :=
  (Answer (has_key name (tgt_sequences db)), db).

Definition create_sequence (name : string) (if_not_exists : bool)
    (db : TargetDb) : Reply unit * TargetDb :=
  if has_key name (tgt_sequences db) then
    if if_not_exists then (Answer tt, db)
    else (Refuse ("relation " ++ ident name ++ " already exists"), db)
  else (Answer tt, with_sequences (tgt_sequences db ++ [(name, None)])%list db).

Definition create_table (t : string) (cols : list Column) (db : TargetDb)
  : Reply unit * TargetDb :=
  if has_key t (tgt_tables db)
  then (Refuse ("relation " ++ ident t ++ " already exists"), db)
  else (Answer tt,
        with_tables
          (tgt_tables db
             ++ [(t, {| tgt_columns := cols; tgt_rows := [];
                        tgt_indexes := [] |})])%list db).

Definition set_column_default (t c seq : string) (db : TargetDb)
  : Reply unit * TargetDb :=
  if has_key seq (tgt_sequences db) then
    on_table t db (fun tb =>
      (Answer tt,
       with_columns
         (map (fun col =>
                 if String.eqb (column_name col) c
                 then with_default (Some ("nextval('" ++ seq ++ "'::regclass)")) col
                 else col) (tgt_columns tb)) tb))
  else (Refuse (relation_missing seq), db).

Definition own_sequence (seq t c : string) (db : TargetDb)
  : Reply unit * TargetDb :=
  if has_key seq (tgt_sequences db) && has_key t (tgt_tables db)
  then (Answer tt,
        with_sequences (update seq (fun _ => Some (t, c)) (tgt_sequences db)) db)
  else (Refuse (relation_missing seq), db).

Definition add_index (t name : string) (db : TargetDb)
  : Reply unit * TargetDb :=
  on_table t db (fun tb =>
    if Js.includes (tgt_indexes tb) name
    then (Refuse ("relation " ++ ident name ++ " already exists"), tb)
    else (Answer tt, with_indexes (tgt_indexes tb ++ [name])%list tb)).

Definition columns (t : string) (db : TargetDb)
  : Reply (list Column) * TargetDb :=
  match lookup t (tgt_tables db) with
  | Some tb => (Answer (tgt_columns tb), db)
  | None => (Answer [], db)
  end.

Definition add_column (t : string) (col : Column) (db : TargetDb)
  : Reply unit * TargetDb :=
  on_table t db (fun tb =>
    if Js.includes (map column_name (tgt_columns tb)) (column_name col)
    then (Refuse ("column " ++ ident (column_name col) ++ " of relation "
                 ++ ident t ++ " already exists"), tb)
    else (Answer tt, with_columns (tgt_columns tb ++ [col])%list tb)).

Definition index_names (t : string) (db : TargetDb)
  : Reply (list string) * TargetDb :=
  match lookup t (tgt_tables db) with
  | Some tb => (Answer (tgt_indexes tb), db)
  | None => (Answer [], db)
  end.

End Target.

Module Store.

Definition select_connection (id : string) (s : JobStore)
  : Reply (option Connection) * JobStore :=
  (Answer (lookup id (connections s)), s).

Definition insert_log (entry : MigrationLog) (s : JobStore)
  : Reply unit * JobStore :=
  (Answer tt, {| connections := connections s; migrations := migrations s;
             migration_logs := (migration_logs s ++ [entry])%list |}).

Definition apply_update (u : MigrationUpdate) (m : Migration) : Migration :=
  {| mig_status := upd_status u;
     mig_result := match upd_result u with
                   | Some r => Some r
                   | None => mig_result m
                   end;
     mig_duration_ms := Some (upd_duration_ms u);
     mig_error_message := match upd_error_message u with
                          | Some e => Some e
                          | None => mig_error_message m
                          end |}.

(** [appDb('migrations').where('id', id).update(u)] *)
Definition update_migration (id : string) (u : MigrationUpdate) (s : JobStore)
  : Reply unit * JobStore :=
  (Answer tt, {| connections := connections s;
             migrations := update id (apply_update u) (migrations s);
             migration_logs := migration_logs s |}).

End Store.

(* ================================================================== *)
(** * The engine *)
(* ================================================================== *)

(** The first quoted, non-empty run of a default expression (the match
    of a quote, characters other than a quote, a quote), cut down to
    its last dotted component: [seqMatch[1].split('.').pop()]. *)
Module SeqName.

Definition quote : ascii := "'"%char.

(** The run of characters up to the next quote, and what follows that
    quote; [None] when no quote follows. *)
Fixpoint run (l : list ascii) : option (list ascii * list ascii) :=
  match l with
  | [] => None
  | c :: r =>
      if Ascii.eqb c quote then Some ([], r)
      else match run r with
           | Some (body, rest) => Some (c :: body, rest)
           | None => None
           end
  end.

Fixpoint first_match (l : list ascii) : option (list ascii) :=
  match l with
  | [] => None
  | c :: r =>
      if Ascii.eqb c quote then
        match run r with
        | Some (ch :: body, _) => Some (ch :: body)
        | _ => first_match r
        end
      else first_match r
  end.

(** The part after the last dot. *)
Fixpoint last_component (l acc : list ascii) : list ascii :=
  match l with
  | [] => rev acc
  | c :: r =>
      if Ascii.eqb c "."%char then last_component r []
      else last_component r (c :: acc)
  end.

Definition extract (column_default : string) : option string :=
  match first_match (list_ascii_of_string column_default) with
  | Some m => Some (string_of_list_ascii (last_component m []))
  | None => None
  end.

End SeqName.

(** The [changes] object of [migrateSchema]. *)
Record SchemaError : Type := {
  err_table : option string;
  err_column : option string;
  err_error : string
}.

Record SchemaChanges : Type := {
  tableCreated : bool;
  sequencesCreated : nat;
  columnsAdded : list string;
  columnsModified : list string;
  errors : list SchemaError
}.

Definition noChanges : SchemaChanges :=
  {| tableCreated := false; sequencesCreated := 0; columnsAdded := [];
     columnsModified := []; errors := [] |}.

(** One entry of the [collections] array; [rule] may be missing. *)
Record Collection : Type := {
  name : string;
  rule : option string
}.

Definition batchSize : nat := 500.

Section Engine.

Variable env : Env.

(** ** Sending a statement *)

Definition ask_store {A} (s : Stmt)
    (answer : JobStore -> Reply A * JobStore) : M A :=
  fun w =>
    match faults env s (clock w) with
    | Some e => (Throw e, sent s false w)
    | None =>
        (settle (fst (answer (store w))),
         set_store (snd (answer (store w)))
                   (sent s (answered (fst (answer (store w)))) w))
    end.

Definition ask_source {A} (s : Stmt) (answer : SourceDb -> Reply A) : M A :=
  fun w =>
    match faults env s (clock w) with
    | Some e => (Throw e, sent s false w)
    | None =>
        (settle (answer (source env)),
         sent s (answered (answer (source env))) w)
    end.

Definition ask_target {A} (s : Stmt)
    (answer : TargetDb -> Reply A * TargetDb) : M A :=
  fun w =>
    match faults env s (clock w) with
    | Some e => (Throw e, sent s false w)
    | None =>
        (settle (fst (answer (target w))),
         set_target (snd (answer (target w)))
                    (sent s (answered (fst (answer (target w)))) w))
    end.

(** [targetDb.raw('SET session_replication_role = ...')] *)
Definition setRole (r : Role) : M unit :=
  fun w =>
    match faults env (SetRole r) (clock w) with
    | Some e => (Throw e, sent (SetRole r) false w)
    | None => (Ok tt, set_role r (sent (SetRole r) true w))
    end.

(** ** logMigration *)

Definition logMigration (migrationId collectionName : string)
    (level : Level) (message : string) : M unit :=
  let entry := {| log_migration_id := migrationId;
                  log_collection_name := collectionName;
                  log_level := level; log_message := message |} in
  try_catch (ask_store (InsertLog entry) (Store.insert_log entry))
            (fun _ => logger Error "Failed to log migration:").

(** ** getTableColumns, on the source *)

Definition getTableColumns (tableName : string) : M (list Column) :=
  ask_source (SrcColumns tableName) (Source.columns tableName).

(** ** resetSequences, on the target *)

Definition resetSequences (tableName : string) : M unit :=
  try_catch
    (sequences <- ask_target (SerialColumns tableName)
                             (Target.serial_columns tableName) ;;
     for_each sequences
       (fun seq _ =>
          if truthy_str (snd seq) then
            let sequence_name := str_or (snd seq) "" in
            try_catch
              (maxResult <- ask_target (MaxOf tableName (fst seq))
                                       (Target.max_of tableName (fst seq)) ;;
               let maxValue := num_or maxResult 0 in
               ask_target (Setval sequence_name (maxValue + 1))
                          (Target.setval sequence_name (maxValue + 1)) ;;
               logger Info ("Sequence " ++ sequence_name ++ " reset to "
                            ++ Js.of_Z (maxValue + 1)))
              (fun e =>
                 logger Warning ("Could not reset sequence " ++ sequence_name
                                 ++ ": " ++ e))
          else ret tt)
       tt)
    (fun e =>
       logger Warning ("Sequence reset skipped for " ++ tableName ++ ": " ++ e)).

(** ** tableHasData, on the target *)

Definition tableHasData (tableName : string) : M bool :=
  try_catch
    (n <- ask_target (CountRows tableName) (Target.count tableName) ;;
     ret (Nat.ltb 0 n))
    (fun _ => ret false).

(** ** copyConstraints *)

Definition copyConstraints (tableName : string) : M unit :=
  try_catch
    (uniqueConstraints <- ask_source (SrcUniqueConstraints tableName)
                                     (Source.unique_constraints tableName) ;;
     for_each uniqueConstraints
       (fun constraint _ =>
          try_catch
            (ask_target (AddUnique tableName (fst constraint) (snd constraint))
                        (Target.add_unique tableName (fst constraint)
                                           (snd constraint)) ;;
             logger Info ("Unique constraint " ++ fst constraint ++ " created"))
            (fun e =>
               if negb (Js.str_includes e "already exists")
               then logger Warning ("Could not create constraint "
                                    ++ fst constraint ++ ": " ++ e)
               else ret tt))
       tt)
    (fun e =>
       logger Warning ("Constraint copy skipped for " ++ tableName ++ ": " ++ e)).

(** ** getTableColumnsDetailed, on either side *)

Inductive Side := SourceSide | TargetSide.

Definition getTableColumnsDetailed (db : Side) (tableName : string)
  : M (list Column) :=
  match db with
  | SourceSide =>
      ask_source (SrcColumnsDetailed tableName) (Source.columns tableName)
  | TargetSide =>
      ask_target (TgtColumnsDetailed tableName) (Target.columns tableName)
  end.

(** ** getTableSequences, on the source *)

Definition getTableSequences (tableName : string) : M (list Sequence) :=
  try_catch
    (ask_source (SrcSequences tableName) (Source.sequences tableName))
    (fun _ => ret []).

(** ** createSequences *)

Definition createSeqSQL (seq : Sequence) : string :=
  "CREATE SEQUENCE IF NOT EXISTS " ++ ident (sequence_name seq)
  ++ " INCREMENT BY " ++ str_or (seq_increment seq) "1"
  ++ " MINVALUE " ++ str_or (seq_minimum_value seq) "1"
  ++ " START WITH " ++ str_or (seq_start_value seq) "1".

Definition createSequences (tableName : string) (log : string -> M unit)
  : M unit :=
  try_catch
    (sequences <- getTableSequences tableName ;;
     for_each sequences
       (fun seq _ =>
          try_catch
            (seqExists <- ask_target (SequenceExists (sequence_name seq))
                            (Target.sequence_exists (sequence_name seq)) ;;
             if negb seqExists then
               ask_target
                 (CreateSequence (createSeqSQL seq) (sequence_name seq) true)
                 (Target.create_sequence (sequence_name seq) true) ;;
               log ("Sequence " ++ sequence_name seq ++ " created")
             else
               log ("Sequence " ++ sequence_name seq ++ " already exists"))
            (fun e =>
               log ("Could not create sequence " ++ sequence_name seq
                    ++ ": " ++ e)))
       tt)
    (fun e => log ("Sequence creation skipped: " ++ e)).

(** ** syncIndexes *)

Definition syncIndexes (tableName : string) (log : string -> M unit)
  : M unit :=
  try_catch
    (sourceIndexes <- ask_source (SrcIndexes tableName)
                                 (Source.indexes tableName) ;;
     targetIndexNames <- ask_target (TgtIndexes tableName)
                                    (Target.index_names tableName) ;;
     for_each sourceIndexes
       (fun idx _ =>
          if negb (Js.includes targetIndexNames (fst idx)) then
            try_catch
              (log ("Creating index: " ++ fst idx) ;;
               ask_target (CreateIndex tableName (fst idx) (snd idx))
                          (Target.add_index tableName (fst idx)) ;;
               log ("Index " ++ fst idx ++ " created"))
              (fun e =>
                 log ("Could not create index " ++ fst idx ++ ": " ++ e))
          else ret tt)
       tt)
    (fun e => log ("Index sync skipped: " ++ e)).

(** ** migrateSchema

    The callback the coordinator passes logs to the job store under
    the table's name; it is written out here.  The outer handler
    starts from [noChanges]: the statements that can reach it (the
    two column queries and the existence probe) run before anything
    is recorded in [changes]. *)

Definition columnDef (col : Column) : string :=
  ident (column_name col) ++ " " ++ columnToSqlType col
  ++ (if hasNextvalDefault col then ""
      else if truthy_str (column_default col)
           then " DEFAULT " ++ str_or (column_default col) ""
           else "")
  ++ (if String.eqb (is_nullable col) "NO" then " NOT NULL" else "").

Definition createTableSQL (tableName : string) (sourceColumns : list Column)
  : string :=
  "CREATE TABLE " ++ ident tableName ++ " ("
  ++ Js.join ", " (map columnDef sourceColumns) ++ ")".

(** The columns as the created table has them: a sequence default is
    set by a later statement. *)
Definition createdColumns (sourceColumns : list Column) : list Column :=
  map (fun col => if hasNextvalDefault col
                  then Target.with_default None col else col) sourceColumns.

Definition alterSQL (tableName : string) (col : Column) : string :=
  "ALTER TABLE " ++ ident tableName ++ " ADD COLUMN "
  ++ ident (column_name col) ++ " " ++ columnToSqlType col
  ++ (if hasNextvalDefault col
      then " DEFAULT " ++ str_or (column_default col) ""
      else if truthy_str (column_default col)
      then " DEFAULT " ++ str_or (column_default col) ""
      else if String.eqb (is_nullable col) "NO" then
        match getDefaultValueForType (data_type col) with
        | Some defaultValue => " DEFAULT " ++ defaultValue
        | None => ""
        end
      else "").

Definition pushColumn (c : string) (ch : SchemaChanges) : SchemaChanges :=
  {| tableCreated := tableCreated ch;
     sequencesCreated := sequencesCreated ch;
     columnsAdded := (columnsAdded ch ++ [c])%list;
     columnsModified := columnsModified ch;
     errors := errors ch |}.

Definition pushError (e : SchemaError) (ch : SchemaChanges) : SchemaChanges :=
  {| tableCreated := tableCreated ch;
     sequencesCreated := sequencesCreated ch;
     columnsAdded := columnsAdded ch;
     columnsModified := columnsModified ch;
     errors := (errors ch ++ [e])%list |}.

Definition tableError (t e : string) : SchemaError :=
  {| err_table := Some t; err_column := None; err_error := e |}.

Definition columnError (c e : string) : SchemaError :=
  {| err_table := None; err_column := Some c; err_error := e |}.

(** The branch for a table the target does not have.  The flag says
    that the function returned from inside the branch. *)
Definition createTable (tableName : string) (sourceColumns : list Column)
    (log : string -> M unit) : M (SchemaChanges * bool) :=
  log ("Creating sequences for " ++ tableName ++ "...") ;;
  createSequences tableName log ;;
  log ("Creating table " ++ tableName ++ "...") ;;
  createError <-
    try_catch
      (ask_target (CreateTable (createTableSQL tableName sourceColumns)
                               tableName (createdColumns sourceColumns))
                  (Target.create_table tableName (createdColumns sourceColumns)) ;;
       ret None)
      (fun e => ret (Some e)) ;;
  match createError with
  | Some e =>
      log ("Failed to create table: " ++ e) ;;
      ret (pushError (tableError tableName e) noChanges, true)
  | None =>
      log ("Table " ++ tableName ++ " created with "
           ++ Js.of_Z (Z.of_nat (List.length sourceColumns)) ++ " columns") ;;
      configured <-
        for_each sourceColumns
          (fun col n =>
             if hasNextvalDefault col then
               try_catch
                 (match SeqName.extract (str_or (column_default col) "") with
                  | Some seqName =>
                      ask_target
                        (SetColumnDefault tableName (column_name col) seqName)
                        (Target.set_column_default tableName (column_name col)
                                                   seqName) ;;
                      ask_target
                        (OwnSequence seqName tableName (column_name col))
                        (Target.own_sequence seqName tableName (column_name col)) ;;
                      log ("Sequence " ++ seqName ++ " configured for column "
                           ++ column_name col) ;;
                      ret (S n)
                  | None => ret n
                  end)
                 (fun e =>
                    log ("Could not configure sequence for "
                         ++ column_name col ++ ": " ++ e) ;;
                    ret n)
             else ret n)
          0 ;;
      let pkColumns := filter hasNextvalDefault sourceColumns in
      (if Nat.ltb 0 (List.length pkColumns) then
         let pkName := tableName ++ "_pkey" in
         let pkColNames :=
           Js.join ", " (map (fun c => ident (column_name c)) pkColumns) in
         try_catch
           (ask_target (AddPrimaryKey tableName pkName pkColNames)
                       (Target.add_index tableName pkName) ;;
            log "Primary key created")
           (fun e => log ("Could not create primary key: " ++ e))
       else ret tt) ;;
      ret ({| tableCreated := true; sequencesCreated := configured;
              columnsAdded := []; columnsModified := []; errors := [] |},
           false)
  end.

(** The body of the loop over the missing columns: the sequence of a
    serial column is created when the target lacks it, then the column
    is added; [changes] records the column, or the error. *)
Definition ensureSequence (col : Column) (log : string -> M unit) : M unit :=
  if hasNextvalDefault col then
    match SeqName.extract (str_or (column_default col) "") with
    | Some seqName =>
        seqExists <- ask_target (SequenceExists seqName)
                                (Target.sequence_exists seqName) ;;
        if negb seqExists then
          ask_target (CreateSequence ("CREATE SEQUENCE " ++ ident seqName)
                                     seqName false)
                     (Target.create_sequence seqName false) ;;
          log ("Sequence " ++ seqName ++ " created")
        else ret tt
    | None => ret tt
    end
  else ret tt.

Definition addColumn (tableName : string) (log : string -> M unit)
    (col : Column) (changes : SchemaChanges) : M SchemaChanges :=
  try_catch
    (ensureSequence col log ;;
     log ("Adding column: " ++ column_name col) ;;
     ask_target (AddColumn (alterSQL tableName col) tableName col)
                (Target.add_column tableName col) ;;
     log ("Column " ++ column_name col ++ " added") ;;
     ret (pushColumn (column_name col) changes))
    (fun e =>
       log ("Failed to add column " ++ column_name col ++ ": " ++ e) ;;
       ret (pushError (columnError (column_name col) e) changes)).

(** The branch for a table the target has: the missing columns are
    added one by one. *)
Definition addMissingColumns (tableName : string)
    (sourceColumns : list Column) (log : string -> M unit)
  : M (SchemaChanges * bool) :=
  log ("Table " ++ tableName ++ " exists, checking for new columns...") ;;
  targetColumns <- getTableColumnsDetailed TargetSide tableName ;;
  let targetColumnNames := map column_name targetColumns in
  let missingColumns :=
    filter (fun srcCol =>
              negb (Js.includes targetColumnNames (column_name srcCol)))
           sourceColumns in
  if Nat.eqb (List.length missingColumns) 0 then
    log ("Table " ++ tableName ++ " is up to date") ;;
    ret (noChanges, false)
  else
    log ("Found " ++ Js.of_Z (Z.of_nat (List.length missingColumns))
         ++ " new column(s) to add") ;;
    changes <- for_each missingColumns (addColumn tableName log) noChanges ;;
    ret (changes, false).

Definition migrateSchema (migrationId tableName : string) : M SchemaChanges :=
  let log := fun msg => logMigration migrationId tableName Info msg in
  try_catch
    (sourceColumns <- getTableColumnsDetailed SourceSide tableName ;;
     if Nat.eqb (List.length sourceColumns) 0 then
       log ("Table " ++ tableName ++ " not found in source database") ;;
       ret noChanges
     else
       tableExists <- ask_target (TableExists tableName)
                                 (Target.has_table tableName) ;;
       branch <- (if negb tableExists
                  then createTable tableName sourceColumns log
                  else addMissingColumns tableName sourceColumns log) ;;
       if snd branch then ret (fst branch)
       else syncIndexes tableName log ;; ret (fst branch))
    (fun e =>
       log ("Schema migration failed for " ++ tableName ++ ": " ++ e) ;;
       ret (pushError (tableError tableName e) noChanges)).

(** ** migrateData *)

Definition log_lines (lines : list LogLine) : M unit :=
  for_each lines (fun l _ => logger (fst l) (snd l)) tt.

(** [rows.map(row => prepareRowForInsert(row, ...))], the preparer's
    log lines going to the logger. *)
Definition prepareAll (data : list Row) (jsonColumns arrayColumns : list string)
  : M (list Row) :=
  let prepared :=
    map (fun row => prepareRowForInsert row jsonColumns arrayColumns) data in
  log_lines (concat (map snd prepared)) ;;
  ret (map fst prepared).

(** The log line of a row that was refused: it carries the first 200
    characters of [JSON.stringify(row)], which throws on a row that
    does not serialise. *)
Definition logFailedRow (tableName : string) (row : Row) : M unit :=
  match Js.stringify (Js.Obj row) with
  | Some text =>
      logger Error ("Failed to insert row in " ++ tableName ++ ": "
                    ++ String.substring 0 200 text)
  | None => throw "Do not know how to serialize a BigInt"
  end.

(** The [while (true)] loop.  [fuel] bounds the number of batches;
    [migrateData] supplies more than the source can fill. *)
Fixpoint migrateData_loop (fuel : nat) (tableName : string)
    (jsonColumns arrayColumns : list string) (totalRows : nat)
    (offset totalMigrated : nat) : M nat :=
  match fuel with
  | 0 => fun w => (OutOfFuel, w)
  | S fuel' =>
      data <- ask_source (SrcSelect tableName batchSize offset)
                         (Source.select tableName batchSize offset) ;;
      if Nat.eqb (List.length data) 0 then ret totalMigrated
      else
        preparedData <- prepareAll data jsonColumns arrayColumns ;;
        totalMigrated' <-
          try_catch
            (setRole RoleReplica ;;
             ask_target (InsertBatch tableName preparedData)
                        (Target.insert tableName preparedData) ;;
             setRole RoleDefault ;;
             let total := totalMigrated + List.length data in
             logger Info (tableName ++ ": " ++ Js.of_Z (Z.of_nat total) ++ "/"
                          ++ Js.of_Z (Z.of_nat totalRows) ++ " rows") ;;
             ret total)
            (fun insertError =>
               logger Warning ("Batch insert failed for " ++ tableName
                               ++ ", trying row by row: " ++ insertError) ;;
               setRole RoleReplica ;;
               total <-
                 for_each preparedData
                   (fun row total =>
                      try_catch
                        (ask_target (InsertRow tableName row)
                                    (Target.insert tableName [row]) ;;
                         ret (S total))
                        (fun rowError =>
                           logFailedRow tableName row ;; ret total))
                   totalMigrated ;;
               setRole RoleDefault ;;
               ret total) ;;
        if Nat.ltb (List.length data) batchSize then ret totalMigrated'
        else migrateData_loop fuel' tableName jsonColumns arrayColumns
                              totalRows (offset + batchSize) totalMigrated'
  end.

Definition migrateData (tableName : string)
    (jsonColumns arrayColumns : list string) : M nat :=
  totalRows <- ask_source (SrcCount tableName) (Source.count tableName) ;;
  logger Info ("Starting data migration for " ++ tableName ++ ": "
               ++ Js.of_Z (Z.of_nat totalRows) ++ " rows") ;;
  totalMigrated <-
    migrateData_loop (S totalRows) tableName jsonColumns arrayColumns
                     totalRows 0 0 ;;
  logger Info ("Completed data migration for " ++ tableName ++ ": "
               ++ Js.of_Z (Z.of_nat totalMigrated) ++ "/"
               ++ Js.of_Z (Z.of_nat totalRows) ++ " rows") ;;
  ret totalMigrated.

(** ** upsertData *)

(** [pkQuery.rows[0]?.column_name || 'id'] *)
Definition primaryKeyOf (rows : list string) : string :=
  match rows with
  | column_name :: _ => if String.eqb column_name "" then "id" else column_name
  | [] => "id"
  end.

Definition upsertData (tableName : string)
    (jsonColumns arrayColumns : list string) : M nat :=
  pkQuery <- ask_source (SrcPrimaryKey tableName)
                        (Source.primary_key tableName) ;;
  let primaryKey := primaryKeyOf pkQuery in
  data <- ask_source (SrcSelectAll tableName) (Source.select_all tableName) ;;
  for_each data
    (fun row count =>
       let prepared := prepareRowForInsert row jsonColumns arrayColumns in
       log_lines (snd prepared) ;;
       let preparedRow := fst prepared in
       try_catch
         (ask_target (Upsert tableName preparedRow primaryKey)
                     (Target.upsert tableName preparedRow primaryKey) ;;
          ret (S count))
         (fun e =>
            logger Error ("Upsert failed for row in " ++ tableName ++ ": " ++ e) ;;
            ret count))
    0.

(** ** insertIgnoreData *)

Definition insertIgnoreData (tableName : string)
    (jsonColumns arrayColumns : list string) : M nat :=
  data <- ask_source (SrcSelectAll tableName) (Source.select_all tableName) ;;
  for_each data
    (fun row inserted =>
       let prepared := prepareRowForInsert row jsonColumns arrayColumns in
       log_lines (snd prepared) ;;
       let preparedRow := fst prepared in
       try_catch
         (ask_target (InsertRow tableName preparedRow)
                     (Target.insert tableName [preparedRow]) ;;
          ret (S inserted))
         (fun e =>
            (if negb (Js.str_includes e "duplicate key")
                && negb (Js.str_includes e "unique constraint")
             then logger Error ("Insert failed for row in " ++ tableName
                                ++ ": " ++ e)
             else ret tt) ;;
            ret inserted))
    0.

(** ** executeMigration *)

(** [collection.rule || globalRule] *)
Definition effectiveRule (globalRule : string) (collection : Collection)
  : string :=
  str_or (rule collection) globalRule.

Definition schemaRule (migrationId collectionName : string) : M nat :=
  schemaChanges <- migrateSchema migrationId collectionName ;;
  (if tableCreated schemaChanges
   then logMigration migrationId collectionName Info
                     "Table created successfully"
   else ret tt) ;;
  (if Nat.ltb 0 (List.length (columnsAdded schemaChanges))
   then logMigration migrationId collectionName Info
          ("Added columns: " ++ Js.join ", " (columnsAdded schemaChanges))
   else ret tt) ;;
  (if Nat.ltb 0 (List.length (errors schemaChanges))
   then logMigration migrationId collectionName Warning
          ("Errors: " ++ Js.join "; " (map err_error (errors schemaChanges)))
   else ret tt) ;;
  ret (List.length (columnsAdded schemaChanges)).

(** The block that empties a target table that has rows. *)
Definition truncateTarget (migrationId collectionName : string) : M unit :=
  setRole RoleReplica ;;
  try_finally
    (ask_target (Truncate collectionName) (Target.truncate collectionName) ;;
     logMigration migrationId collectionName Info "Table truncated" ;;
     resetSequences collectionName ;;
     logMigration migrationId collectionName Info "Sequences reset")
    (setRole RoleDefault).

Definition overwriteRule (migrationId collectionName : string)
    (jsonColumns arrayColumns : list string) : M nat :=
  targetTableExists <- ask_target (HasTable collectionName)
                                  (Target.has_table collectionName) ;;
  (if negb targetTableExists then
     logMigration migrationId collectionName Info
                  "Target table does not exist, creating..." ;;
     migrateSchema migrationId collectionName ;;
     ret tt
   else ret tt) ;;
  hasData <- tableHasData collectionName ;;
  (if hasData then truncateTarget migrationId collectionName
   else logMigration migrationId collectionName Info
                     "Table is empty, skipping truncate") ;;
  rowsMigrated <- migrateData collectionName jsonColumns arrayColumns ;;
  resetSequences collectionName ;;
  copyConstraints collectionName ;;
  logMigration migrationId collectionName Info
    ("Overwrite complete: " ++ Js.of_Z (Z.of_nat rowsMigrated)
     ++ " rows migrated") ;;
  ret rowsMigrated.

Definition upsertRule (migrationId collectionName : string)
    (jsonColumns arrayColumns : list string) : M nat :=
  rowsMigrated <- upsertData collectionName jsonColumns arrayColumns ;;
  logMigration migrationId collectionName Info
    ("Upsert complete: " ++ Js.of_Z (Z.of_nat rowsMigrated) ++ " rows") ;;
  ret rowsMigrated.

Definition ignoreRule (migrationId collectionName : string)
    (jsonColumns arrayColumns : list string) : M nat :=
  rowsMigrated <- insertIgnoreData collectionName jsonColumns arrayColumns ;;
  logMigration migrationId collectionName Info
    ("Insert ignore complete: " ++ Js.of_Z (Z.of_nat rowsMigrated) ++ " rows") ;;
  ret rowsMigrated.

(** [switch (rule)]: a rule that is none of the four cases leaves
    [rowsMigrated] at 0. *)
Definition dispatch (migrationId collectionName rule : string)
    (jsonColumns arrayColumns : list string) : M nat :=
  if String.eqb rule "schema" then schemaRule migrationId collectionName
  else if String.eqb rule "overwrite"
  then overwriteRule migrationId collectionName jsonColumns arrayColumns
  else if String.eqb rule "upsert"
  then upsertRule migrationId collectionName jsonColumns arrayColumns
  else if String.eqb rule "ignore"
  then ignoreRule migrationId collectionName jsonColumns arrayColumns
  else ret 0.

(** The [try] block of one iteration, up to the value of
    [rowsMigrated]. *)
Definition migrateCollection (migrationId collectionName rule : string)
  : M nat :=
  logMigration migrationId collectionName Info
               ("Starting migration with rule: " ++ rule) ;;
  columns <- getTableColumns collectionName ;;
  let jsonColumns := getJsonColumns columns in
  let arrayColumns := getArrayColumns columns in
  logger Info ("Table " ++ collectionName ++ " - JSON columns: "
               ++ (if String.eqb (Js.join ", " jsonColumns) "" then "none"
                   else Js.join ", " jsonColumns)) ;;
  logger Info ("Table " ++ collectionName ++ " - Array columns: "
               ++ (if String.eqb (Js.join ", " arrayColumns) "" then "none"
                   else Js.join ", " arrayColumns)) ;;
  dispatch migrationId collectionName rule jsonColumns arrayColumns.

Definition succeeded (collectionName rule : string) (rowsMigrated : nat)
  : TableResult :=
  {| res_collection := collectionName; res_rule := rule;
     res_rowsMigrated := Some rowsMigrated; res_status := Success;
     res_error := None |}.

Definition failed (collectionName rule error : string) : TableResult :=
  {| res_collection := collectionName; res_rule := rule;
     res_rowsMigrated := None; res_status := TableFailed;
     res_error := Some error |}.

(** One iteration of [for (const collection of collections)]:
    [results] after it. *)
Definition processCollection (migrationId globalRule : string)
    (collection : Collection) (results : list TableResult)
  : M (list TableResult) :=
  let collectionName := name collection in
  let rule := effectiveRule globalRule collection in
  logger Info ("Processing collection: " ++ collectionName
               ++ " with rule: " ++ rule) ;;
  try_catch
    (rowsMigrated <- migrateCollection migrationId collectionName rule ;;
     ret (results ++ [succeeded collectionName rule rowsMigrated])%list)
    (fun error =>
       logger Error ("Error migrating " ++ collectionName ++ ":") ;;
       logMigration migrationId collectionName Error
                    ("Migration failed: " ++ error) ;;
       ret (results ++ [failed collectionName rule error])%list).

Definition completedUpdate (results : list TableResult) (duration : nat)
  : MigrationUpdate :=
  {| upd_status := Completed; upd_result := Some results;
     upd_error_message := None; upd_duration_ms := duration |}.

Definition failedUpdate (error : string) (duration : nat) : MigrationUpdate :=
  {| upd_status := Failed; upd_result := None;
     upd_error_message := Some error; upd_duration_ms := duration |}.

(** The pools of the two databases are opened lazily and destroyed in
    the [finally] block; neither sends a statement. *)
Definition executeMigration (migrationId sourceConnId targetConnId
    globalRule : string) (collections : list Collection) : M unit :=
  startTime <- now ;;
  try_finally
    (try_catch
       (sourceConn <- ask_store (SelectConnection sourceConnId)
                                (Store.select_connection sourceConnId) ;;
        targetConn <- ask_store (SelectConnection targetConnId)
                                (Store.select_connection targetConnId) ;;
        match sourceConn, targetConn with
        | Some _, Some _ =>
            results <- for_each collections
                         (processCollection migrationId globalRule) [] ;;
            finished <- now ;;
            let duration := finished - startTime in
            ask_store
              (UpdateMigration migrationId (completedUpdate results duration))
              (Store.update_migration migrationId
                                      (completedUpdate results duration)) ;;
            logger Info ("Migration " ++ migrationId ++ " completed in "
                         ++ Js.of_Z (Z.of_nat duration) ++ "ms")
        | _, _ => throw "Source or target connection not found"
        end)
       (fun error =>
          logger Error ("Migration " ++ migrationId ++ " failed:") ;;
          finished <- now ;;
          ask_store
            (UpdateMigration migrationId
                             (failedUpdate error (finished - startTime)))
            (Store.update_migration migrationId
                                    (failedUpdate error (finished - startTime)))))
    (ret tt).

End Engine.

(* ================================================================== *)
(** * The other functions of the service *)
(* ================================================================== *)

(** ** serializeJsonFields

    The serializer the type preparer took the place of.  It looks at
    the values only, not at [jsonColumns]; [None] stands for the
    exception [JSON.stringify] throws, which nothing catches here. *)

(** [value !== null && typeof value === 'object'] *)
Definition isObjectValue (value : Js.value) : bool :=
  match value with
  | Js.Null => false
  | _ => Js.is_object value
  end.

Fixpoint serializeJsonFields (row : Row) (jsonColumns : list string)
  : option Row :=
  match row with
  | [] => Some []
  | (key, value) :: rest =>
      match (if isObjectValue value
             then match Js.stringify value with
                  | Some s => Some (Js.Str s)
                  | None => None
                  end
             else Some value) with
      | Some serialized =>
          match serializeJsonFields rest jsonColumns with
          | Some rest' => Some ((key, serialized) :: rest')
          | None => None
          end
      | None => None
      end
  end.

(** ** validateMigration, on the source

    [errors] is empty when the [catch] block is entered: the only push
    of the [try] block that can come before an exception is the one
    for a missing table, after which no statement is sent. *)

(** [sourceDb.schema.hasTable(t)] *)
Definition sourceHasTable (t : string) (db : SourceDb) : Reply bool :=
  Answer (has_key t db).

Definition validateMigration (env : Env) (collectionName : string)
  : M (bool * list string) :=
  errors <-
    try_catch
      (sourceExists <- ask_source env (HasTable collectionName)
                                  (sourceHasTable collectionName) ;;
       if negb sourceExists then
         ret ["Table " ++ collectionName ++ " does not exist in source database"]
       else
         sourceCount <- ask_source env (SrcCount collectionName)
                                   (Source.count collectionName) ;;
         if Nat.eqb sourceCount 0
         then ret ["Table " ++ collectionName ++ " is empty in source database"]
         else ret [])
      (fun e => ret ["Validation failed: " ++ e]) ;;
  ret (Nat.eqb (List.length errors) 0, errors).

(* ================================================================== *)
(** * Vocabulary of the properties *)
(* ================================================================== *)

(** A column is JSON when its data type or its underlying type is json
    or jsonb. *)
Definition JsonColumn (col : Column) : Prop :=
  data_type col = "json" \/ data_type col = "jsonb"
  \/ udt_name col = "json" \/ udt_name col = "jsonb".

(** A column is an ARRAY when its data type says so or its underlying
    type starts with an underscore. *)
Definition ArrayColumn (col : Column) : Prop :=
  data_type col = "ARRAY" \/ exists rest, udt_name col = String "_" rest.

(** The preparer serialises the value of a column: an object in a JSON
    column, or an object other than a date in a column that is neither
    JSON nor ARRAY. *)
Definition serialised (jsonColumns arrayColumns : list string)
    (key : string) (value : Js.value) : bool :=
  negb (Js.is_nullish value)
  && Js.is_object value
  && (Js.includes jsonColumns key
      || (negb (Js.includes arrayColumns key) && negb (Js.is_date value))).

(** What the prepared row carries for a column whose serialisation
    failed. *)
Definition placeholder (jsonColumns : list string) (key : string) : Js.value :=
  if Js.includes jsonColumns key then Js.Str "{}" else Js.Null.

(** The line the preparer logs for such a column. *)
Definition failure_line (jsonColumns : list string) (key : string) : LogLine :=
  if Js.includes jsonColumns key
  then (Error, "Failed to stringify JSON column " ++ key ++ ":")
  else (Error, "Failed to stringify object in column " ++ key ++ ":").

(** A value that does not serialise, and a row that holds it. *)
Definition unserialisable : Js.value :=
  Js.Obj [("total", Js.BigInt 9007199254740993)].

Definition payload_row : Row :=
  [("id", Js.Num 1); ("payload", unserialisable); ("extra", unserialisable)].

(** An array of text with a backslash in an element. *)
Definition windows_paths : list Js.value := [Js.Str "C:\temp"].

(** A plain column: only its name and types matter. *)
Definition plainColumn (n ty udt : string) : Column :=
  {| column_name := n; data_type := ty; udt_name := udt; is_nullable := "YES";
     character_maximum_length := None; numeric_precision := None;
     numeric_scale := None; column_default := None |}.

(** A numeric(10,0) column as the catalog describes it. *)
Definition numeric_10_0 : Column :=
  {| column_name := "quantity"; data_type := "numeric"; udt_name := "numeric";
     is_nullable := "NO"; character_maximum_length := None;
     numeric_precision := Some 10%Z; numeric_scale := Some 0%Z;
     column_default := None |}.

(** The state of the job once it has read its two connections. *)
Definition connected (sourceConnId targetConnId : string) (w : World) : World :=
  sent (SelectConnection targetConnId) true
       (sent (SelectConnection sourceConnId) true w).

(** The state the migration of a table starts in, when the iteration
    before it left [w]: the line that announces the table is in the
    application log, and nothing else has changed. *)
Definition announced (globalRule : string) (c : Collection) (w : World)
  : World :=
  snd (logger Info ("Processing collection: " ++ name c ++ " with rule: "
                    ++ effectiveRule globalRule c) w).

(** The state the iteration leaves when the migration of the table
    threw [error] and ended in [w]: the error is in the application log
    and the line of the failure has been sent to the job's log. *)
Definition reported (env : Env) (migrationId : string) (c : Collection)
    (error : string) (w : World) : World :=
  snd ((logger Error ("Error migrating " ++ name c ++ ":") ;;
        logMigration env migrationId (name c) Error
                     ("Migration failed: " ++ error)) w).

(** The tables of a job, run one after the other from [w], each in the
    state the one before it left, gave these entries and ended in
    [w']: a table whose migration returned a number has the successful
    entry with that number, a table whose migration threw has the
    failed entry with the message of the exception, and the next table
    runs either way. *)
Inductive tables_ran (env : Env) (migrationId globalRule : string)
  : World -> list Collection -> list TableResult -> World -> Prop :=
| ran_none (w : World) :
    tables_ran env migrationId globalRule w [] [] w
| ran_returned (w w1 w' : World) (c : Collection) (cs : list Collection)
    (rs : list TableResult) (rowsMigrated : nat) :
    migrateCollection env migrationId (name c) (effectiveRule globalRule c)
                      (announced globalRule c w)
    = (Ok rowsMigrated, w1) ->
    tables_ran env migrationId globalRule w1 cs rs w' ->
    tables_ran env migrationId globalRule w (c :: cs)
      (succeeded (name c) (effectiveRule globalRule c) rowsMigrated :: rs) w'
| ran_threw (w w1 w' : World) (c : Collection) (cs : list Collection)
    (rs : list TableResult) (error : string) :
    migrateCollection env migrationId (name c) (effectiveRule globalRule c)
                      (announced globalRule c w)
    = (Throw error, w1) ->
    tables_ran env migrationId globalRule
               (reported env migrationId c error w1) cs rs w' ->
    tables_ran env migrationId globalRule w (c :: cs)
      (failed (name c) (effectiveRule globalRule c) error :: rs) w'.

(** The statements that read or write the job's own records. *)
Definition job_record_stmt (s : Stmt) : bool :=
  match s with
  | SelectConnection _ | UpdateMigration _ _ => true
  | _ => false
  end.

(** The row of [migrations] of a job that completed. *)
Definition completedJob (before : Migration) (results : list TableResult)
    (duration : nat) : Migration :=
  {| mig_status := Completed; mig_result := Some results;
     mig_duration_ms := Some duration;
     mig_error_message := mig_error_message before |}.

(** The four rules the dispatch knows. *)
Definition knownRules : list string := ["schema"; "overwrite"; "upsert"; "ignore"].

(** The statements every table starts with: the log line that announces
    it and the column query on the source. *)
Definition introduces (e : Event) : bool :=
  match ev_stmt e with
  | InsertLog _ | SrcColumns _ => true
  | _ => false
  end.

(** A column was added: an [ALTER TABLE ... ADD COLUMN] that came back
    without an error. *)
Definition added_column (e : Event) : bool :=
  match ev_stmt e with
  | AddColumn _ _ _ => ev_ok e
  | _ => false
  end.

Definition columns_added (evs : list Event) : nat :=
  List.length (filter added_column evs).

(** The statements that move or remove rows of the target. *)
Definition moves_data (s : Stmt) : bool :=
  match s with
  | InsertBatch _ _ | InsertRow _ _ | Upsert _ _ _ | Truncate _ => true
  | _ => false
  end.

Definition structural (e : Event) : bool := negb (moves_data (ev_stmt e)).

(** Neither a column added nor rows moved. *)
Definition schema_quiet (e : Event) : bool :=
  negb (added_column e) && structural e.

(** The trace grew by structural events, [k] of them columns added. *)
Definition grows (k : nat) (w w' : World) : Prop :=
  exists evs, trace w' = (evs ++ trace w)%list
              /\ columns_added evs = k
              /\ forallb structural evs = true.

(** The columns the source has for a table. *)
Definition sourceColumnsOf (env : Env) (t : string) : list Column :=
  match lookup t (source env) with
  | Some tb => src_columns tb
  | None => []
  end.

(** The target has the table, with a column for every name the source
    has. *)
Definition up_to_date (env : Env) (t : string) (db : TargetDb) : Prop :=
  exists tb, lookup t (tgt_tables db) = Some tb
             /\ forall col, In col (sourceColumnsOf env t) ->
                  Js.includes (map column_name (tgt_columns tb))
                              (column_name col) = true.

(** A batch read of the source. *)
Definition is_fetch (s : Stmt) : bool :=
  match s with SrcSelect _ _ _ => true | _ => false end.

(** The batch reads of a stretch of the trace, the earliest first. *)
Definition fetches (evs : list Event) : list Stmt :=
  filter is_fetch (map ev_stmt (rev evs)).

Definition no_fetch (e : Event) : bool := negb (is_fetch (ev_stmt e)).

(** The number of rows the source returns for the batch at an offset. *)
Definition batchRows (env : Env) (t : string) (offset : nat) : nat :=
  match Source.select t batchSize offset (source env) with
  | Answer data => List.length data
  | Refuse _ => 0
  end.

(** The conflict columns of the upserts of a stretch of the trace, the
    earliest first. *)
Definition upsert_conflicts (evs : list Event) : list string :=
  flat_map (fun e => match ev_stmt e with
                     | Upsert _ _ conflict => [conflict]
                     | _ => []
                     end) (rev evs).

(** The statements of a stretch of the trace that were sent while the
    target session was in replica role, the earliest first. *)
Definition sent_in_replica (evs : list Event) : list Stmt :=
  flat_map (fun e => match ev_role e with
                     | RoleReplica => [ev_stmt e]
                     | RoleDefault => []
                     end) (rev evs).

(** The statements of the blocks that run in replica role: the
    statements that set the role, the TRUNCATE of the overwrite rule
    with the sequences its block resets and the lines it logs, and the
    inserts of [migrateData], by batch and row by row. *)
Definition block_statement (s : Stmt) : bool :=
  match s with
  | SetRole _ | Truncate _ | SerialColumns _ | MaxOf _ _ | Setval _ _
  | InsertLog _ | InsertBatch _ _ | InsertRow _ _ => true
  | _ => false
  end.

(** An event of a session in replica role is a statement of a block. *)
Definition confined (e : Event) : bool :=
  match ev_role e with
  | RoleReplica => block_statement (ev_stmt e)
  | RoleDefault => true
  end.

(* ================================================================== *)
(** * Vocabulary of the reasoning *)
(* ================================================================== *)

(** A run never stops for lack of fuel. *)
Definition total {A} (m : M A) : Prop :=
  forall w, fst (m w) <> OutOfFuel.

(** A run returns, whatever the state it starts in. *)
Definition sure {A} (m : M A) : Prop :=
  forall w, exists a, fst (m w) = Ok a.

(** What a run returns, when it does, satisfies [P]. *)
Definition returns {A} (P : A -> Prop) (m : M A) : Prop :=
  forall w a, fst (m w) = Ok a -> P a.

(** The state a run ends in is related by [R] to the one it started
    in, whether it returned or threw. *)
Definition keeps {A} (R : World -> World -> Prop) (m : M A) : Prop :=
  forall w, R w (snd (m w)).

(** The rows of [connections] and [migrations] are as they were. *)
Definition same_records (w w' : World) : Prop :=
  connections (store w') = connections (store w)
  /\ migrations (store w') = migrations (store w).

(** The trace grew by events that all pass [p]. *)
Definition emits (p : Event -> bool) (w w' : World) : Prop :=
  exists evs, trace w' = (evs ++ trace w)%list /\ forallb p evs = true.

(** Every event of the statement passes [p]. *)
Definition admits (p : Event -> bool) (s : Stmt) : Prop :=
  forall r ok, p {| ev_stmt := s; ev_role := r; ev_ok := ok |} = true.

(** The rows the source holds for a table, 0 for a table it lacks. *)
Definition sourceRows (env : Env) (t : string) : nat :=
  match lookup t (source env) with
  | Some tb => List.length (src_rows tb)
  | None => 0
  end.

(** The target session is in the role it was in. *)
Definition same_role (w w' : World) : Prop := role w' = role w.

(** However a run ends, and whatever the role it started in, it leaves
    the target session in role [r]. *)
Definition lands {A} (r : Role) (m : M A) : Prop :=
  forall w, role (snd (m w)) = r.

(** A run that returns leaves the target session in role [r]. *)
Definition returns_in {A} (r : Role) (m : M A) : Prop :=
  forall w a, fst (m w) = Ok a -> role (snd (m w)) = r.

(** A run that starts in the default role ends in it, whether it
    returns or throws. *)
Definition restores {A} (m : M A) : Prop :=
  forall w, role w = RoleDefault -> role (snd (m w)) = RoleDefault.

(** The rows the source holds for a table. *)
Definition tableRows (env : Env) (t : string) : list Row :=
  match lookup t (source env) with
  | Some tb => src_rows tb
  | None => []
  end.

(** [JSON.stringify(row)] does not throw. *)
Definition loggable (row : Row) : Prop := Js.stringify (Js.Obj row) <> None.

(** Every row of the table can be written to the log once prepared. *)
Definition rows_loggable (env : Env) (t : string) (json arr : list string)
  : Prop :=
  forall row, In row (tableRows env t) ->
    loggable (fst (prepareRowForInsert row json arr)).

(** The target never refuses a statement that sets the role. *)
Definition role_statements_answered (env : Env) : Prop :=
  forall r n, faults env (SetRole r) n = None.

(** A run that starts in the default role ends in it, whether it
    returns or throws, and what it sent in replica role were statements
    of a block. *)
Definition calm (w w' : World) : Prop :=
  role w = RoleDefault -> role w' = RoleDefault /\ emits confined w w'.

(** [JSON.stringify] does not throw on a row of the source: none holds
    a BigInt, as no row of the driver does. *)
Definition source_rows_serialise (env : Env) : Prop :=
  Forall (fun tb => Forall loggable (src_rows (snd tb))) (source env).

(** The target lets the session set its role, or never lets it take the
    replica role. *)
Definition role_statements_consistent (env : Env) : Prop :=
  role_statements_answered env
  \/ forall n, faults env (SetRole RoleReplica) n <> None.

(** The state of the server's reader after the text [s], from [st]. *)
Definition reads (st : PgArray.state) (s : string) : PgArray.state :=
  fold_left PgArray.step (list_ascii_of_string s) st.

(** The text holds no backslash. *)
Definition no_backslash (s : string) : Prop :=
  ~ In "\"%char (list_ascii_of_string s).

(* ================================================================== *)
(** * Vocabulary of the service properties *)
(* ================================================================== *)

(** The text does not hold the character. *)
Definition lacks (c : ascii) (s : string) : Prop :=
  ~ In c (list_ascii_of_string s).

(** The row [logMigration] inserts. *)
Definition logEntry (migrationId collectionName : string) (level : Level)
    (message : string) : MigrationLog :=
  {| log_migration_id := migrationId; log_collection_name := collectionName;
     log_level := level; log_message := message |}.

(** The target has the table, with a row in it. *)
Definition has_rows (t : string) (db : TargetDb) : bool :=
  match lookup t (tgt_tables db) with
  | Some tb => Nat.ltb 0 (List.length (tgt_rows tb))
  | None => false
  end.

(** The target database is as it was. *)
Definition same_target (w w' : World) : Prop := target w' = target w.

(** Target and role are as they were. *)
Definition same_session (w w' : World) : Prop :=
  target w' = target w /\ role w' = role w.

(** Neither database nor the job store refuses a statement for reasons
    of its own. *)
Definition faultless (env : Env) : Prop :=
  forall s n, faults env s n = None.

(** The rows of a source table as the preparer hands them on. *)
Definition preparedRows (json arr : list string) (rows : list Row) : list Row :=
  map (fun row => fst (prepareRowForInsert row json arr)) rows.

(** The target with the rows of one table replaced. *)
Definition with_table_rows (t : string) (rows : list Row) (db : TargetDb)
  : TargetDb :=
  Target.with_tables
    (update t (Target.with_rows rows) (tgt_tables db)) db.

(** The statements of a stretch of the trace, the earliest first. *)
Definition statements (evs : list Event) : list Stmt :=
  map ev_stmt (rev evs).

(** How many statements of a stretch of the trace pass [p] and came
    back without an error. *)
Definition accepted (p : Stmt -> bool) (evs : list Event) : nat :=
  List.length (filter (fun e => p (ev_stmt e) && ev_ok e) evs).

Definition is_upsert (s : Stmt) : bool :=
  match s with Upsert _ _ _ => true | _ => false end.

Definition is_row_insert (s : Stmt) : bool :=
  match s with InsertRow _ _ => true | _ => false end.

(** The primary-key rows, all rows and unique constraints the source
    answers for a table. *)
Definition primaryKeyRows (env : Env) (t : string) : list string :=
  match lookup t (source env) with
  | Some tb => src_primary_key tb
  | None => []
  end.

Definition uniqueConstraintsOf (env : Env) (t : string)
  : list (string * string) :=
  match lookup t (source env) with
  | Some tb => src_unique tb
  | None => []
  end.

(** The row of [migrations] of a job that failed as a whole. *)
Definition failedJob (before : Migration) (error : string) (duration : nat)
  : Migration :=
  {| mig_status := Failed; mig_result := mig_result before;
     mig_duration_ms := Some duration; mig_error_message := Some error |}.

(** The serial columns of a source table: those whose default calls
    [nextval]. *)
Definition serialColumns (env : Env) (t : string) : list Column :=
  filter hasNextvalDefault (sourceColumnsOf env t).

(** A statement that adds a primary key adds the one the replayer
    derives: named after the table, over the serial columns, of which
    there is one at least. *)
Definition key_of_serials (env : Env) (t : string) (e : Event) : bool :=
  match ev_stmt e with
  | AddPrimaryKey t' pkName pkColNames =>
      String.eqb t' t
      && String.eqb pkName (t ++ "_pkey")
      && String.eqb pkColNames
           (Js.join ", " (map (fun c => ident (column_name c))
                              (serialColumns env t)))
      && Nat.ltb 0 (List.length (serialColumns env t))
  | _ => true
  end.

(** The job store is as it was but for the record of the job [id]. *)
Definition own_record (id : string) (w w' : World) : Prop :=
  connections (store w') = connections (store w)
  /\ forall other, other <> id ->
       lookup other (migrations (store w'))
       = lookup other (migrations (store w)).

(** The names of the columns and of the indexes the target has for a
    table, and the indexes the source has. *)
Definition targetColumnNames (t : string) (db : TargetDb) : list string :=
  match lookup t (tgt_tables db) with
  | Some tb => map column_name (tgt_columns tb)
  | None => []
  end.

Definition targetIndexNames (t : string) (db : TargetDb) : list string :=
  match lookup t (tgt_tables db) with
  | Some tb => tgt_indexes tb
  | None => []
  end.

Definition sourceIndexesOf (env : Env) (t : string) : list (string * string) :=
  match lookup t (source env) with
  | Some tb => src_indexes tb
  | None => []
  end.

(** A statement that adds a column adds it to a table the target [db]
    has: a column named as one of the source that the table lacks, by
    the statement the replayer builds for it. *)
Definition adds_missing_column (env : Env) (t : string) (db : TargetDb)
    (e : Event) : bool :=
  match ev_stmt e with
  | AddColumn sql t' col =>
      String.eqb t' t
      && String.eqb sql (alterSQL t col)
      && has_key t (tgt_tables db)
      && Js.includes (map column_name (sourceColumnsOf env t)) (column_name col)
      && negb (Js.includes (targetColumnNames t db) (column_name col))
  | _ => true
  end.

(** A statement that creates an index creates one the source has and
    the target [db] lacks, by the definition the source gives, and not
    the index of a primary key. *)
Definition creates_missing_index (env : Env) (t : string) (db : TargetDb)
    (e : Event) : bool :=
  match ev_stmt e with
  | CreateIndex t' indexname indexdef =>
      String.eqb t' t
      && existsb (fun i => String.eqb (fst i) indexname
                           && String.eqb (snd i) indexdef)
                 (sourceIndexesOf env t)
      && negb (endsWith indexname "_pkey")
      && negb (Js.includes (targetIndexNames t db) indexname)
  | _ => true
  end.

(** The [try] and [catch] of one batch of [migrateData]: the batch
    insert between the two role statements, and the row-by-row inserts
    that follow a refused one. *)
Definition batchBlock (env : Env) (tableName : string)
    (preparedData : list Row) (batchLength totalRows totalMigrated : nat)
  : M nat :=
  try_catch
    (setRole env RoleReplica ;;
     ask_target env (InsertBatch tableName preparedData)
                (Target.insert tableName preparedData) ;;
     setRole env RoleDefault ;;
     let total := totalMigrated + batchLength in
     logger Info (tableName ++ ": " ++ Js.of_Z (Z.of_nat total) ++ "/"
                  ++ Js.of_Z (Z.of_nat totalRows) ++ " rows") ;;
     ret total)
    (fun insertError =>
       logger Warning ("Batch insert failed for " ++ tableName
                       ++ ", trying row by row: " ++ insertError) ;;
       setRole env RoleReplica ;;
       total <-
         for_each preparedData
           (fun row total =>
              try_catch
                (ask_target env (InsertRow tableName row)
                            (Target.insert tableName [row]) ;;
                 ret (S total))
                (fun rowError => logFailedRow tableName row ;; ret total))
           totalMigrated ;;
       setRole env RoleDefault ;;
       ret total).

(** The target refuses every batch insert, and nothing else is
    refused. *)
Definition refuses_batches_only (env : Env) : Prop :=
  (forall t rows n, faults env (InsertBatch t rows) n <> None)
  /\ (forall s n, match s with InsertBatch _ _ => True | _ => faults env s n = None end).

(** From every state that satisfies [Pre] the run returns, with a
    value and in a state that satisfy [Post]. *)
Definition ensures {A} (Pre : World -> Prop) (m : M A)
    (Post : A -> World -> Prop) : Prop :=
  forall w, Pre w -> exists a w', m w = (Ok a, w') /\ Post a w'.

(** The target has the table, empty, with columns of the given names,
    and its session is in the default role. *)
Definition empty_table (t : string) (names : list string) (w : World) : Prop :=
  role w = RoleDefault
  /\ exists tb, lookup t (tgt_tables (target w)) = Some tb
                /\ tgt_rows tb = []
                /\ map column_name (tgt_columns tb) = names.

(** The target lacks the table, and its session is in the default
    role. *)
Definition no_table (t : string) (w : World) : Prop :=
  role w = RoleDefault /\ lookup t (tgt_tables (target w)) = None.

(** A table that is there, empty, stays so. *)
Definition stays_empty (t : string) (names : list string) (w w' : World)
  : Prop :=
  empty_table t names w -> empty_table t names w'.

(** The tables of the target and the role of its session are as they
    were. *)
Definition same_tables (w w' : World) : Prop :=
  tgt_tables (target w') = tgt_tables (target w) /\ role w' = role w.

(** The rows the target holds in a table, if it has the table. *)
Definition targetRows (t : string) (db : TargetDb) : option (list Row) :=
  option_map tgt_rows (lookup t (tgt_tables db)).

(* ================================================================== *)
(** * Sample jobs *)
(* ================================================================== *)

Definition sample_connection : Connection :=
  {| conn_host := "db.internal"; conn_port := 5432; conn_database := "app";
     conn_username := "migrator"; conn_password := "secret"; conn_ssl := false;
     conn_reject_unauthorized := false |}.

Definition running_job : Migration :=
  {| mig_status := Running; mig_result := None; mig_duration_ms := None;
     mig_error_message := None |}.

Definition job_store : JobStore :=
  {| connections := [("src", sample_connection); ("tgt", sample_connection)];
     migrations := [("job-1", running_job)];
     migration_logs := [] |}.

(** The world at the start of the job, over a given target. *)
Definition start (db : TargetDb) : World :=
  {| clock := 0; target := db; role := RoleDefault; store := job_store;
     trace := []; applog := [] |}.

Definition empty_target : TargetDb := {| tgt_tables := []; tgt_sequences := [] |}.

Definition no_faults : Stmt -> nat -> option string := fun _ _ => None.

Definition column (n ty udt nullable : string) (d : option string) : Column :=
  {| column_name := n; data_type := ty; udt_name := udt; is_nullable := nullable;
     character_maximum_length := None; numeric_precision := None;
     numeric_scale := None; column_default := d |}.

(** [t(id serial primary key, name text)] with two rows. *)
Definition users_table : SourceTable :=
  {| src_columns :=
       [column "id" "integer" "int4" "NO" (Some "nextval('users_id_seq'::regclass)");
        column "name" "text" "text" "YES" None];
     src_rows := [[("id", Js.Num 1); ("name", Js.Str "a")];
                  [("id", Js.Num 2); ("name", Js.Str "b")]];
     src_primary_key := ["id"];
     src_sequences :=
       [{| sequence_name := "users_id_seq"; seq_increment := Some "1";
           seq_minimum_value := Some "1"; seq_start_value := Some "1" |}];
     src_unique := [];
     src_indexes := [("users_pkey", "CREATE UNIQUE INDEX users_pkey ON users (id)")] |}.

(** Three tables, of which the source lacks the second. *)
Definition isolation_env : Env :=
  {| source := [("good", users_table); ("also_good", users_table)];
     faults := no_faults |}.

Definition isolation_tasks : list Collection :=
  [{| name := "good"; rule := None |};
   {| name := "bad"; rule := Some "overwrite" |};
   {| name := "also_good"; rule := Some "overwrite" |}].

(** A source whose first catalog query fails, as when a connection of
    its pool was dropped, and that answers from then on; the same table
    is asked for twice. *)
Definition failing_once (s : Stmt) (n : nat) : option string :=
  match s with
  | SrcColumns _ =>
      if Nat.leb n 3 then Some "Connection terminated unexpectedly" else None
  | _ => None
  end.

Definition flaky_env : Env :=
  {| source := [("good", users_table)]; faults := failing_once |}.

Definition flaky_tasks : list Collection :=
  [{| name := "good"; rule := None |}; {| name := "good"; rule := None |}].

(** A table whose rule is not one of the four. *)
Definition merge_task : Collection := {| name := "good"; rule := Some "merge" |}.

(** The source gained a column the target lacks:
    [flag boolean NOT NULL]. *)
Definition flagged_table : SourceTable :=
  {| src_columns :=
       [column "id" "integer" "int4" "YES" None;
        column "name" "text" "text" "YES" None;
        column "flag" "boolean" "bool" "NO" None];
     src_rows := [[("id", Js.Num 1); ("name", Js.Str "a"); ("flag", Js.Bool true)]];
     src_primary_key := []; src_sequences := []; src_unique := [];
     src_indexes := [] |}.

Definition flagged_env : Env :=
  {| source := [("t", flagged_table)]; faults := no_faults |}.

Definition unflagged_target : TargetDb :=
  {| tgt_tables :=
       [("t", {| tgt_columns := [column "id" "integer" "int4" "YES" None;
                                 column "name" "text" "text" "YES" None];
                 tgt_rows := [[("id", Js.Num 7); ("name", Js.Str "old")]];
                 tgt_indexes := [] |})];
     tgt_sequences := [] |}.

Definition schema_task : Collection := {| name := "t"; rule := Some "schema" |}.

(** A table with a primary key of two columns. *)
Definition orders_table : SourceTable :=
  {| src_columns :=
       [column "tenant_id" "integer" "int4" "NO" None;
        column "order_id" "integer" "int4" "NO" None;
        column "total" "integer" "int4" "YES" None];
     src_rows :=
       [[("tenant_id", Js.Num 1); ("order_id", Js.Num 1); ("total", Js.Num 10)];
        [("tenant_id", Js.Num 1); ("order_id", Js.Num 2); ("total", Js.Num 20)]];
     src_primary_key := ["tenant_id"; "order_id"];
     src_sequences := []; src_unique := []; src_indexes := [] |}.

Definition orders_env : Env :=
  {| source := [("orders", orders_table)]; faults := no_faults |}.

Definition orders_target : TargetDb :=
  {| tgt_tables :=
       [("orders", {| tgt_columns := src_columns orders_table; tgt_rows := [];
                      tgt_indexes := ["orders_pkey"] |})];
     tgt_sequences := [] |}.

(** A table of one row with a bigint key, which the driver returns as
    text, over a target that refuses its inserts; a second table
    follows it in the job. *)
Definition ledger_table : SourceTable :=
  {| src_columns := [column "id" "bigint" "int8" "NO" None];
     src_rows := [[("id", Js.Str "1")]];
     src_primary_key := ["id"]; src_sequences := []; src_unique := [];
     src_indexes := [] |}.

Definition refusing_inserts (s : Stmt) (n : nat) : option string :=
  match s with
  | InsertBatch "ledger" _ | InsertRow "ledger" _ =>
      Some "duplicate key value violates unique constraint"
  | _ => None
  end.

Definition ledger_env : Env :=
  {| source := [("ledger", ledger_table); ("users", users_table)];
     faults := refusing_inserts |}.

Definition ledger_target : TargetDb :=
  {| tgt_tables :=
       [("ledger", {| tgt_columns := src_columns ledger_table; tgt_rows := [];
                      tgt_indexes := [] |});
        ("users", {| tgt_columns := src_columns users_table; tgt_rows := [];
                     tgt_indexes := [] |})];
     tgt_sequences := [] |}.

Definition ledger_tasks : list Collection :=
  [{| name := "ledger"; rule := Some "overwrite" |};
   {| name := "users"; rule := Some "upsert" |}].

(** A target that refuses to truncate. *)
Definition refusing_truncate (s : Stmt) (n : nat) : option string :=
  match s with
  | Truncate _ => Some "canceling statement due to lock timeout"
  | _ => None
  end.

Definition locked_env : Env :=
  {| source := [("users", users_table)]; faults := refusing_truncate |}.

(** A source table of 501 rows. *)
Definition big_table : SourceTable :=
  {| src_columns := [column "n" "integer" "int4" "YES" None];
     src_rows := map (fun i => [("n", Js.Num (Z.of_nat i))]) (seq 0 501);
     src_primary_key := []; src_sequences := []; src_unique := [];
     src_indexes := [] |}.

Definition big_env : Env :=
  {| source := [("big", big_table)]; faults := no_faults |}.

Definition big_target : TargetDb :=
  {| tgt_tables :=
       [("big", {| tgt_columns := src_columns big_table; tgt_rows := [];
                   tgt_indexes := [] |})];
     tgt_sequences := [] |}.

(** A target that has the table already, with a row of an earlier run. *)
Definition stale_table : TargetTable :=
  {| tgt_columns := src_columns users_table;
     tgt_rows := [[("id", Js.Num 9); ("name", Js.Str "old")]];
     tgt_indexes := [] |}.

Definition stale_target : TargetDb :=
  {| tgt_tables := [("good", stale_table)]; tgt_sequences := [] |}.

(** A target whose user may not create tables. *)
Definition refusing_create (s : Stmt) (n : nat) : option string :=
  match s with
  | CreateTable _ _ _ => Some "permission denied for schema public"
  | _ => None
  end.

Definition readonly_env : Env :=
  {| source := [("t", flagged_table)]; faults := refusing_create |}.

(** A target that refuses an insert of many rows at once, as it does
    when the statement would carry more parameters than the protocol
    allows, and accepts the rows one by one. *)
Definition refusing_batches (s : Stmt) (n : nat) : option string :=
  match s with
  | InsertBatch _ _ => Some "bind message has too many parameters"
  | _ => None
  end.

Definition wide_env : Env :=
  {| source := [("good", users_table)]; faults := refusing_batches |}.

(** Two tables with rows of an earlier run in the target, which refuses
    to truncate the one and refuses the inserts into the other. *)
Definition refusing_truncate_and_inserts (s : Stmt) (n : nat) : option string :=
  match s with
  | Truncate "users" => Some "canceling statement due to lock timeout"
  | InsertBatch "ledger" _ | InsertRow "ledger" _ =>
      Some "duplicate key value violates unique constraint"
  | _ => None
  end.

Definition contended_env : Env :=
  {| source := [("ledger", ledger_table); ("users", users_table)];
     faults := refusing_truncate_and_inserts |}.

Definition contended_target : TargetDb :=
  {| tgt_tables :=
       [("ledger", {| tgt_columns := src_columns ledger_table;
                      tgt_rows := [[("id", Js.Str "7")]];
                      tgt_indexes := [] |});
        ("users", stale_table)];
     tgt_sequences := [] |}.

Definition contended_tasks : list Collection :=
  [{| name := "ledger"; rule := None |};
   {| name := "users"; rule := None |};
   {| name := "users"; rule := Some "upsert" |}].

(** A table of three rows over a target that refuses the second of
    them, for a reason that is not a duplicate. *)
Definition tags_table : SourceTable :=
  {| src_columns := [column "id" "integer" "int4" "NO" None;
                     column "label" "character varying" "varchar" "YES" None];
     src_rows := [[("id", Js.Num 1); ("label", Js.Str "red")];
                  [("id", Js.Num 2); ("label", Js.Str "ultramarine")];
                  [("id", Js.Num 3); ("label", Js.Str "tan")]];
     src_primary_key := ["id"]; src_sequences := []; src_unique := [];
     src_indexes := [] |}.

Definition refusing_long_labels (s : Stmt) (n : nat) : option string :=
  match s with
  | InsertRow "tags" (("id", Js.Num 2) :: _) =>
      Some "value too long for type character varying(3)"
  | _ => None
  end.

Definition tags_env : Env :=
  {| source := [("tags", tags_table)]; faults := refusing_long_labels |}.

Definition tags_target : TargetDb :=
  {| tgt_tables :=
       [("tags", {| tgt_columns := src_columns tags_table; tgt_rows := [];
                    tgt_indexes := [] |})];
     tgt_sequences := [] |}.

(** A table with two unique constraints, over a target that has the
    first of them already. *)
Definition accounts_table : SourceTable :=
  {| src_columns := [column "tenant_id" "integer" "int4" "NO" None;
                     column "slug" "text" "text" "NO" None;
                     column "email" "text" "text" "NO" None];
     src_rows := [[("tenant_id", Js.Num 1); ("slug", Js.Str "a");
                   ("email", Js.Str "a@example.org")]];
     src_primary_key := []; src_sequences := [];
     src_unique := [("accounts_email_key", "email");
                    ("accounts_tenant_id_slug_key", "tenant_id, slug")];
     src_indexes := [] |}.

Definition refusing_known_constraint (s : Stmt) (n : nat) : option string :=
  match s with
  | AddUnique "accounts" "accounts_email_key" _ =>
      Some "relation accounts_email_key already exists"
  | _ => None
  end.

Definition accounts_env : Env :=
  {| source := [("accounts", accounts_table)];
     faults := refusing_known_constraint |}.

Definition accounts_target : TargetDb :=
  {| tgt_tables :=
       [("accounts", {| tgt_columns := src_columns accounts_table;
                        tgt_rows := []; tgt_indexes := ["accounts_email_key"] |})];
     tgt_sequences := [] |}.

(* ================================================================== *)
(** * Properties of the pure functions *)
(* ================================================================== *)

Lemma isJsonColumn_spec (col : Column) :
  isJsonColumn col = true <-> JsonColumn col.
Proof.
  unfold isJsonColumn, JsonColumn.
  rewrite !orb_true_iff, !String.eqb_eq. tauto.
Qed.

Lemma startsWith_underscore (s : string) :
  Js.startsWith s "_" = true <-> exists rest, s = String "_" rest.
Proof.
  destruct s as [|c r]; cbn [Js.startsWith].
  - split; [discriminate | intros [rest H]; discriminate].
  - rewrite andb_true_r, Ascii.eqb_eq. split.
    + intros <-. now exists r.
    + intros [rest H]. now injection H as <- _.
Qed.

Lemma isArrayColumn_spec (col : Column) :
  isArrayColumn col = true <-> ArrayColumn col.
Proof.
  unfold isArrayColumn, ArrayColumn.
  rewrite orb_true_iff, String.eqb_eq, startsWith_underscore. tauto.
Qed.

Lemma names_of_filter (p : Column -> bool) (columns : list Column) (n : string) :
  In n (map column_name (filter p columns))
  <-> exists col, In col columns /\ column_name col = n /\ p col = true.
Proof.
  rewrite in_map_iff. split.
  - intros [col [Hn Hin]]. apply filter_In in Hin. exists col. tauto.
  - intros [col [Hin [Hn Hp]]]. exists col. split; [exact Hn|].
    apply filter_In. tauto.
Qed.

(** C9.  Column classification lists a column name as JSON exactly when
    some column of that name has data type or underlying type json or
    jsonb, and as ARRAY exactly when some column of that name has data
    type ARRAY or an underlying type that starts with an underscore. *)
Theorem classification_exact (columns : list Column) (n : string) :
  (In n (getJsonColumns columns)
   <-> exists col, In col columns /\ column_name col = n /\ JsonColumn col)
  /\ (In n (getArrayColumns columns)
      <-> exists col, In col columns /\ column_name col = n /\ ArrayColumn col).
Proof.
  unfold getJsonColumns, getArrayColumns. rewrite !names_of_filter. split.
  - split; intros [col H]; exists col;
      [rewrite <- isJsonColumn_spec | rewrite isJsonColumn_spec]; exact H.
  - split; intros [col H]; exists col;
      [rewrite <- isArrayColumn_spec | rewrite isArrayColumn_spec]; exact H.
Qed.

(** The classification keeps the order of the columns and drops the
    others. *)
Lemma getJsonColumns_cons (col : Column) (columns : list Column) :
  getJsonColumns (col :: columns)
  = if isJsonColumn col then column_name col :: getJsonColumns columns
    else getJsonColumns columns.
Proof. unfold getJsonColumns. simpl. now destruct (isJsonColumn col). Qed.

Lemma getArrayColumns_cons (col : Column) (columns : list Column) :
  getArrayColumns (col :: columns)
  = if isArrayColumn col then column_name col :: getArrayColumns columns
    else getArrayColumns columns.
Proof. unfold getArrayColumns. simpl. now destruct (isArrayColumn col). Qed.

(** ** The type mapping of numeric columns *)

Lemma columnToSqlType_numeric (col : Column) :
  data_type col = "numeric" ->
  columnToSqlType col
  = "numeric(" ++ Js.of_Z (num_or (numeric_precision col) 10) ++ ","
    ++ Js.of_Z (num_or (numeric_scale col) 2) ++ ")".
Proof. intros H. unfold columnToSqlType. rewrite H. reflexivity. Qed.

(** Precision and scale are carried over when both are present and
    neither is 0. *)
Lemma columnToSqlType_numeric_nonzero (col : Column) (p s : Z) :
  data_type col = "numeric" ->
  numeric_precision col = Some p -> numeric_scale col = Some s ->
  p <> 0%Z -> s <> 0%Z ->
  columnToSqlType col = "numeric(" ++ Js.of_Z p ++ "," ++ Js.of_Z s ++ ")".
Proof.
  intros H Hp Hs Hp0 Hs0. rewrite columnToSqlType_numeric by exact H.
  rewrite Hp, Hs. unfold num_or.
  destruct (Z.eqb_spec p 0); [contradiction|].
  destruct (Z.eqb_spec s 0); [contradiction|]. reflexivity.
Qed.

Lemma columnToSqlType_numeric_absent (col : Column) :
  data_type col = "numeric" ->
  numeric_precision col = None -> numeric_scale col = None ->
  columnToSqlType col = "numeric(10,2)".
Proof.
  intros H Hp Hs. rewrite columnToSqlType_numeric by exact H.
  rewrite Hp, Hs. reflexivity.
Qed.

(** C7.  A numeric column whose catalog scale is present and is 0 does
    not keep it: the mapping emits scale 2, the default meant for an
    absent scale. *)
Theorem numeric_scale_zero_becomes_two :
  numeric_scale numeric_10_0 = Some 0%Z
  /\ columnToSqlType numeric_10_0 = "numeric(10,2)"
  /\ columnToSqlType numeric_10_0 <> "numeric(10,0)".
Proof.
  split; [reflexivity|]. split; [reflexivity|].
  intros H. vm_compute in H. discriminate H.
Qed.

(** ** The type preparer *)

Lemma prepareRowForInsert_keys (row : Row) (jsonColumns arrayColumns : list string) :
  map fst (fst (prepareRowForInsert row jsonColumns arrayColumns)) = map fst row.
Proof.
  unfold prepareRowForInsert. cbn [fst]. rewrite !map_map. reflexivity.
Qed.

Lemma prepareRowForInsert_nth (row : Row) (jsonColumns arrayColumns : list string)
    (i : nat) (key : string) (value : Js.value) :
  nth_error row i = Some (key, value) ->
  nth_error (fst (prepareRowForInsert row jsonColumns arrayColumns)) i
  = Some (key, fst (prepareValue jsonColumns arrayColumns key value)).
Proof.
  intros H. unfold prepareRowForInsert. cbn [fst].
  rewrite map_map, nth_error_map, H. reflexivity.
Qed.

Lemma prepareRowForInsert_lines (row : Row) (jsonColumns arrayColumns : list string)
    (key : string) (value : Js.value) (line : LogLine) :
  In (key, value) row ->
  In line (snd (prepareValue jsonColumns arrayColumns key value)) ->
  In line (snd (prepareRowForInsert row jsonColumns arrayColumns)).
Proof.
  intros Hin Hline. unfold prepareRowForInsert. cbn [snd].
  apply in_concat. exists (snd (prepareValue jsonColumns arrayColumns key value)).
  split; [|exact Hline].
  rewrite map_map. apply in_map_iff. exists (key, value). split; [reflexivity|exact Hin].
Qed.

Lemma prepareValue_failure (jsonColumns arrayColumns : list string)
    (key : string) (value : Js.value) :
  serialised jsonColumns arrayColumns key value = true ->
  Js.stringify value = None ->
  prepareValue jsonColumns arrayColumns key value
  = (placeholder jsonColumns key, [failure_line jsonColumns key]).
Proof.
  unfold serialised, prepareValue, placeholder, failure_line.
  intros Hs Hfail.
  apply andb_true_iff in Hs as [Hs Hcol]. apply andb_true_iff in Hs as [Hnull Hobj].
  apply negb_true_iff in Hnull. rewrite Hnull, Hobj, Hfail.
  destruct (Js.includes jsonColumns key); [reflexivity|].
  cbn [orb] in Hcol. apply andb_true_iff in Hcol as [Harr Hdate].
  apply negb_true_iff in Harr. rewrite Harr, Hdate. reflexivity.
Qed.

(** C3, as the code has it.  When the serialisation of a column's
    value fails, the prepared row keeps every column of the row and
    carries for that column the text of an empty object if the column
    is JSON and null otherwise, and the failure is logged. *)
Theorem serialisation_failure_placeholder
    (row : Row) (jsonColumns arrayColumns : list string)
    (i : nat) (key : string) (value : Js.value) :
  nth_error row i = Some (key, value) ->
  serialised jsonColumns arrayColumns key value = true ->
  Js.stringify value = None ->
  map fst (fst (prepareRowForInsert row jsonColumns arrayColumns)) = map fst row
  /\ nth_error (fst (prepareRowForInsert row jsonColumns arrayColumns)) i
     = Some (key, placeholder jsonColumns key)
  /\ In (failure_line jsonColumns key)
        (snd (prepareRowForInsert row jsonColumns arrayColumns)).
Proof.
  intros Hnth Hs Hfail.
  pose proof (prepareValue_failure jsonColumns arrayColumns key value Hs Hfail) as Hv.
  split; [apply prepareRowForInsert_keys|]. split.
  - rewrite (prepareRowForInsert_nth row jsonColumns arrayColumns i key value Hnth), Hv.
    reflexivity.
  - apply (prepareRowForInsert_lines row jsonColumns arrayColumns key value).
    + eapply nth_error_In; exact Hnth.
    + rewrite Hv. now left.
Qed.

Lemma serialisation_failure_placeholder_witness :
  map fst (fst (prepareRowForInsert payload_row ["payload"] [])) = map fst payload_row
  /\ nth_error (fst (prepareRowForInsert payload_row ["payload"] [])) 2
     = Some ("extra", placeholder ["payload"] "extra")
  /\ In (failure_line ["payload"] "extra")
        (snd (prepareRowForInsert payload_row ["payload"] [])).
Proof.
  apply (serialisation_failure_placeholder payload_row ["payload"] [] 2
           "extra" unserialisable);
    reflexivity.
Defined.

(** C3, as the claim states it, fails for a JSON column: the value does
    not serialise, and the prepared row carries the text of an empty
    object, not null. *)
Lemma json_column_failure_is_not_null :
  serialised ["payload"] [] "payload" unserialisable = true
  /\ Js.stringify unserialisable = None
  /\ nth_error (fst (prepareRowForInsert payload_row ["payload"] [])) 1
     = Some ("payload", Js.Str "{}")
  /\ nth_error (fst (prepareRowForInsert payload_row ["payload"] [])) 1
     <> Some ("payload", Js.Null).
Proof.
  split; [reflexivity|]. split; [reflexivity|]. split; [reflexivity|].
  intros H. vm_compute in H. discriminate H.
Qed.

(** ** Array literals *)

Lemma reads_String (st : PgArray.state) (c : ascii) (s : string) :
  reads st (String c s) = reads (PgArray.step st c) s.
Proof. reflexivity. Qed.

Lemma reads_app (st : PgArray.state) (a b : string) :
  reads st (a ++ b) = reads (reads st a) b.
Proof.
  revert st. induction a as [|c a IH]; intros st; [reflexivity|].
  cbn [String.append]. rewrite !reads_String. apply IH.
Qed.

Lemma reads_escaped (acc : list (option string)) (s : string) :
  no_backslash s ->
  forall cur,
    reads (PgArray.Quoted acc cur) (Js.escape_quotes s)
    = PgArray.Quoted acc (rev (list_ascii_of_string s) ++ cur)%list.
Proof.
  unfold no_backslash. induction s as [|c s IH]; intros Hs cur; [reflexivity|].
  cbn [list_ascii_of_string In] in Hs.
  assert (Hc : Ascii.eqb c "\"%char = false)
    by (apply Ascii.eqb_neq; intros ->; apply Hs; now left).
  assert (Hrest : ~ In "\"%char (list_ascii_of_string s))
    by (intros H; apply Hs; now right).
  cbn [Js.escape_quotes list_ascii_of_string rev].
  destruct (Ascii.eqb c Js.dquote) eqn:Hq.
  - apply Ascii.eqb_eq in Hq. subst c.
    rewrite !reads_String. cbn [PgArray.step].
    change (Ascii.eqb "\"%char Js.dquote) with false.
    change (Ascii.eqb "\"%char "\"%char) with true. cbv iota.
    cbn [PgArray.step].
    rewrite (IH Hrest). now rewrite <- app_assoc.
  - rewrite reads_String. cbn [PgArray.step]. rewrite Hq, Hc.
    rewrite (IH Hrest). now rewrite <- app_assoc.
Qed.

Lemma reads_element (acc : list (option string)) (s : string) :
  no_backslash s ->
  reads (PgArray.Elem acc) (arrayElement (Js.Str s))
  = PgArray.AfterQuoted (Some s :: acc).
Proof.
  intros Hs. cbn [arrayElement]. unfold Js.dq at 1.
  cbn [String.append]. rewrite reads_String. cbn [PgArray.step].
  rewrite Ascii.eqb_refl. rewrite reads_app, (reads_escaped _ _ Hs).
  unfold Js.dq. rewrite reads_String. cbn [PgArray.step reads fold_left list_ascii_of_string].
  rewrite Ascii.eqb_refl. unfold PgArray.text.
  now rewrite app_nil_r, rev_involutive, string_of_list_ascii_of_string.
Qed.

Lemma reads_comma (acc : list (option string)) :
  reads (PgArray.AfterQuoted acc) "," = PgArray.Elem acc.
Proof. reflexivity. Qed.

Lemma reads_brace (acc : list (option string)) :
  reads (PgArray.AfterQuoted acc) "}" = PgArray.Done acc.
Proof. reflexivity. Qed.

Lemma join_cons (sep x y : string) (r : list string) :
  Js.join sep (x :: y :: r) = x ++ sep ++ Js.join sep (y :: r).
Proof. reflexivity. Qed.

Lemma reads_elements (x : string) (xs : list string)
    (acc : list (option string)) :
  Forall no_backslash (x :: xs) ->
  reads (reads (PgArray.Elem acc)
               (Js.join "," (map arrayElement (map Js.Str (x :: xs))))) "}"
  = PgArray.Done (rev (map Some (x :: xs)) ++ acc)%list.
Proof.
  revert x acc. induction xs as [|y r IH]; intros x acc Hall;
    inversion Hall as [|? ? Hx Hrest]; subst.
  - unfold Js.join. cbn [map String.concat].
    rewrite (reads_element _ _ Hx). reflexivity.
  - cbn [map] in *. rewrite join_cons, !reads_app, (reads_element _ _ Hx).
    rewrite reads_comma, (IH y _ Hrest). cbn [map rev].
    now rewrite <- !app_assoc.
Qed.

(** An array of text elements without a backslash comes back as it
    was, double quotes included. *)
Lemma array_round_trip_without_backslash (elems : list string) :
  Forall no_backslash elems ->
  PgArray.parse (arrayLiteral (map Js.Str elems)) = Some (map Some elems).
Proof.
  intros Hall. destruct elems as [|x xs]; [reflexivity|].
  unfold PgArray.parse, arrayLiteral.
  change (fold_left PgArray.step (list_ascii_of_string ?s) PgArray.Start)
    with (reads PgArray.Start s).
  cbn [String.append]. rewrite reads_String.
  change (PgArray.step PgArray.Start "{"%char) with (PgArray.Elem []).
  rewrite reads_app, (reads_elements _ _ _ Hall).
  now rewrite app_nil_r, rev_involutive.
Qed.

Example quotes_round_trip :
  PgArray.parse (arrayLiteral [Js.Str ("say " ++ Js.dq ++ "hi" ++ Js.dq); Js.Str "a,b"; Js.Str "{x}"])
  = Some [Some ("say " ++ Js.dq ++ "hi" ++ Js.dq); Some "a,b"; Some "{x}"].
Proof. reflexivity. Qed.

(** C4.  An element with a backslash does not come back: the literal
    keeps the backslash as it is, and the server reads it as an escape
    of the next character (or, at the end of an element, of the closing
    quote, which makes the literal malformed). *)
Theorem array_backslash_does_not_round_trip :
  prepareValue [] ["paths"] "paths" (Js.Arr windows_paths)
  = (Js.Str ("{" ++ Js.dq ++ "C:\temp" ++ Js.dq ++ "}"), [])
  /\ PgArray.parse (arrayLiteral windows_paths) = Some [Some "C:temp"]
  /\ PgArray.parse (arrayLiteral windows_paths) <> Some [Some "C:\temp"]
  /\ PgArray.parse (arrayLiteral [Js.Str "C:\"]) = None.
Proof.
  split; [reflexivity|]. split; [reflexivity|]. split; [|reflexivity].
  intros H. vm_compute in H. discriminate H.
Qed.

(* ================================================================== *)
(** * Reasoning about runs *)
(* ================================================================== *)

(** ** Unfolding one construct *)

Lemma run_bind {A B} (m : M A) (f : A -> M B) (w : World) :
  bind m f w
  = match m w with
    | (Ok a, w') => f a w'
    | (Throw e, w') => (Throw e, w')
    | (OutOfFuel, w') => (OutOfFuel, w')
    end.
Proof. reflexivity. Qed.

Lemma run_try_catch {A} (m : M A) (h : string -> M A) (w : World) :
  try_catch m h w
  = match m w with
    | (Throw e, w') => h e w'
    | r => r
    end.
Proof. reflexivity. Qed.

Lemma run_logger (l : Level) (message : string) (w : World) :
  logger l message w = (Ok tt, set_applog ((l, message) :: applog w) w).
Proof. reflexivity. Qed.

Lemma run_ret {A} (a : A) (w : World) : ret a w = (Ok a, w).
Proof. reflexivity. Qed.

(** Run the constructs at the head of the goal. *)
Ltac run_head :=
  repeat (first [ rewrite run_bind | rewrite run_logger | rewrite run_ret ];
          cbv beta iota).

Ltac run_head_in H :=
  repeat (first [ rewrite run_bind in H | rewrite run_logger in H
                | rewrite run_ret in H ];
          cbv beta iota in H).

(** A [bind] that returned went through both parts. *)
Lemma bind_ok {A B} (m : M A) (f : A -> M B) (w w' : World) (b : B) :
  bind m f w = (Ok b, w') ->
  exists a w1, m w = (Ok a, w1) /\ f a w1 = (Ok b, w').
Proof.
  rewrite run_bind. destruct (m w) as [[a|e|] w1]; try discriminate.
  intros H. now exists a, w1.
Qed.

Lemma Answer_inj {A} (a b : A) : Answer a = Answer b -> a = b.
Proof. congruence. Qed.

(** ** Never out of fuel, never an exception *)

Lemma sure_total {A} (m : M A) : sure m -> total m.
Proof. intros H w. destruct (H w) as [a Ha]. rewrite Ha. discriminate. Qed.

Lemma total_ret {A} (a : A) : total (ret a).
Proof. intros w. discriminate. Qed.

Lemma total_throw {A} (e : string) : total (@throw A e).
Proof. intros w. discriminate. Qed.

Lemma total_bind {A B} (m : M A) (f : A -> M B) :
  total m -> (forall a, total (f a)) -> total (bind m f).
Proof.
  intros Hm Hf w. rewrite run_bind. specialize (Hm w).
  destruct (m w) as [[a|e|] w']; cbn [fst] in *;
    [apply Hf | discriminate | contradiction].
Qed.

Lemma total_try_catch {A} (m : M A) (h : string -> M A) :
  total m -> (forall e, total (h e)) -> total (try_catch m h).
Proof.
  intros Hm Hh w. rewrite run_try_catch. specialize (Hm w).
  destruct (m w) as [[a|e|] w']; cbn [fst] in *;
    [discriminate | apply Hh | contradiction].
Qed.

Lemma total_try_finally {A} (m : M A) (f : M unit) :
  total m -> total f -> total (try_finally m f).
Proof.
  intros Hm Hf w. unfold try_finally. specialize (Hm w).
  destruct (m w) as [[a|e|] w']; cbn [fst] in *; try contradiction;
    specialize (Hf w'); destruct (f w') as [[u|e'|] w'']; cbn [fst] in *;
    try contradiction; discriminate.
Qed.

Lemma total_for_each {A S} (xs : list A) (body : A -> S -> M S) (acc : S) :
  (forall x s, total (body x s)) -> total (for_each xs body acc).
Proof.
  intros Hb. revert acc. induction xs as [|x r IH]; intros acc; cbn [for_each].
  - apply total_ret.
  - apply total_bind; [apply Hb | intros s; apply IH].
Qed.

Lemma sure_ret {A} (a : A) : sure (ret a).
Proof. intros w. now exists a. Qed.

Lemma sure_bind {A B} (m : M A) (f : A -> M B) :
  sure m -> (forall a, sure (f a)) -> sure (bind m f).
Proof.
  intros Hm Hf w. rewrite run_bind. destruct (Hm w) as [a Ha].
  destruct (m w) as [r w']; cbn [fst] in Ha; subst r. apply Hf.
Qed.

Lemma sure_try_catch {A} (m : M A) (h : string -> M A) :
  total m -> (forall e, sure (h e)) -> sure (try_catch m h).
Proof.
  intros Hm Hh w. rewrite run_try_catch. specialize (Hm w).
  destruct (m w) as [[a|e|] w']; cbn [fst] in *;
    [now exists a | apply Hh | contradiction].
Qed.

Lemma sure_for_each {A S} (xs : list A) (body : A -> S -> M S) (acc : S) :
  (forall x s, sure (body x s)) -> sure (for_each xs body acc).
Proof.
  intros Hb. revert acc. induction xs as [|x r IH]; intros acc; cbn [for_each].
  - apply sure_ret.
  - apply sure_bind; [apply Hb | intros s; apply IH].
Qed.

Lemma sure_logger (l : Level) (message : string) : sure (logger l message).
Proof. intros w. now exists tt. Qed.

Lemma sure_now : sure now.
Proof. intros w. now exists (clock w). Qed.

(** ** What a run returns *)

Lemma returns_ret {A} (P : A -> Prop) (a : A) : P a -> returns P (ret a).
Proof. intros H w b E. cbn in E. now injection E as <-. Qed.

Lemma returns_bind {A B} (P : B -> Prop) (m : M A) (f : A -> M B) :
  (forall a, returns P (f a)) -> returns P (bind m f).
Proof.
  intros Hf w b. rewrite run_bind.
  destruct (m w) as [[a|e|] w']; cbn [fst]; try discriminate. apply Hf.
Qed.

Lemma returns_try_catch {A} (P : A -> Prop) (m : M A) (h : string -> M A) :
  returns P m -> (forall e, returns P (h e)) -> returns P (try_catch m h).
Proof.
  intros Hm Hh w b. rewrite run_try_catch. specialize (Hm w).
  destruct (m w) as [[a|e|] w']; cbn [fst] in *; try discriminate.
  - apply Hm.
  - apply Hh.
Qed.

(** ** What a run leaves as it was *)

Section Frames.

Variable R : World -> World -> Prop.
Hypothesis R_refl : forall w, R w w.
Hypothesis R_trans : forall a b c, R a b -> R b c -> R a c.

Lemma keeps_ret {A} (a : A) : keeps R (ret a).
Proof. intros w. apply R_refl. Qed.

Lemma keeps_throw {A} (e : string) : keeps R (@throw A e).
Proof. intros w. apply R_refl. Qed.

Lemma keeps_now : keeps R now.
Proof. intros w. apply R_refl. Qed.

Lemma keeps_bind {A B} (m : M A) (f : A -> M B) :
  keeps R m -> (forall a, keeps R (f a)) -> keeps R (bind m f).
Proof.
  intros Hm Hf w. rewrite run_bind. specialize (Hm w).
  destruct (m w) as [[a|e|] w']; cbn [snd] in *; try exact Hm.
  eapply R_trans; [exact Hm | apply Hf].
Qed.

Lemma keeps_try_catch {A} (m : M A) (h : string -> M A) :
  keeps R m -> (forall e, keeps R (h e)) -> keeps R (try_catch m h).
Proof.
  intros Hm Hh w. rewrite run_try_catch. specialize (Hm w).
  destruct (m w) as [[a|e|] w']; cbn [snd] in *; try exact Hm.
  eapply R_trans; [exact Hm | apply Hh].
Qed.

Lemma keeps_try_finally {A} (m : M A) (f : M unit) :
  keeps R m -> keeps R f -> keeps R (try_finally m f).
Proof.
  intros Hm Hf w. unfold try_finally. specialize (Hm w).
  destruct (m w) as [[a|e|] w']; cbn [snd] in *; try exact Hm;
    specialize (Hf w'); destruct (f w') as [[u|e'|] w'']; cbn [snd] in *;
    eapply R_trans; eassumption.
Qed.

Lemma keeps_for_each {A S} (xs : list A) (body : A -> S -> M S) (acc : S) :
  (forall x s, keeps R (body x s)) -> keeps R (for_each xs body acc).
Proof.
  intros Hb. revert acc. induction xs as [|x r IH]; intros acc; cbn [for_each].
  - apply keeps_ret.
  - apply keeps_bind; [apply Hb | intros s; apply IH].
Qed.

End Frames.

(** ** The statements themselves *)

Lemma same_records_refl (w : World) : same_records w w.
Proof. now split. Qed.

Lemma same_records_trans (a b c : World) :
  same_records a b -> same_records b c -> same_records a c.
Proof. intros [H1 H2] [H3 H4]. split; congruence. Qed.

Lemma emits_refl (p : Event -> bool) (w : World) : emits p w w.
Proof. now exists []. Qed.

Lemma emits_trans (p : Event -> bool) (a b c : World) :
  emits p a b -> emits p b c -> emits p a c.
Proof.
  intros [e1 [H1 P1]] [e2 [H2 P2]]. exists (e2 ++ e1)%list. split.
  - rewrite H2, H1. apply app_assoc.
  - rewrite forallb_app, P1, P2. reflexivity.
Qed.

Lemma emits_one (p : Event -> bool) (s : Stmt) (ok : bool) (w w' : World) :
  admits p s -> trace w' = {| ev_stmt := s; ev_role := role w; ev_ok := ok |} :: trace w ->
  emits p w w'.
Proof.
  intros Hp Ht. exists [{| ev_stmt := s; ev_role := role w; ev_ok := ok |}].
  split; [exact Ht|]. cbn [forallb]. rewrite Hp. reflexivity.
Qed.

Section Statements.

Variable env : Env.

Lemma total_ask_store {A} (s : Stmt) (answer : JobStore -> Reply A * JobStore) :
  total (ask_store env s answer).
Proof.
  intros w. unfold ask_store. destruct (faults env s (clock w)); cbn [fst].
  - discriminate.
  - destruct (fst (answer (store w))); discriminate.
Qed.

Lemma total_ask_source {A} (s : Stmt) (answer : SourceDb -> Reply A) :
  total (ask_source env s answer).
Proof.
  intros w. unfold ask_source. destruct (faults env s (clock w)); cbn [fst].
  - discriminate.
  - destruct (answer (source env)); discriminate.
Qed.

Lemma total_ask_target {A} (s : Stmt) (answer : TargetDb -> Reply A * TargetDb) :
  total (ask_target env s answer).
Proof.
  intros w. unfold ask_target. destruct (faults env s (clock w)); cbn [fst].
  - discriminate.
  - destruct (fst (answer (target w))); discriminate.
Qed.

Lemma total_setRole (r : Role) : total (setRole env r).
Proof.
  intros w. unfold setRole. destruct (faults env (SetRole r) (clock w));
    discriminate.
Qed.

Lemma total_logger (l : Level) (message : string) : total (logger l message).
Proof. apply sure_total, sure_logger. Qed.

Lemma total_now : total now.
Proof. apply sure_total, sure_now. Qed.

(** *** The job's records *)

Lemma records_ask_source {A} (s : Stmt) (answer : SourceDb -> Reply A) :
  keeps same_records (ask_source env s answer).
Proof.
  intros w. unfold ask_source. destruct (faults env s (clock w)); now split.
Qed.

Lemma records_ask_target {A} (s : Stmt) (answer : TargetDb -> Reply A * TargetDb) :
  keeps same_records (ask_target env s answer).
Proof.
  intros w. unfold ask_target. destruct (faults env s (clock w)); now split.
Qed.

Lemma records_setRole (r : Role) : keeps same_records (setRole env r).
Proof.
  intros w. unfold setRole. destruct (faults env (SetRole r) (clock w));
    now split.
Qed.

Lemma records_logger (l : Level) (message : string) :
  keeps same_records (logger l message).
Proof. intros w. now split. Qed.

Lemma records_insert_log (entry : MigrationLog) :
  keeps same_records (ask_store env (InsertLog entry) (Store.insert_log entry)).
Proof.
  intros w. unfold ask_store.
  destruct (faults env (InsertLog entry) (clock w)); now split.
Qed.

Lemma records_select_connection (id : string) :
  keeps same_records
    (ask_store env (SelectConnection id) (Store.select_connection id)).
Proof.
  intros w. unfold ask_store.
  destruct (faults env (SelectConnection id) (clock w)); now split.
Qed.

(** *** The trace *)

Lemma emits_ask_store (p : Event -> bool) {A} (s : Stmt)
    (answer : JobStore -> Reply A * JobStore) :
  admits p s -> keeps (emits p) (ask_store env s answer).
Proof.
  intros Hp w. unfold ask_store.
  destruct (faults env s (clock w)); eapply emits_one; try exact Hp; reflexivity.
Qed.

Lemma emits_ask_source (p : Event -> bool) {A} (s : Stmt)
    (answer : SourceDb -> Reply A) :
  admits p s -> keeps (emits p) (ask_source env s answer).
Proof.
  intros Hp w. unfold ask_source.
  destruct (faults env s (clock w)); eapply emits_one; try exact Hp; reflexivity.
Qed.

Lemma emits_ask_target (p : Event -> bool) {A} (s : Stmt)
    (answer : TargetDb -> Reply A * TargetDb) :
  admits p s -> keeps (emits p) (ask_target env s answer).
Proof.
  intros Hp w. unfold ask_target.
  destruct (faults env s (clock w)); eapply emits_one; try exact Hp; reflexivity.
Qed.

Lemma emits_setRole (p : Event -> bool) (r : Role) :
  admits p (SetRole r) -> keeps (emits p) (setRole env r).
Proof.
  intros Hp w. unfold setRole.
  destruct (faults env (SetRole r) (clock w)); eapply emits_one;
    try exact Hp; reflexivity.
Qed.

Lemma emits_logger (p : Event -> bool) (l : Level) (message : string) :
  keeps (emits p) (logger l message).
Proof. intros w. now exists []. Qed.

End Statements.

(** The steps that take a construct apart, for [total], [sure] and
    [keeps]; [leaf] closes what is left. *)
Ltac total_steps leaf :=
  repeat first
    [ leaf
    | progress cbv beta zeta
    | apply total_ret | apply total_throw | apply total_logger | apply total_now
    | apply total_ask_store | apply total_ask_source | apply total_ask_target
    | apply total_setRole
    | apply total_bind; [|intros ?]
    | apply total_try_catch; [|intros ?]
    | apply total_try_finally
    | apply total_for_each; intros ? ?
    | match goal with
      | |- total (if ?b then _ else _) => destruct b
      | |- total (match ?x with _ => _ end) => destruct x
      end
    | leaf ].

Ltac sure_steps leaf :=
  repeat first
    [ leaf
    | progress cbv beta zeta
    | apply sure_ret | apply sure_logger | apply sure_now
    | apply sure_bind; [|intros ?]
    | apply sure_try_catch; [|intros ?]
    | apply sure_for_each; intros ? ?
    | match goal with
      | |- sure (if ?b then _ else _) => destruct b
      | |- sure (match ?x with _ => _ end) => destruct x
      end
    | leaf ].

Ltac keeps_steps Hrefl Htrans leaf :=
  repeat first
    [ leaf
    | progress cbv beta zeta
    | apply (keeps_ret _ Hrefl) | apply (keeps_throw _ Hrefl)
    | apply (keeps_now _ Hrefl)
    | apply (keeps_bind _ Htrans); [|intros ?]
    | apply (keeps_try_catch _ Htrans); [|intros ?]
    | apply (keeps_try_finally _ Htrans)
    | apply (keeps_for_each _ Hrefl Htrans); intros ? ?
    | match goal with
      | |- keeps _ (if ?b then _ else _) => destruct b
      | |- keeps _ (match ?x with _ => _ end) => destruct x
      end
    | leaf ].

(* ================================================================== *)
(** * The functions of the engine never run out of fuel *)
(* ================================================================== *)

Create HintDb engine discriminated.

#[global] Hint Extern 1 (total _) => progress cbv beta : engine.
#[global] Hint Extern 1 (sure _) => progress cbv beta : engine.
#[global] Hint Extern 1 (keeps _ _) => progress cbv beta : engine.

Section Totality.

Variable env : Env.

Ltac leaf := solve [eauto with engine].

Lemma sure_logMigration (id c : string) (l : Level) (msg : string) :
  sure (logMigration env id c l msg).
Proof.
  unfold logMigration. apply sure_try_catch.
  - apply total_ask_store.
  - intros e. apply sure_logger.
Qed.
Hint Resolve sure_logMigration : engine.

Lemma total_logMigration (id c : string) (l : Level) (msg : string) :
  total (logMigration env id c l msg).
Proof. apply sure_total, sure_logMigration. Qed.
Hint Resolve total_logMigration : engine.

Lemma total_getTableColumns (t : string) : total (getTableColumns env t).
Proof. unfold getTableColumns. total_steps leaf. Qed.
Hint Resolve total_getTableColumns : engine.

Lemma total_resetSequences (t : string) : total (resetSequences env t).
Proof. unfold resetSequences. total_steps leaf. Qed.
Hint Resolve total_resetSequences : engine.

Lemma sure_resetSequences (t : string) : sure (resetSequences env t).
Proof.
  unfold resetSequences. apply sure_try_catch; [total_steps leaf|].
  intros e. apply sure_logger.
Qed.
Hint Resolve sure_resetSequences : engine.

Lemma total_tableHasData (t : string) : total (tableHasData env t).
Proof. unfold tableHasData. total_steps leaf. Qed.
Hint Resolve total_tableHasData : engine.

Lemma sure_tableHasData (t : string) : sure (tableHasData env t).
Proof.
  unfold tableHasData. apply sure_try_catch; [total_steps leaf|].
  intros e. apply sure_ret.
Qed.
Hint Resolve sure_tableHasData : engine.

Lemma total_copyConstraints (t : string) : total (copyConstraints env t).
Proof. unfold copyConstraints. total_steps leaf. Qed.
Hint Resolve total_copyConstraints : engine.

Lemma total_getTableColumnsDetailed (db : Side) (t : string) :
  total (getTableColumnsDetailed env db t).
Proof. unfold getTableColumnsDetailed. total_steps leaf. Qed.
Hint Resolve total_getTableColumnsDetailed : engine.

Lemma total_getTableSequences (t : string) : total (getTableSequences env t).
Proof. unfold getTableSequences. total_steps leaf. Qed.
Hint Resolve total_getTableSequences : engine.

Lemma total_createSequences (t : string) (log : string -> M unit) :
  (forall m, total (log m)) -> total (createSequences env t log).
Proof. intros Hlog. unfold createSequences. total_steps leaf. Qed.
Hint Resolve total_createSequences : engine.

Lemma sure_createSequences (t : string) (log : string -> M unit) :
  (forall m, sure (log m)) -> sure (createSequences env t log).
Proof.
  intros Hlog. unfold createSequences.
  apply sure_try_catch; [|intros e; apply Hlog].
  total_steps ltac:(solve [eauto using sure_total with engine]).
Qed.
Hint Resolve sure_createSequences : engine.

Lemma total_syncIndexes (t : string) (log : string -> M unit) :
  (forall m, total (log m)) -> total (syncIndexes env t log).
Proof. intros Hlog. unfold syncIndexes. total_steps leaf. Qed.
Hint Resolve total_syncIndexes : engine.

Lemma sure_syncIndexes (t : string) (log : string -> M unit) :
  (forall m, sure (log m)) -> sure (syncIndexes env t log).
Proof.
  intros Hlog. unfold syncIndexes.
  apply sure_try_catch; [|intros e; apply Hlog].
  total_steps ltac:(solve [eauto using sure_total with engine]).
Qed.
Hint Resolve sure_syncIndexes : engine.

Lemma total_createTable (t : string) (cols : list Column) (log : string -> M unit) :
  (forall m, total (log m)) -> total (createTable env t cols log).
Proof. intros Hlog. unfold createTable. total_steps leaf. Qed.
Hint Resolve total_createTable : engine.

Lemma total_addMissingColumns (t : string) (cols : list Column)
    (log : string -> M unit) :
  (forall m, total (log m)) -> total (addMissingColumns env t cols log).
Proof.
  intros Hlog. unfold addMissingColumns, addColumn, ensureSequence.
  total_steps leaf.
Qed.
Hint Resolve total_addMissingColumns : engine.

Lemma total_migrateSchema (id t : string) : total (migrateSchema env id t).
Proof. unfold migrateSchema. total_steps leaf. Qed.
Hint Resolve total_migrateSchema : engine.

Lemma sure_migrateSchema (id t : string) : sure (migrateSchema env id t).
Proof.
  unfold migrateSchema. apply sure_try_catch.
  - total_steps leaf.
  - intros e. sure_steps leaf.
Qed.
Hint Resolve sure_migrateSchema : engine.

Lemma sure_schemaRule (id t : string) : sure (schemaRule env id t).
Proof. unfold schemaRule. sure_steps leaf. Qed.
Hint Resolve sure_schemaRule : engine.

Lemma sure_log_lines (lines : list LogLine) : sure (log_lines lines).
Proof. unfold log_lines. sure_steps leaf. Qed.
Hint Resolve sure_log_lines : engine.

Lemma total_log_lines (lines : list LogLine) : total (log_lines lines).
Proof. apply sure_total, sure_log_lines. Qed.
Hint Resolve total_log_lines : engine.

Lemma total_prepareAll (data : list Row) (json arr : list string) :
  total (prepareAll data json arr).
Proof. unfold prepareAll. total_steps leaf. Qed.
Hint Resolve total_prepareAll : engine.

Lemma total_logFailedRow (t : string) (row : Row) : total (logFailedRow t row).
Proof. unfold logFailedRow. total_steps leaf. Qed.
Hint Resolve total_logFailedRow : engine.

(** A batch is as long as the rows from the offset on allow, and at
    most [batchSize]. *)
Lemma select_length (t : string) (offset : nat) (data : list Row) :
  Source.select t batchSize offset (source env) = Answer data ->
  List.length data = Nat.min batchSize (sourceRows env t - offset).
Proof.
  unfold Source.select, sourceRows. destruct (lookup t (source env)) as [tb|].
  - intros H. apply Answer_inj in H. subst data.
    rewrite length_firstn, length_skipn. reflexivity.
  - discriminate.
Qed.

(** What the loop does once a batch has come back. *)
Lemma run_migrateData_loop (fuel : nat) (t : string) (json arr : list string)
    (totalRows offset totalMigrated : nat) (w : World) :
  migrateData_loop env (S fuel) t json arr totalRows offset totalMigrated w
  = bind (ask_source env (SrcSelect t batchSize offset)
                     (Source.select t batchSize offset))
      (fun data =>
         if Nat.eqb (List.length data) 0 then ret totalMigrated
         else
           bind (prepareAll data json arr) (fun preparedData =>
           bind
             (try_catch
                (setRole env RoleReplica ;;
                 ask_target env (InsertBatch t preparedData)
                            (Target.insert t preparedData) ;;
                 setRole env RoleDefault ;;
                 logger Info
                   (t ++ ": "
                    ++ Js.of_Z (Z.of_nat (totalMigrated + List.length data))
                    ++ "/" ++ Js.of_Z (Z.of_nat totalRows) ++ " rows") ;;
                 ret (totalMigrated + List.length data))
                (fun insertError =>
                   logger Warning ("Batch insert failed for " ++ t
                                   ++ ", trying row by row: " ++ insertError) ;;
                   setRole env RoleReplica ;;
                   total <-
                     for_each preparedData
                       (fun row total =>
                          try_catch
                            (ask_target env (InsertRow t row)
                                        (Target.insert t [row]) ;;
                             ret (S total))
                            (fun rowError => logFailedRow t row ;; ret total))
                       totalMigrated ;;
                   setRole env RoleDefault ;;
                   ret total))
             (fun totalMigrated' =>
                if Nat.ltb (List.length data) batchSize then ret totalMigrated'
                else migrateData_loop env fuel t json arr totalRows
                                      (offset + batchSize) totalMigrated')))
      w.
Proof. reflexivity. Qed.

Lemma total_migrateData_loop (fuel : nat) (t : string) (json arr : list string)
    (totalRows offset totalMigrated : nat) :
  1 <= fuel ->
  sourceRows env t + batchSize <= offset + batchSize * fuel ->
  total (migrateData_loop env fuel t json arr totalRows offset totalMigrated).
Proof.
  revert offset totalMigrated.
  induction fuel as [|fuel IH]; intros offset totalMigrated Hfuel Hbound w;
    [lia|].
  rewrite run_migrateData_loop, run_bind.
  unfold ask_source at 1.
  destruct (faults env (SrcSelect t batchSize offset) (clock w)) as [e|];
    [discriminate|].
  destruct (Source.select t batchSize offset (source env)) as [data|e] eqn:Hsel;
    cbn [settle]; [|discriminate].
  apply select_length in Hsel.
  destruct (Nat.eqb (List.length data) 0); [discriminate|].
  apply total_bind; [apply total_prepareAll|]. intros preparedData.
  apply total_bind; [total_steps leaf|]. intros totalMigrated'.
  destruct (Nat.ltb_spec (List.length data) batchSize) as [Hshort|Hfull];
    [apply total_ret|].
  unfold batchSize in *. apply IH; lia.
Qed.

Lemma total_migrateData (t : string) (json arr : list string) :
  total (migrateData env t json arr).
Proof.
  unfold migrateData. intros w. rewrite run_bind.
  unfold ask_source at 1.
  destruct (faults env (SrcCount t) (clock w)) as [e|]; [discriminate|].
  destruct (Source.count t (source env)) as [n|e] eqn:Hcount;
    cbn [settle]; [|discriminate].
  assert (Hn : n = sourceRows env t).
  { unfold Source.count, sourceRows in *.
    destruct (lookup t (source env)); [now injection Hcount|discriminate]. }
  subst n.
  apply total_bind; [apply total_logger|]. intros _.
  apply total_bind; [|intros m; total_steps leaf].
  apply total_migrateData_loop; unfold batchSize; lia.
Qed.
Hint Resolve total_migrateData : engine.

Lemma total_upsertData (t : string) (json arr : list string) :
  total (upsertData env t json arr).
Proof. unfold upsertData. total_steps leaf. Qed.
Hint Resolve total_upsertData : engine.

Lemma total_insertIgnoreData (t : string) (json arr : list string) :
  total (insertIgnoreData env t json arr).
Proof. unfold insertIgnoreData. total_steps leaf. Qed.
Hint Resolve total_insertIgnoreData : engine.

Lemma total_truncateTarget (id t : string) : total (truncateTarget env id t).
Proof. unfold truncateTarget. total_steps leaf. Qed.
Hint Resolve total_truncateTarget : engine.

Lemma total_dispatch (id t rule : string) (json arr : list string) :
  total (dispatch env id t rule json arr).
Proof.
  unfold dispatch, schemaRule, overwriteRule, upsertRule, ignoreRule.
  total_steps leaf.
Qed.
Hint Resolve total_dispatch : engine.

Lemma total_migrateCollection (id t rule : string) :
  total (migrateCollection env id t rule).
Proof. unfold migrateCollection. total_steps leaf. Qed.
Hint Resolve total_migrateCollection : engine.

End Totality.

#[global] Hint Resolve sure_logMigration total_logMigration total_getTableColumns total_resetSequences
  sure_resetSequences total_tableHasData sure_tableHasData total_copyConstraints
  total_getTableColumnsDetailed total_getTableSequences total_createSequences sure_createSequences
  total_syncIndexes sure_syncIndexes total_createTable total_addMissingColumns
  total_migrateSchema sure_migrateSchema sure_schemaRule sure_log_lines
  total_log_lines total_prepareAll total_logFailedRow total_migrateData
  total_upsertData total_insertIgnoreData total_truncateTarget total_dispatch
  total_migrateCollection : engine.

(* ================================================================== *)
(** * The tables of a job leave its records alone *)
(* ================================================================== *)

#[global] Hint Resolve records_ask_source records_ask_target records_setRole
  records_logger records_insert_log records_select_connection : engine.

Ltac records :=
  keeps_steps same_records_refl same_records_trans ltac:(solve [eauto with engine]).

Section Records.

Variable env : Env.

Lemma records_logMigration (id c : string) (l : Level) (msg : string) :
  keeps same_records (logMigration env id c l msg).
Proof. unfold logMigration. records. Qed.
Hint Resolve records_logMigration : engine.

Lemma records_resetSequences (t : string) :
  keeps same_records (resetSequences env t).
Proof. unfold resetSequences. records. Qed.
Hint Resolve records_resetSequences : engine.

Lemma records_tableHasData (t : string) :
  keeps same_records (tableHasData env t).
Proof. unfold tableHasData. records. Qed.
Hint Resolve records_tableHasData : engine.

Lemma records_copyConstraints (t : string) :
  keeps same_records (copyConstraints env t).
Proof. unfold copyConstraints. records. Qed.
Hint Resolve records_copyConstraints : engine.

Lemma records_migrateSchema (id t : string) :
  keeps same_records (migrateSchema env id t).
Proof.
  unfold migrateSchema, createTable, addMissingColumns, addColumn,
    ensureSequence, createSequences, syncIndexes, getTableSequences,
    getTableColumnsDetailed.
  records.
Qed.
Hint Resolve records_migrateSchema : engine.

Lemma records_log_lines (lines : list LogLine) :
  keeps same_records (log_lines lines).
Proof. unfold log_lines. records. Qed.
Hint Resolve records_log_lines : engine.

Lemma records_logFailedRow (t : string) (row : Row) :
  keeps same_records (logFailedRow t row).
Proof. unfold logFailedRow. records. Qed.
Hint Resolve records_logFailedRow : engine.

Lemma records_migrateData_loop (fuel : nat) (t : string) (json arr : list string)
    (totalRows offset totalMigrated : nat) :
  keeps same_records
    (migrateData_loop env fuel t json arr totalRows offset totalMigrated).
Proof.
  revert offset totalMigrated.
  induction fuel as [|fuel IH]; intros offset totalMigrated.
  - intros w. apply same_records_refl.
  - cbn [migrateData_loop]. unfold prepareAll. records.
Qed.
Hint Resolve records_migrateData_loop : engine.

Lemma records_migrateCollection (id t rule : string) :
  keeps same_records (migrateCollection env id t rule).
Proof.
  unfold migrateCollection, dispatch, schemaRule, overwriteRule, upsertRule,
    ignoreRule, truncateTarget, migrateData, upsertData, insertIgnoreData,
    getTableColumns.
  records.
Qed.

End Records.

#[global] Hint Resolve records_logMigration records_resetSequences records_tableHasData records_copyConstraints
  records_migrateSchema records_log_lines records_logFailedRow records_migrateData_loop : engine.


(* ================================================================== *)
(** * The coordinator: one result per table *)
(* ================================================================== *)

Lemma lookup_update {V : Type} (k : string) (f : V -> V) (l : list (string * V))
    (v : V) :
  lookup k l = Some v -> lookup k (update k f l) = Some (f v).
Proof.
  induction l as [|[k' v'] r IH]; cbn [lookup update]; [discriminate|].
  destruct (String.eqb k k') eqn:E; cbn [lookup]; rewrite E.
  - intros H. now injection H as ->.
  - exact IH.
Qed.

Lemma has_key_lookup {V : Type} (k : string) (l : list (string * V)) :
  has_key k l = true -> exists v, lookup k l = Some v.
Proof.
  unfold has_key. destruct (lookup k l) as [v|]; [now exists v|discriminate].
Qed.

Section Coordinator.

Variable env : Env.

(** One iteration appends one entry, whatever the migration of the
    table does, and returns normally: the successful entry when the
    migration returned, the failed one when it threw. *)
Lemma processCollection_appends (id globalRule : string) (c : Collection)
    (results : list TableResult) (w : World) :
  exists r w',
    processCollection env id globalRule c results w
    = (Ok (results ++ [r])%list, w')
    /\ same_records w w'
    /\ forall cs rs w'',
         tables_ran env id globalRule w' cs rs w'' ->
         tables_ran env id globalRule w (c :: cs) (r :: rs) w''.
Proof.
  unfold processCollection. rewrite run_bind, run_logger. cbv beta iota.
  change (set_applog _ w) with (announced globalRule c w).
  rewrite run_try_catch, run_bind.
  pose proof (total_migrateCollection env id (name c)
                (effectiveRule globalRule c) (announced globalRule c w))
    as Htotal.
  pose proof (records_migrateCollection env id (name c)
                (effectiveRule globalRule c) (announced globalRule c w))
    as Hrec.
  destruct (migrateCollection env id (name c) (effectiveRule globalRule c)
              (announced globalRule c w))
    as [[n|e|] w2] eqn:Hrun; cbn [fst snd] in *; [| |contradiction].
  - eexists _, w2. split; [reflexivity|]. split; [exact Hrec|].
    intros cs rs w'' Hrest. eapply ran_returned; eassumption.
  - assert (Hreported :
              (logger Error ("Error migrating " ++ name c ++ ":") ;;
               logMigration env id (name c) Error ("Migration failed: " ++ e))
                w2
              = (Ok tt, reported env id c e w2)).
    { unfold reported. rewrite run_bind, run_logger. cbv beta iota.
      destruct (sure_logMigration env id (name c) Error
                  ("Migration failed: " ++ e)
                  (set_applog ((Error, "Error migrating " ++ name c ++ ":")
                                 :: applog w2) w2)) as [[] Hlog].
      destruct (logMigration env id (name c) Error ("Migration failed: " ++ e) _)
        as [r4 w4]; cbn [fst snd] in *. now subst r4. }
    pose proof (records_logMigration env id (name c) Error
                  ("Migration failed: " ++ e)
                  (set_applog ((Error, "Error migrating " ++ name c ++ ":")
                                 :: applog w2) w2)) as Hrec3.
    assert (Hrec4 : same_records w2 (reported env id c e w2)).
    { unfold reported. rewrite run_bind, run_logger. cbv beta iota.
      exact Hrec3. }
    rewrite run_bind, run_logger. cbv beta iota. rewrite run_bind.
    rewrite run_bind, run_logger in Hreported. cbv beta iota in Hreported.
    rewrite Hreported. cbv beta iota. rewrite run_ret.
    eexists _, _. split; [reflexivity|]. split.
    + eapply same_records_trans; [exact Hrec|exact Hrec4].
    + intros cs rs w'' Hrest. eapply ran_threw; eassumption.
Qed.

(** The loop over the tables appends one entry per table, in order,
    each for the run of its own table. *)
Lemma for_each_processCollection (id globalRule : string)
    (collections : list Collection) (results : list TableResult) (w : World) :
  exists rs w',
    for_each collections (processCollection env id globalRule) results w
    = (Ok (results ++ rs)%list, w')
    /\ same_records w w'
    /\ tables_ran env id globalRule w collections rs w'.
Proof.
  revert results w.
  induction collections as [|c cs IH]; intros results w; cbn [for_each].
  - exists [], w. rewrite app_nil_r. repeat split. constructor.
  - rewrite run_bind.
    destruct (processCollection_appends id globalRule c results w)
      as [r [w1 [Hrun [Hrec Hr]]]].
    rewrite Hrun.
    destruct (IH (results ++ [r])%list w1) as [rs [w' [Hrest [Hrec' Hall]]]].
    exists (r :: rs), w'. split; [|split].
    + rewrite Hrest, <- app_assoc. reflexivity.
    + eapply same_records_trans; eassumption.
    + now apply Hr.
Qed.

End Coordinator.

Lemma tables_ran_entries (env : Env) (id globalRule : string)
    (collections : list Collection) (results : list TableResult)
    (w w' : World) :
  tables_ran env id globalRule w collections results w' ->
  Forall2 (fun c r => res_collection r = name c
                      /\ res_rule r = effectiveRule globalRule c)
          collections results.
Proof.
  induction 1; constructor; try assumption; now split.
Qed.

(** The runs leave no choice of the entries. *)
Lemma tables_ran_functional (env : Env) (id globalRule : string)
    (collections : list Collection) (rs rs' : list TableResult)
    (w w1 w2 : World) :
  tables_ran env id globalRule w collections rs w1 ->
  tables_ran env id globalRule w collections rs' w2 ->
  rs = rs' /\ w1 = w2.
Proof.
  intros H. revert rs' w2.
  induction H as [w|w wa w' c cs rs n Hrun Hrest IH
                  |w wa w' c cs rs e Hrun Hrest IH];
    intros rs' w2 H'; inversion H'; subst;
    try (now split);
    match goal with
    | Hother : migrateCollection _ _ _ _ _ = _ |- _ =>
        rewrite Hrun in Hother; inversion Hother; subst
    end;
    match goal with
    | Hnext : tables_ran _ _ _ _ _ _ _ |- _ =>
        destruct (IH _ _ Hnext) as [-> ->]
    end;
    now split.
Qed.

(** C1.  When the job store holds the two connections and the job's
    record, and answers the statements on them, executeMigration
    returns, the record ends as completed, and its result has exactly
    one entry per table, in the order of the tables.  The entry names
    the table and its rule.  The tables ran one after the other, each
    in the state the one before it left: the entry of a table whose
    migration returned is the successful one with the number returned,
    the entry of a table whose migration threw is the failed one with
    the message of the exception, and the table after it ran all the
    same. *)
Theorem one_result_per_table (env : Env)
    (migrationId sourceConnId targetConnId globalRule : string)
    (collections : list Collection) (w : World) (job : Migration) :
  has_key sourceConnId (connections (store w)) = true ->
  has_key targetConnId (connections (store w)) = true ->
  lookup migrationId (migrations (store w)) = Some job ->
  (forall s n, job_record_stmt s = true -> faults env s n = None) ->
  exists results duration w',
    executeMigration env migrationId sourceConnId targetConnId globalRule
                     collections w = (Ok tt, w')
    /\ lookup migrationId (migrations (store w'))
       = Some (completedJob job results duration)
    /\ List.length results = List.length collections
    /\ Forall2
         (fun c r => res_collection r = name c
                     /\ res_rule r = effectiveRule globalRule c)
         collections results
    /\ exists w1,
         tables_ran env migrationId globalRule
                    (connected sourceConnId targetConnId w)
                    collections results w1.
Proof.
  intros Hsrc Htgt Hjob Hstore.
  apply has_key_lookup in Hsrc as [sc Hsc]. apply has_key_lookup in Htgt as [tc Htc].
  unfold executeMigration. rewrite run_bind. cbn [now].
  unfold try_finally. rewrite run_try_catch, run_bind.
  unfold ask_store at 1.
  rewrite (Hstore (SelectConnection sourceConnId) _ eq_refl).
  cbn [Store.select_connection fst snd settle answered]. rewrite Hsc.
  rewrite run_bind. unfold ask_store at 1.
  rewrite (Hstore (SelectConnection targetConnId) _ eq_refl).
  cbn [Store.select_connection fst snd settle answered store set_store sent
       set_trace set_clock connections].
  rewrite Htc. rewrite run_bind.
  match goal with
  | |- context [for_each collections _ [] ?w0] =>
      assert (Hstart : w0 = connected sourceConnId targetConnId w)
        by (now destruct w);
      destruct (for_each_processCollection env migrationId globalRule
                  collections [] w0) as [rs [w1 [Hrun [[_ Hmig] Hall]]]]
  end.
  rewrite Hrun. cbn [app]. rewrite run_bind. cbn [now]. rewrite run_bind.
  unfold ask_store at 1.
  rewrite (Hstore (UpdateMigration migrationId _) _ eq_refl).
  cbn [Store.update_migration fst snd settle answered logger ret].
  rewrite Hstart in Hall.
  eexists rs, _, _. split; [reflexivity|]. split; [|split; [|split]].
  - cbn [store set_applog set_store migrations].
    rewrite Hmig. cbn [store set_store sent set_trace set_clock migrations].
    erewrite lookup_update by exact Hjob. reflexivity.
  - symmetry. eapply Forall2_length, tables_ran_entries, Hall.
  - eapply tables_ran_entries, Hall.
  - now exists w1.
Qed.

(* ================================================================== *)
(** * A rule that is none of the four *)
(* ================================================================== *)

Section UnknownRule.

Variable env : Env.

(** The log line of a table reaches the job store or is dropped; the
    target is not touched either way. *)
Lemma logMigration_run (id c : string) (l : Level) (msg : string) (w : World) :
  exists w',
    logMigration env id c l msg w = (Ok tt, w')
    /\ target w' = target w /\ role w' = role w
    /\ exists ok,
         trace w'
         = {| ev_stmt := InsertLog {| log_migration_id := id;
                                      log_collection_name := c;
                                      log_level := l; log_message := msg |};
              ev_role := role w; ev_ok := ok |} :: trace w.
Proof.
  unfold logMigration. rewrite run_try_catch. unfold ask_store.
  destruct (faults env _ (clock w)) as [e|].
  - eexists. split; [reflexivity|]. repeat split. now exists false.
  - eexists. split; [reflexivity|]. repeat split. now exists true.
Qed.

Lemma dispatch_unknown (id t rule : string) (json arr : list string) :
  Js.includes knownRules rule = false ->
  dispatch env id t rule json arr = ret 0.
Proof.
  unfold knownRules, Js.includes. cbn [existsb]. intros H.
  repeat (apply orb_false_iff in H as [?E H]).
  unfold dispatch. now rewrite E, E0, E1, E2.
Qed.

End UnknownRule.

(** C10.  For a table whose rule is none of the four, once the source
    has answered the column query, the iteration sends nothing but the
    announcing log line and that query, leaves the target and its role
    as they were, and appends the entry of a success with 0 rows. *)
Theorem unknown_rule_is_success_with_zero_rows (env : Env)
    (migrationId globalRule : string) (collection : Collection)
    (results : list TableResult) (w : World) :
  Js.includes knownRules (effectiveRule globalRule collection) = false ->
  (forall n, faults env (SrcColumns (name collection)) n = None) ->
  exists evs w',
    processCollection env migrationId globalRule collection results w
    = (Ok (results
           ++ [succeeded (name collection)
                         (effectiveRule globalRule collection) 0])%list, w')
    /\ target w' = target w
    /\ role w' = role w
    /\ trace w' = (evs ++ trace w)%list
    /\ forallb introduces evs = true.
Proof.
  intros Hrule Hsource.
  unfold processCollection. cbv zeta. rewrite run_bind. cbn [logger].
  rewrite run_try_catch, run_bind. unfold migrateCollection. rewrite run_bind.
  match goal with
  | |- context [logMigration env ?i ?c ?l ?m ?w0] =>
      destruct (logMigration_run env i c l m w0) as [w1 [Hlog [Ht [Hr [ok Hev]]]]]
  end.
  rewrite Hlog. rewrite run_bind. unfold getTableColumns, ask_source.
  rewrite Hsource.
  assert (Hcols : exists cols,
             Source.columns (name collection) (source env) = Answer cols).
  { unfold Source.columns. destruct (lookup _ _); eexists; reflexivity. }
  destruct Hcols as [cols Hcols]. rewrite Hcols. cbn [settle answered].
  rewrite !run_bind. cbn [logger].
  rewrite dispatch_unknown by exact Hrule. cbn [ret].
  eexists [_; _], _. split; [reflexivity|].
  cbn [target role trace set_applog sent set_trace set_clock].
  rewrite Ht, Hr, Hev. repeat split.
Qed.


(* ================================================================== *)
(** * The schema rule *)
(* ================================================================== *)

Lemma columns_added_app (a b : list Event) :
  columns_added (a ++ b) = columns_added a + columns_added b.
Proof. unfold columns_added. rewrite filter_app, length_app. reflexivity. Qed.

Lemma grows_refl (w : World) : grows 0 w w.
Proof. now exists []. Qed.

Lemma grows_trans (a b : nat) (w w1 w2 : World) :
  grows a w w1 -> grows b w1 w2 -> grows (a + b) w w2.
Proof.
  intros [e1 [H1 [K1 P1]]] [e2 [H2 [K2 P2]]]. exists (e2 ++ e1)%list.
  split; [|split].
  - rewrite H2, H1. apply app_assoc.
  - rewrite columns_added_app. lia.
  - rewrite forallb_app, P1, P2. reflexivity.
Qed.

Lemma quiet_grows (w w' : World) : emits schema_quiet w w' -> grows 0 w w'.
Proof.
  intros [evs [Ht Hq]]. exists evs. split; [exact Ht|].
  clear Ht. induction evs as [|e r IH]; [now split|].
  cbn [forallb] in Hq. apply andb_true_iff in Hq as [He Hr].
  destruct (IH Hr) as [Hk Hs].
  unfold schema_quiet in He. apply andb_true_iff in He as [Ha Hd].
  apply negb_true_iff in Ha. split.
  - unfold columns_added in *. cbn [filter]. rewrite Ha. exact Hk.
  - cbn [forallb]. rewrite Hd, Hs. reflexivity.
Qed.

Lemma grows_applog (k : nat) (w w' : World) (l : list LogLine) :
  grows k w w' -> grows k w (set_applog l w').
Proof. intros [evs H]. now exists evs. Qed.

(** What a run that sends only quiet statements looks like. *)
Lemma quiet_run {A} (m : M A) (w : World) :
  total m -> keeps (emits schema_quiet) m ->
  (exists a w', m w = (Ok a, w') /\ grows 0 w w')
  \/ (exists e w', m w = (Throw e, w') /\ grows 0 w w').
Proof.
  intros Ht Hq. specialize (Ht w). specialize (Hq w). apply quiet_grows in Hq.
  destruct (m w) as [[a|e|] w']; cbn [fst snd] in *.
  - left. now exists a, w'.
  - right. now exists e, w'.
  - contradiction.
Qed.

Lemma sure_quiet_run {A} (m : M A) (w : World) :
  sure m -> keeps (emits schema_quiet) m ->
  exists a w', m w = (Ok a, w') /\ grows 0 w w'.
Proof.
  intros Hs Hq. destruct (Hs w) as [a Ha]. specialize (Hq w).
  apply quiet_grows in Hq.
  destruct (m w) as [r w']; cbn [fst snd] in *. subst r. now exists a, w'.
Qed.

Ltac quiet_leaf :=
  solve [ eauto with engine
        | first [ apply emits_ask_store | apply emits_ask_source
                | apply emits_ask_target | apply emits_setRole ];
          intros ? ?; reflexivity
        | apply emits_logger ].

Ltac quiet :=
  keeps_steps (emits_refl schema_quiet) (emits_trans schema_quiet) quiet_leaf.

Section SchemaRule.

Variable env : Env.

Lemma quiet_logMigration (id c : string) (l : Level) (msg : string) :
  keeps (emits schema_quiet) (logMigration env id c l msg).
Proof. unfold logMigration. quiet. Qed.
Hint Resolve quiet_logMigration : engine.

Section WithLog.

Variable log : string -> M unit.
Hypothesis log_sure : forall m, sure (log m).
Hypothesis log_quiet : forall m, keeps (emits schema_quiet) (log m).

Lemma log_total : forall m, total (log m).
Proof. intros m. apply sure_total, log_sure. Qed.
Hint Resolve log_sure log_quiet log_total : engine.

Lemma quiet_createSequences (t : string) :
  keeps (emits schema_quiet) (createSequences env t log).
Proof. unfold createSequences, getTableSequences. quiet. Qed.

Lemma quiet_syncIndexes (t : string) :
  keeps (emits schema_quiet) (syncIndexes env t log).
Proof. unfold syncIndexes. quiet. Qed.

Lemma quiet_ensureSequence (col : Column) :
  keeps (emits schema_quiet) (ensureSequence env col log).
Proof. unfold ensureSequence. quiet. Qed.

Lemma total_ensureSequence (col : Column) : total (ensureSequence env col log).
Proof. unfold ensureSequence. total_steps ltac:(solve [eauto with engine]). Qed.

Lemma quiet_createTable (t : string) (cols : list Column) :
  keeps (emits schema_quiet) (createTable env t cols log).
Proof. unfold createTable, createSequences, getTableSequences. quiet. Qed.

Lemma sure_createTable (t : string) (cols : list Column) :
  sure (createTable env t cols log).
Proof.
  unfold createTable.
  sure_steps ltac:(solve [eauto with engine
                         | total_steps ltac:(solve [eauto with engine])]).
Qed.

Lemma createTable_adds_no_column (t : string) (cols : list Column) :
  returns (fun r => columnsAdded (fst r) = []) (createTable env t cols log).
Proof.
  unfold createTable. do 4 (apply returns_bind; intros ?).
  destruct a2 as [e|]; repeat (apply returns_bind; intros ?);
    now apply returns_ret.
Qed.

Lemma createTable_run (t : string) (cols : list Column) (w : World) :
  exists ch flag w',
    createTable env t cols log w = (Ok (ch, flag), w')
    /\ grows 0 w w' /\ columnsAdded ch = [].
Proof.
  destruct (sure_quiet_run (createTable env t cols log) w
              (sure_createTable t cols) (quiet_createTable t cols))
    as [[ch flag] [w' [E G]]].
  exists ch, flag, w'. split; [exact E|]. split; [exact G|].
  apply (createTable_adds_no_column t cols w (ch, flag)). now rewrite E.
Qed.

Lemma grows_eq (a b : nat) (w w' : World) : grows a w w' -> a = b -> grows b w w'.
Proof. now intros H <-. Qed.

(** The statement that adds a column counts when it comes back without
    an error. *)
Lemma add_column_event (sql t : string) (col : Column) (w : World) :
  (exists w', ask_target env (AddColumn sql t col) (Target.add_column t col) w
              = (Ok tt, w') /\ grows 1 w w')
  \/ (exists e w', ask_target env (AddColumn sql t col) (Target.add_column t col) w
                   = (Throw e, w') /\ grows 0 w w').
Proof.
  unfold ask_target. destruct (faults env (AddColumn sql t col) (clock w)) as [e|].
  - right. exists e. eexists. split; [reflexivity|].
    eexists [_]. repeat split.
  - destruct (fst (Target.add_column t col (target w))) as [[]|e];
      cbn [settle answered].
    + left. eexists. split; [reflexivity|]. eexists [_]. repeat split.
    + right. exists e. eexists. split; [reflexivity|]. eexists [_]. repeat split.
Qed.

(** One missing column: [changes] gains its name exactly when the
    column was added. *)
Lemma addColumn_run (t : string) (col : Column) (ch : SchemaChanges) (w : World) :
  exists ch' k w',
    addColumn env t log col ch w = (Ok ch', w')
    /\ grows k w w'
    /\ List.length (columnsAdded ch') = List.length (columnsAdded ch) + k.
Proof.
  unfold addColumn. rewrite run_try_catch, run_bind.
  destruct (quiet_run (ensureSequence env col log) w
              (total_ensureSequence col) (quiet_ensureSequence col))
    as [[u [w1 [E1 G1]]]|[e [w1 [E1 G1]]]]; rewrite E1.
  - rewrite run_bind.
    destruct (sure_quiet_run (log ("Adding column: " ++ column_name col)) w1
                (log_sure _) (log_quiet _)) as [[] [w2 [E2 G2]]].
    rewrite E2, run_bind.
    destruct (add_column_event (alterSQL t col) t col w2)
      as [[w3 [E3 G3]]|[e [w3 [E3 G3]]]]; rewrite E3.
    + rewrite run_bind.
      destruct (sure_quiet_run (log ("Column " ++ column_name col ++ " added")) w3
                  (log_sure _) (log_quiet _)) as [[] [w4 [E4 G4]]].
      rewrite E4. cbn [ret].
      exists (pushColumn (column_name col) ch), 1, w4.
      split; [reflexivity|]. split.
      * eapply grows_eq;
          [exact (grows_trans _ _ _ _ _ (grows_trans _ _ _ _ _
                    (grows_trans _ _ _ _ _ G1 G2) G3) G4)|reflexivity].
      * cbn [pushColumn columnsAdded]. rewrite length_app. reflexivity.
    + rewrite run_bind.
      destruct (sure_quiet_run
                  (log ("Failed to add column " ++ column_name col ++ ": " ++ e))
                  w3 (log_sure _) (log_quiet _)) as [[] [w4 [E4 G4]]].
      rewrite E4. cbn [ret].
      exists (pushError (columnError (column_name col) e) ch), 0, w4.
      split; [reflexivity|]. split.
      * eapply grows_eq;
          [exact (grows_trans _ _ _ _ _ (grows_trans _ _ _ _ _
                    (grows_trans _ _ _ _ _ G1 G2) G3) G4)|reflexivity].
      * cbn [pushError columnsAdded]. lia.
  - rewrite run_bind.
    destruct (sure_quiet_run
                (log ("Failed to add column " ++ column_name col ++ ": " ++ e))
                w1 (log_sure _) (log_quiet _)) as [[] [w4 [E4 G4]]].
    rewrite E4. cbn [ret].
    exists (pushError (columnError (column_name col) e) ch), 0, w4.
    split; [reflexivity|]. split.
    + eapply grows_eq; [exact (grows_trans _ _ _ _ _ G1 G4)|reflexivity].
    + cbn [pushError columnsAdded]. lia.
Qed.

Lemma addColumns_run (t : string) (cols : list Column) (ch : SchemaChanges)
    (w : World) :
  exists ch' k w',
    for_each cols (addColumn env t log) ch w = (Ok ch', w')
    /\ grows k w w'
    /\ List.length (columnsAdded ch') = List.length (columnsAdded ch) + k.
Proof.
  revert ch w. induction cols as [|col r IH]; intros ch w; cbn [for_each].
  - exists ch, 0, w. split; [reflexivity|]. split; [apply grows_refl|lia].
  - rewrite run_bind.
    destruct (addColumn_run t col ch w) as [ch1 [k1 [w1 [E1 [G1 L1]]]]].
    rewrite E1.
    destruct (IH ch1 w1) as [ch2 [k2 [w2 [E2 [G2 L2]]]]].
    exists ch2, (k1 + k2), w2. split; [exact E2|]. split.
    + eapply grows_trans; eassumption.
    + lia.
Qed.

Lemma addMissingColumns_run (t : string) (cols : list Column) (w : World) :
  (exists ch flag k w',
     addMissingColumns env t cols log w = (Ok (ch, flag), w')
     /\ flag = false
     /\ grows k w w' /\ List.length (columnsAdded ch) = k)
  \/ (exists e w',
        addMissingColumns env t cols log w = (Throw e, w') /\ grows 0 w w').
Proof.
  unfold addMissingColumns. rewrite run_bind.
  destruct (sure_quiet_run
              (log ("Table " ++ t ++ " exists, checking for new columns...")) w
              (log_sure _) (log_quiet _)) as [[] [w1 [E1 G1]]].
  rewrite E1, run_bind.
  destruct (quiet_run (getTableColumnsDetailed env TargetSide t) w1
              (total_getTableColumnsDetailed env TargetSide t)
              ltac:(unfold getTableColumnsDetailed; quiet))
    as [[targetColumns [w2 [E2 G2]]]|[e [w2 [E2 G2]]]]; rewrite E2.
  - cbv zeta.
    set (missing := filter _ cols).
    destruct (Nat.eqb (List.length missing) 0).
    + rewrite run_bind.
      destruct (sure_quiet_run (log ("Table " ++ t ++ " is up to date")) w2
                  (log_sure _) (log_quiet _)) as [[] [w3 [E3 G3]]].
      rewrite E3. cbn [ret]. left. exists noChanges, false, 0, w3.
      split; [reflexivity|]. split; [reflexivity|]. split; [|reflexivity].
      eapply grows_eq;
        [exact (grows_trans _ _ _ _ _ (grows_trans _ _ _ _ _ G1 G2) G3)
        |reflexivity].
    + rewrite run_bind.
      match goal with
      | |- context [log ?m w2] =>
          destruct (sure_quiet_run (log m) w2 (log_sure _) (log_quiet _))
            as [[] [w3 [E3 G3]]]
      end.
      rewrite E3, run_bind.
      destruct (addColumns_run t missing noChanges w3)
        as [ch [k [w4 [E4 [G4 L4]]]]].
      rewrite E4. cbn [ret]. left. exists ch, false, k, w4.
      split; [reflexivity|]. split; [reflexivity|]. split.
      * eapply grows_eq;
          [exact (grows_trans _ _ _ _ _ (grows_trans _ _ _ _ _
                    (grows_trans _ _ _ _ _ G1 G2) G3) G4)|reflexivity].
      * cbn [noChanges columnsAdded List.length] in L4. lia.
  - right. exists e, w2. split; [reflexivity|].
    eapply grows_eq; [exact (grows_trans _ _ _ _ _ G1 G2)|reflexivity].
Qed.

End WithLog.

(** migrateSchema returns, and [columnsAdded] has as many names as
    columns were added. *)
Lemma migrateSchema_run (id t : string) (w : World) :
  exists ch k w',
    migrateSchema env id t w = (Ok ch, w')
    /\ grows k w w' /\ List.length (columnsAdded ch) = k.
Proof.
  unfold migrateSchema. cbv zeta.
  set (log := fun msg => logMigration env id t Info msg).
  assert (Hs : forall m, sure (log m)) by (intros m; apply sure_logMigration).
  assert (Hq : forall m, keeps (emits schema_quiet) (log m))
    by (intros m; apply quiet_logMigration).
  assert (Hhandler : forall e w0, grows 0 w w0 ->
            exists ch k w',
              (log ("Schema migration failed for " ++ t ++ ": " ++ e) ;;
               ret (pushError (tableError t e) noChanges)) w0 = (Ok ch, w')
              /\ grows k w w' /\ List.length (columnsAdded ch) = k).
  { intros e w0 G0. rewrite run_bind.
    destruct (sure_quiet_run (log ("Schema migration failed for " ++ t ++ ": " ++ e))
                w0 (Hs _) (Hq _)) as [[] [w' [E G]]].
    rewrite E. cbn [ret]. eexists _, 0, w'. split; [reflexivity|].
    split; [|reflexivity].
    eapply grows_eq; [exact (grows_trans _ _ _ _ _ G0 G)|reflexivity]. }
  rewrite run_try_catch, run_bind.
  destruct (quiet_run (getTableColumnsDetailed env SourceSide t) w
              (total_getTableColumnsDetailed env SourceSide t)
              ltac:(unfold getTableColumnsDetailed; quiet))
    as [[sourceColumns [w1 [E1 G1]]]|[e [w1 [E1 G1]]]]; rewrite E1;
    [|apply Hhandler; exact G1].
  destruct (Nat.eqb (List.length sourceColumns) 0).
  { rewrite run_bind.
    destruct (sure_quiet_run
                (log ("Table " ++ t ++ " not found in source database")) w1
                (Hs _) (Hq _)) as [[] [w2 [E2 G2]]].
    rewrite E2. cbn [ret]. exists noChanges, 0, w2.
    split; [reflexivity|]. split; [|reflexivity].
    eapply grows_eq; [exact (grows_trans _ _ _ _ _ G1 G2)|reflexivity]. }
  rewrite run_bind.
  destruct (quiet_run (ask_target env (TableExists t) (Target.has_table t)) w1
              (total_ask_target env _ _) ltac:(quiet))
    as [[tableExists [w2 [E2 G2]]]|[e [w2 [E2 G2]]]]; rewrite E2;
    [|apply Hhandler;
      eapply grows_eq; [exact (grows_trans _ _ _ _ _ G1 G2)|reflexivity]].
  rewrite run_bind.
  assert (G12 : grows 0 w w2)
    by (eapply grows_eq; [exact (grows_trans _ _ _ _ _ G1 G2)|reflexivity]).
  assert (Hsync : forall ch k w3, grows k w w3 ->
            List.length (columnsAdded ch) = k ->
            exists ch' k' w',
              (syncIndexes env t log ;; ret ch) w3 = (Ok ch', w')
              /\ grows k' w w' /\ List.length (columnsAdded ch') = k').
  { intros ch k w3 G3 L3. rewrite run_bind.
    destruct (sure_quiet_run (syncIndexes env t log) w3
                (sure_syncIndexes env t log Hs) (quiet_syncIndexes log Hq t))
      as [[] [w4 [E4 G4]]].
    rewrite E4. cbn [ret]. exists ch, k, w4. split; [reflexivity|].
    split; [|exact L3].
    eapply grows_eq; [exact (grows_trans _ _ _ _ _ G3 G4)|lia]. }
  destruct (negb tableExists).
  - destruct (createTable_run log Hs Hq t sourceColumns w2)
      as [ch [flag [w3 [E3 [G3 L3]]]]].
    rewrite E3. cbn [fst snd].
    assert (G : grows 0 w w3)
      by (eapply grows_eq; [exact (grows_trans _ _ _ _ _ G12 G3)|reflexivity]).
    destruct flag.
    + cbn [ret]. exists ch, 0, w3. split; [reflexivity|]. split; [exact G|].
      now rewrite L3.
    + destruct (Hsync ch 0 w3 G) as [ch' [k' [w' [E [G' L']]]]];
        [now rewrite L3|].
      rewrite E. now exists ch', k', w'.
  - destruct (addMissingColumns_run log Hs Hq t sourceColumns w2)
      as [[ch [flag [k [w3 [E3 [Hflag [G3 L3]]]]]]]|[e [w3 [E3 G3]]]]; rewrite E3.
    + subst flag. cbn [fst snd].
      destruct (Hsync ch k w3) as [ch' [k' [w' [E [G' L']]]]];
        [eapply grows_eq; [exact (grows_trans _ _ _ _ _ G12 G3)|reflexivity]
        |exact L3|].
      rewrite E. now exists ch', k', w'.
    + apply Hhandler.
      eapply grows_eq; [exact (grows_trans _ _ _ _ _ G12 G3)|reflexivity].
Qed.

(** The schema rule returns the number of columns added. *)
Lemma schemaRule_run (id t : string) (w : World) :
  exists k w', schemaRule env id t w = (Ok k, w') /\ grows k w w'.
Proof.
  unfold schemaRule. rewrite run_bind.
  destruct (migrateSchema_run id t w) as [ch [k [w1 [E1 [G1 L1]]]]].
  rewrite E1.
  assert (Hlogs : forall (b : bool) (l : Level) (msg : string) (w0 : World),
            grows k w w0 ->
            exists w', (if b then logMigration env id t l msg else ret tt) w0
                       = (Ok tt, w') /\ grows k w w').
  { intros b l msg w0 G0. destruct b.
    - destruct (sure_quiet_run (logMigration env id t l msg) w0
                  (sure_logMigration env id t l msg)
                  (quiet_logMigration id t l msg)) as [[] [w' [E G]]].
      exists w'. split; [exact E|].
      eapply grows_eq; [exact (grows_trans _ _ _ _ _ G0 G)|lia].
    - exists w0. now split. }
  rewrite run_bind.
  destruct (Hlogs (tableCreated ch) Info "Table created successfully" w1 G1)
    as [w2 [E2 G2]].
  rewrite E2, run_bind.
  match goal with
  | |- context [(if ?b then logMigration env id t ?l ?m else ret tt) w2] =>
      destruct (Hlogs b l m w2 G2) as [w3 [E3 G3]]
  end.
  rewrite E3, run_bind.
  match goal with
  | |- context [(if ?b then logMigration env id t ?l ?m else ret tt) w3] =>
      destruct (Hlogs b l m w3 G3) as [w4 [E4 G4]]
  end.
  rewrite E4. cbn [ret]. exists (List.length (columnsAdded ch)), w4.
  split; [reflexivity|]. now rewrite L1.
Qed.

(** *** A target that is up to date *)

Lemma ask_source_ok {A} (s : Stmt) (answer : SourceDb -> Reply A)
    (w w' : World) (a : A) :
  ask_source env s answer w = (Ok a, w') ->
  answer (source env) = Answer a /\ target w' = target w.
Proof.
  unfold ask_source. destruct (faults env s (clock w)); [discriminate|].
  destruct (answer (source env)) as [a'|e]; cbn [settle]; [|discriminate].
  intros H. injection H as -> <-. now split.
Qed.

Lemma ask_target_ok {A} (s : Stmt) (answer : TargetDb -> Reply A * TargetDb)
    (w w' : World) (a : A) :
  ask_target env s answer w = (Ok a, w') ->
  fst (answer (target w)) = Answer a /\ target w' = snd (answer (target w)).
Proof.
  unfold ask_target. destruct (faults env s (clock w)); [discriminate|].
  destruct (fst (answer (target w))) as [a'|e]; cbn [settle]; [|discriminate].
  intros H. injection H as -> <-. now split.
Qed.

Lemma logMigration_ok (id c : string) (l : Level) (msg : string)
    (w w' : World) (u : unit) :
  logMigration env id c l msg w = (Ok u, w') -> target w' = target w.
Proof.
  intros H. destruct (logMigration_run env id c l msg w) as [w1 [E [Ht _]]].
  rewrite E in H. now injection H as _ <-.
Qed.

Lemma source_columns_answer (t : string) (cols : list Column) :
  Source.columns t (source env) = Answer cols -> cols = sourceColumnsOf env t.
Proof.
  unfold Source.columns, sourceColumnsOf.
  destruct (lookup t (source env)); intros H; now apply Answer_inj in H.
Qed.

Lemma filter_none {A} (f : A -> bool) (l : list A) :
  (forall x, In x l -> f x = false) -> filter f l = [].
Proof.
  induction l as [|x r IH]; intros H; [reflexivity|]. cbn [filter].
  rewrite (H x (or_introl eq_refl)). apply IH. intros y Hy. apply H. now right.
Qed.

Lemma addMissingColumns_up_to_date (id t : string) (w w' : World)
    (ch : SchemaChanges) (flag : bool) :
  up_to_date env t (target w) ->
  addMissingColumns env t (sourceColumnsOf env t)
    (fun msg => logMigration env id t Info msg) w = (Ok (ch, flag), w') ->
  ch = noChanges /\ flag = false.
Proof.
  intros [tb [Htb Hcover]] Hrun. unfold addMissingColumns in Hrun.
  apply bind_ok in Hrun as [u [w1 [E1 Hrun]]]. apply logMigration_ok in E1.
  apply bind_ok in Hrun as [targetColumns [w2 [E2 Hrun]]].
  unfold getTableColumnsDetailed in E2. apply ask_target_ok in E2 as [Hcols _].
  unfold Target.columns in Hcols. rewrite E1, Htb in Hcols. cbn [fst] in Hcols.
  apply Answer_inj in Hcols. subst targetColumns. cbv zeta in Hrun.
  rewrite filter_none in Hrun.
  - cbn [List.length Nat.eqb] in Hrun.
    apply bind_ok in Hrun as [u' [w3 [_ Hrun]]]. cbn [ret] in Hrun.
    injection Hrun as <- <- _. now split.
  - intros col Hin. now rewrite (Hcover col Hin).
Qed.

Lemma migrateSchema_up_to_date (id t : string) (w w' : World)
    (ch : SchemaChanges) :
  up_to_date env t (target w) ->
  migrateSchema env id t w = (Ok ch, w') -> columnsAdded ch = [].
Proof.
  intros Hup Hrun. unfold migrateSchema in Hrun. cbv zeta in Hrun.
  rewrite run_try_catch in Hrun.
  match type of Hrun with
  | (match ?body w with _ => _ end) = _ =>
      destruct (body w) as [[ch0|e|] w0] eqn:Hbody
  end; [| |discriminate].
  - injection Hrun as -> ->.
    apply bind_ok in Hbody as [cols [w1 [E1 Hbody]]].
    unfold getTableColumnsDetailed in E1. apply ask_source_ok in E1 as [Hcols Ht1].
    apply source_columns_answer in Hcols. subst cols.
    destruct (Nat.eqb (List.length (sourceColumnsOf env t)) 0).
    + apply bind_ok in Hbody as [u [w2 [_ Hbody]]]. cbn [ret] in Hbody.
      now injection Hbody as <- _.
    + apply bind_ok in Hbody as [tableExists [w2 [E2 Hbody]]].
      apply ask_target_ok in E2 as [Hb Ht2].
      unfold Target.has_table in Hb, Ht2. cbn [fst snd] in Hb, Ht2.
      apply Answer_inj in Hb. rewrite Ht1 in Hb, Ht2.
      destruct Hup as [tb [Htb Hcover]].
      unfold has_key in Hb. rewrite Htb in Hb. subst tableExists.
      cbn [negb] in Hbody.
      apply bind_ok in Hbody as [[ch1 flag] [w3 [E3 Hbody]]].
      apply addMissingColumns_up_to_date in E3 as [-> ->];
        [|exists tb; rewrite Ht2; now split].
      cbn [fst snd] in Hbody.
      apply bind_ok in Hbody as [u [w4 [_ Hbody]]]. cbn [ret] in Hbody.
      now injection Hbody as <- _.
  - apply bind_ok in Hrun as [u [w1 [_ Hrun]]]. cbn [ret] in Hrun.
    now injection Hrun as <- _.
Qed.

Lemma schemaRule_up_to_date (id t : string) (w w' : World) (k : nat) :
  up_to_date env t (target w) ->
  schemaRule env id t w = (Ok k, w') -> k = 0.
Proof.
  intros Hup Hrun. unfold schemaRule in Hrun.
  apply bind_ok in Hrun as [ch [w1 [E1 Hrun]]].
  apply (migrateSchema_up_to_date id t w w1 ch Hup) in E1.
  do 3 apply bind_ok in Hrun as [? [? [_ Hrun]]].
  cbn [ret] in Hrun. injection Hrun as <- _. now rewrite E1.
Qed.

End SchemaRule.

(** C8.  Under the schema rule an iteration sends no statement that
    moves rows, and the entry it appends is the failed one of a column
    query the source refused, or the successful one whose number of
    rows migrated is the number of columns added; that number is 0 when
    the target has the table with a column for every name of the
    source. *)
Theorem schema_rule_reports_columns_added (env : Env)
    (migrationId globalRule : string) (collection : Collection)
    (results : list TableResult) (w : World) :
  effectiveRule globalRule collection = "schema" ->
  exists r evs w',
    processCollection env migrationId globalRule collection results w
    = (Ok (results ++ [r])%list, w')
    /\ trace w' = (evs ++ trace w)%list
    /\ forallb structural evs = true
    /\ (r = succeeded (name collection) "schema" (columns_added evs)
        \/ exists e, r = failed (name collection) "schema" e
                     /\ columns_added evs = 0)
    /\ (up_to_date env (name collection) (target w) -> columns_added evs = 0).
Proof.
  intros Hrule. unfold processCollection. cbv zeta. rewrite Hrule.
  rewrite run_bind. cbn [logger]. set (w0 := set_applog _ w).
  rewrite run_try_catch, run_bind. unfold migrateCollection. rewrite run_bind.
  match goal with
  | |- context [logMigration env ?i ?c ?l ?m w0] =>
      destruct (logMigration_run env i c l m w0)
        as [w1 [E1 [T1 [R1 [ok1 Ev1]]]]]
  end.
  rewrite E1, run_bind. unfold getTableColumns, ask_source.
  destruct (faults env (SrcColumns (name collection)) (clock w1)) as [e|].
  - cbv beta iota. run_head.
    match goal with
    | |- context [logMigration env ?i ?c ?l ?m ?w2] =>
        destruct (logMigration_run env i c l m w2)
          as [w3 [E3 [T3 [R3 [ok3 Ev3]]]]]
    end.
    rewrite E3. run_head.
    eexists _, [_; _; _], w3. split; [reflexivity|]. split.
    { rewrite Ev3. cbn [trace set_applog sent set_trace set_clock].
      rewrite Ev1. reflexivity. }
    split; [reflexivity|]. split.
    + right. exists e. now split.
    + reflexivity.
  - assert (Hcols : exists cols,
               Source.columns (name collection) (source env) = Answer cols).
    { unfold Source.columns. destruct (lookup _ _); eexists; reflexivity. }
    destruct Hcols as [cols Hcols]. rewrite Hcols. cbn [settle answered].
    run_head. unfold dispatch. rewrite String.eqb_refl.
    match goal with
    | |- context [schemaRule env ?i ?t ?w2] =>
        pose proof (fun k w3 => schemaRule_up_to_date env i t w2 w3 k) as Hup;
        destruct (schemaRule_run env i t w2) as [k [w3 [E3 [evs [Ht [Hk Hs]]]]]]
    end.
    rewrite E3. run_head.
    cbn [trace set_applog sent set_trace set_clock] in Ht. rewrite Ev1 in Ht.
    eexists _, (evs ++ [_; _])%list, w3. split; [reflexivity|]. split.
    { rewrite Ht, <- app_assoc. reflexivity. }
    split.
    { rewrite forallb_app, Hs. reflexivity. }
    assert (Hcount : forall a b,
               columns_added
                 (evs ++ [{| ev_stmt := SrcColumns (name collection);
                             ev_role := a; ev_ok := true |};
                          {| ev_stmt := InsertLog b; ev_role := role w0;
                             ev_ok := ok1 |}])%list = k).
    { intros a b. rewrite columns_added_app, Hk. cbn. lia. }
    split.
    + left. now rewrite Hcount.
    + intros Hw. rewrite Hcount. apply (Hup k w3); [|exact E3].
      cbn [target set_applog sent set_trace set_clock]. now rewrite T1.
Qed.


(* ================================================================== *)
(** * The overwrite rule reads the source in batches *)
(* ================================================================== *)

Lemma fetches_app (a b : list Event) :
  fetches (a ++ b) = (fetches b ++ fetches a)%list.
Proof. unfold fetches. now rewrite rev_app_distr, map_app, filter_app. Qed.

Lemma fetches_none (evs : list Event) :
  forallb no_fetch evs = true -> fetches evs = [].
Proof.
  intros H. unfold fetches. apply filter_none. intros s Hin.
  apply in_map_iff in Hin as [e [<- Hin]]. apply in_rev in Hin.
  rewrite forallb_forall in H. specialize (H e Hin).
  unfold no_fetch in H. now apply negb_true_iff in H.
Qed.

Lemma emits_run (p : Event -> bool) {A} (m : M A) (w : World) :
  total m -> keeps (emits p) m ->
  (exists a w', m w = (Ok a, w') /\ emits p w w')
  \/ (exists e w', m w = (Throw e, w') /\ emits p w w').
Proof.
  intros Ht Hq. specialize (Ht w). specialize (Hq w).
  destruct (m w) as [[a|e|] w']; cbn [fst snd] in *.
  - left. now exists a, w'.
  - right. now exists e, w'.
  - contradiction.
Qed.

Ltac no_fetch_leaf :=
  solve [ eauto with engine
        | first [ apply emits_ask_store | apply emits_ask_source
                | apply emits_ask_target | apply emits_setRole ];
          intros ? ?; reflexivity
        | apply emits_logger ].

Ltac thrown :=
  let H := fresh in intros ? H; cbv beta iota in H; cbn [fst] in H; discriminate H.

Ltac no_fetches :=
  keeps_steps (emits_refl no_fetch) (emits_trans no_fetch) no_fetch_leaf.

Lemma div_between (n j : nat) :
  batchSize * j <= n -> n < batchSize * j + batchSize -> n / batchSize = j.
Proof.
  unfold batchSize. intros H1 H2. symmetry.
  apply (Nat.div_unique n 500 j (n - 500 * j)); lia.
Qed.

Section Batches.

Variable env : Env.

Lemma batchRows_min (t : string) (offset : nat) :
  batchRows env t offset = Nat.min batchSize (sourceRows env t - offset)
  \/ (lookup t (source env) = None /\ batchRows env t offset = 0).
Proof.
  unfold batchRows.
  destruct (Source.select t batchSize offset (source env)) as [data|e] eqn:E.
  - left. now apply select_length.
  - right. unfold Source.select in E.
    destruct (lookup t (source env)); [discriminate|]. now split.
Qed.

(** The loop from the batch [j] on: it reads the batches [j], [j+1],
    ... in turn, never past the first short one, and stops there when
    it returns. *)
Lemma migrateData_loop_fetches (fuel : nat) (t : string) (json arr : list string)
    (totalRows j offset totalMigrated : nat) (w w' : World) (r : Result nat) :
  offset = batchSize * j ->
  batchSize * j <= sourceRows env t ->
  migrateData_loop env fuel t json arr totalRows offset totalMigrated w = (r, w') ->
  exists evs k,
    trace w' = (evs ++ trace w)%list
    /\ fetches evs
       = map (fun i => SrcSelect t batchSize (batchSize * (j + i))) (seq 0 k)
    /\ j + k <= sourceRows env t / batchSize + 1
    /\ (forall n, r = Ok n -> j + k = sourceRows env t / batchSize + 1).
Proof.
  revert j offset totalMigrated w.
  induction fuel as [|fuel IH]; intros j offset totalMigrated w Hoff Hj Hrun.
  { cbn [migrateData_loop] in Hrun. injection Hrun as <- <-.
    exists [], 0. repeat split.
    - assert (j <= sourceRows env t / batchSize)
        by (apply Nat.div_le_lower_bound; [unfold batchSize|]; lia).
      lia.
    - discriminate. }
  assert (Hjdiv : j <= sourceRows env t / batchSize)
    by (apply Nat.div_le_lower_bound; [unfold batchSize|]; lia).
  assert (Hone : forall w1 ok,
            emits no_fetch (sent (SrcSelect t batchSize offset) ok w) w1 ->
            exists evs,
              trace w1 = (evs ++ trace w)%list
              /\ fetches evs
                 = map (fun i => SrcSelect t batchSize (batchSize * (j + i)))
                       (seq 0 1)).
  { intros w1 ok [evs [Ht Hp]]. eexists (evs ++ [_])%list. split.
    - rewrite Ht. cbn [trace sent set_trace set_clock].
      rewrite <- app_assoc. reflexivity.
    - rewrite fetches_app, (fetches_none _ Hp), app_nil_r. subst offset.
      cbn [seq map]. rewrite Nat.add_0_r. reflexivity. }
  assert (Hthrown : forall e w1 ok,
            emits no_fetch (sent (SrcSelect t batchSize offset) ok w) w1 ->
            (Throw e, w1) = (r, w') ->
            exists evs k,
              trace w' = (evs ++ trace w)%list
              /\ fetches evs
                 = map (fun i => SrcSelect t batchSize (batchSize * (j + i)))
                       (seq 0 k)
              /\ j + k <= sourceRows env t / batchSize + 1
              /\ (forall n, r = Ok n ->
                            j + k = sourceRows env t / batchSize + 1)).
  { intros e w1 ok G H. injection H as <- <-.
    destruct (Hone _ ok G) as [evs [Ht Hf]].
    exists evs, 1. split; [exact Ht|]. split; [exact Hf|].
    split; [lia|discriminate]. }
  assert (Hlast : forall n w1,
            emits no_fetch (sent (SrcSelect t batchSize offset) true w) w1 ->
            sourceRows env t < batchSize * j + batchSize ->
            (Ok n, w1) = (r, w') ->
            exists evs k,
              trace w' = (evs ++ trace w)%list
              /\ fetches evs
                 = map (fun i => SrcSelect t batchSize (batchSize * (j + i)))
                       (seq 0 k)
              /\ j + k <= sourceRows env t / batchSize + 1
              /\ (forall n, r = Ok n ->
                            j + k = sourceRows env t / batchSize + 1)).
  { intros n w1 G Hlt H. injection H as <- <-.
    destruct (Hone _ true G) as [evs [Ht Hf]].
    exists evs, 1. split; [exact Ht|]. split; [exact Hf|].
    split; [lia|]. intros _ _.
    rewrite (div_between (sourceRows env t) j); [lia|exact Hj|exact Hlt]. }
  rewrite run_migrateData_loop, run_bind in Hrun. unfold ask_source at 1 in Hrun.
  destruct (faults env (SrcSelect t batchSize offset) (clock w)) as [e|];
    [exact (Hthrown _ _ _ (emits_refl _ _) Hrun)|].
  destruct (Source.select t batchSize offset (source env)) as [data|e] eqn:Hsel;
    cbn [settle answered] in Hrun;
    [|exact (Hthrown _ _ _ (emits_refl _ _) Hrun)].
  apply select_length in Hsel.
  destruct (Nat.eqb_spec (List.length data) 0) as [Hzero|Hsome].
  { apply (Hlast totalMigrated _ (emits_refl _ _)); [|exact Hrun].
    subst offset. unfold batchSize in *. lia. }
  rewrite run_bind in Hrun.
  destruct (emits_run no_fetch (prepareAll data json arr)
              (sent (SrcSelect t batchSize offset) true w)
              (total_prepareAll data json arr)
              ltac:(unfold prepareAll, log_lines; no_fetches))
    as [[preparedData [w1 [E1 G1]]]|[e [w1 [E1 G1]]]]; rewrite E1 in Hrun;
    [|exact (Hthrown _ _ _ G1 Hrun)].
  rewrite run_bind in Hrun.
  match type of Hrun with
  | context [try_catch ?m ?h w1] =>
      destruct (emits_run no_fetch (try_catch m h) w1
                  ltac:(total_steps ltac:(solve [eauto with engine]))
                  ltac:(unfold logFailedRow; no_fetches))
        as [[total' [w2 [E2 G2]]]|[e [w2 [E2 G2]]]]; rewrite E2 in Hrun
  end;
    [|exact (Hthrown _ _ _ (emits_trans _ _ _ _ G1 G2) Hrun)].
  pose proof (emits_trans _ _ _ _ G1 G2) as G12.
  destruct (Nat.ltb_spec (List.length data) batchSize) as [Hshort|Hfull].
  { apply (Hlast total' w2 G12); [|exact Hrun].
    subst offset. unfold batchSize in *. lia. }
  destruct (IH (S j) (offset + batchSize) total' w2)
    as [evs' [k' [Ht' [Hf' [Hb' Hok']]]]];
    [subst offset; unfold batchSize; lia
    |subst offset; unfold batchSize in *; lia
    |exact Hrun|].
  destruct (Hone _ true G12) as [evs [Ht Hf]].
  exists (evs' ++ evs)%list, (S k'). split; [|split; [|split]].
  - rewrite Ht', Ht, app_assoc. reflexivity.
  - rewrite fetches_app, Hf, Hf'. cbn [seq map app]. f_equal.
    rewrite <- seq_shift, map_map. apply map_ext. intros i. f_equal. lia.
  - lia.
  - intros n Hn. specialize (Hok' n Hn). lia.
Qed.

End Batches.

Lemma quotient_bounds (n : nat) :
  batchSize * (n / batchSize) <= n
  /\ n < batchSize * (n / batchSize) + batchSize.
Proof.
  unfold batchSize. split.
  - apply Nat.Div0.mul_div_le.
  - pose proof (Nat.mul_succ_div_gt n 500). lia.
Qed.

(** C6.  migrateData reads the source by [LIMIT 500 OFFSET k] with k =
    0, 500, 1000, ... and never runs for ever; it reads no batch past
    the first one that is short of 500 rows, and when it returns it has
    read up to that one: of the batches read, exactly the last has
    fewer than 500 rows.  A source of 501 rows is read in exactly two
    batches. *)
Theorem overwrite_reads_in_batches (env : Env) (t : string)
    (json arr : list string) (w : World) :
  batchSize = 500
  /\ exists evs k,
       trace (snd (migrateData env t json arr w)) = (evs ++ trace w)%list
       /\ fetches evs
          = map (fun i => SrcSelect t batchSize (batchSize * i)) (seq 0 k)
       /\ fst (migrateData env t json arr w) <> OutOfFuel
       /\ k <= sourceRows env t / batchSize + 1
       /\ (forall n, fst (migrateData env t json arr w) = Ok n ->
             k = sourceRows env t / batchSize + 1
             /\ forall i, i < k ->
                  (batchRows env t (batchSize * i) < batchSize <-> i = k - 1))
       /\ (sourceRows env t = 501 ->
           forall n, fst (migrateData env t json arr w) = Ok n -> k = 2).
Proof.
  split; [reflexivity|].
  pose proof (total_migrateData env t json arr w) as Htotal.
  destruct (migrateData env t json arr w) as [r w'] eqn:Hrun. cbn [fst snd] in *.
  assert (Hcore : exists evs k,
             trace w' = (evs ++ trace w)%list
             /\ fetches evs
                = map (fun i => SrcSelect t batchSize (batchSize * i)) (seq 0 k)
             /\ k <= sourceRows env t / batchSize + 1
             /\ (forall n, r = Ok n -> k = sourceRows env t / batchSize + 1)).
  { unfold migrateData in Hrun. rewrite run_bind in Hrun.
    unfold ask_source at 1 in Hrun.
    assert (Hnone : forall e ok,
               (Throw e, sent (SrcCount t) ok w) = (r, w') ->
               exists evs k,
                 trace w' = (evs ++ trace w)%list
                 /\ fetches evs
                    = map (fun i => SrcSelect t batchSize (batchSize * i))
                          (seq 0 k)
                 /\ k <= sourceRows env t / batchSize + 1
                 /\ (forall n, r = Ok n ->
                               k = sourceRows env t / batchSize + 1)).
    { intros e ok H. injection H as <- <-. eexists [_], 0.
      split; [reflexivity|]. split; [reflexivity|]. split; [lia|discriminate]. }
    destruct (faults env (SrcCount t) (clock w)) as [e|];
      [exact (Hnone _ _ Hrun)|].
    destruct (Source.count t (source env)) as [n|e] eqn:Hcount;
      cbn [settle answered] in Hrun; [|exact (Hnone _ _ Hrun)].
    rewrite run_bind, run_logger in Hrun. cbv beta iota in Hrun.
    rewrite run_bind in Hrun.
    match type of Hrun with
    | context [migrateData_loop env ?f t json arr ?n0 0 0 ?w1] =>
        destruct (migrateData_loop env f t json arr n0 0 0 w1)
          as [r2 w2] eqn:Hloop;
        destruct (migrateData_loop_fetches env f t json arr n0 0 0 0 w1 w2 r2
                    eq_refl ltac:(unfold batchSize; lia) Hloop)
          as [evs [k [Ht [Hf [Hb Hok]]]]]
    end.
    cbn [trace set_applog sent set_trace set_clock] in Ht.
    assert (Hmap : map (fun i => SrcSelect t batchSize (batchSize * (0 + i)))
                       (seq 0 k)
                   = map (fun i => SrcSelect t batchSize (batchSize * i))
                         (seq 0 k)) by (apply map_ext; intros i; reflexivity).
    rewrite Hmap in Hf.
    exists (evs ++ [{| ev_stmt := SrcCount t; ev_role := role w;
                       ev_ok := true |}])%list, k.
    destruct r2 as [m| |].
    - run_head_in Hrun. injection Hrun as <- <-.
      cbn [trace set_applog]. split; [now rewrite Ht, <- app_assoc|].
      split; [now rewrite fetches_app|]. split; [lia|].
      intros m' _. specialize (Hok m eq_refl). lia.
    - injection Hrun as <- <-. split; [now rewrite Ht, <- app_assoc|].
      split; [now rewrite fetches_app|]. split; [lia|discriminate].
    - injection Hrun as <- <-. split; [now rewrite Ht, <- app_assoc|].
      split; [now rewrite fetches_app|]. split; [lia|discriminate]. }
  destruct Hcore as [evs [k [Ht [Hf [Hb Hok]]]]].
  exists evs, k. split; [exact Ht|]. split; [exact Hf|]. split; [exact Htotal|].
  split; [exact Hb|]. split.
  - intros n Hn. specialize (Hok n Hn). split; [exact Hok|].
    intros i Hi. destruct (quotient_bounds (sourceRows env t)) as [Hlo Hhi].
    assert (Hrows : lookup t (source env) = None -> sourceRows env t = 0)
      by (intros H; unfold sourceRows; now rewrite H).
    destruct (batchRows_min env t (batchSize * i)) as [Hmin|[Hnone Hmin]];
      [|apply Hrows in Hnone]; rewrite Hmin; unfold batchSize in *;
      set (q := sourceRows env t / 500) in *;
      set (rows := sourceRows env t) in *; clearbody q rows; lia.
  - intros H501 n Hn. rewrite (Hok n Hn), H501. reflexivity.
Qed.


(* ================================================================== *)
(** * The sample jobs *)
(* ================================================================== *)

Lemma one_result_per_table_witness :
  (exists results duration w',
     executeMigration flaky_env "job-1" "src" "tgt" "overwrite"
                      flaky_tasks (start stale_target) = (Ok tt, w')
     /\ lookup "job-1" (migrations (store w'))
        = Some (completedJob running_job results duration)
     /\ List.length results = List.length flaky_tasks
     /\ Forall2
          (fun c r => res_collection r = name c
                      /\ res_rule r = effectiveRule "overwrite" c)
          flaky_tasks results
     /\ exists w1,
          tables_ran flaky_env "job-1" "overwrite"
                     (connected "src" "tgt" (start stale_target))
                     flaky_tasks results w1)
  /\ option_map mig_result
       (lookup "job-1"
          (migrations
             (store (snd (executeMigration flaky_env "job-1" "src" "tgt"
                            "overwrite" flaky_tasks (start stale_target))))))
     = Some (Some [failed "good" "overwrite" "Connection terminated unexpectedly";
                   succeeded "good" "overwrite" 2]).
Proof.
  split; [|vm_compute; reflexivity].
  apply (one_result_per_table flaky_env "job-1" "src" "tgt" "overwrite"
           flaky_tasks (start stale_target) running_job);
    [reflexivity | reflexivity | reflexivity | intros s n H; now destruct s].
Defined.

(** The job of three tables of which the source lacks the second:
    completed, with a success, a failure and a success. *)
Example per_table_isolation :
  option_map
    (fun job => (mig_status job,
                 option_map (map (fun r => (res_collection r, res_status r,
                                            res_rowsMigrated r)))
                            (mig_result job)))
    (lookup "job-1"
       (migrations
          (store (snd (executeMigration isolation_env "job-1" "src" "tgt"
                         "overwrite" isolation_tasks (start empty_target))))))
  = Some (Completed,
          Some [("good", Success, Some 2); ("bad", TableFailed, None);
                ("also_good", Success, Some 2)]).
Proof. vm_compute. reflexivity. Qed.

Lemma unknown_rule_witness :
  exists evs w',
    processCollection isolation_env "job-1" "overwrite" merge_task []
                      (start empty_target)
    = (Ok ([] ++ [succeeded (name merge_task)
                            (effectiveRule "overwrite" merge_task) 0])%list, w')
    /\ target w' = target (start empty_target)
    /\ role w' = role (start empty_target)
    /\ trace w' = (evs ++ trace (start empty_target))%list
    /\ forallb introduces evs = true.
Proof.
  apply (unknown_rule_is_success_with_zero_rows isolation_env "job-1" "overwrite"
           merge_task [] (start empty_target));
    [reflexivity | intros n; reflexivity].
Defined.

Lemma schema_rule_witness :
  exists r evs w',
    processCollection flagged_env "job-1" "overwrite" schema_task []
                      (start unflagged_target)
    = (Ok ([] ++ [r])%list, w')
    /\ trace w' = (evs ++ trace (start unflagged_target))%list
    /\ forallb structural evs = true
    /\ (r = succeeded (name schema_task) "schema" (columns_added evs)
        \/ exists e, r = failed (name schema_task) "schema" e
                     /\ columns_added evs = 0)
    /\ (up_to_date flagged_env (name schema_task)
                   (target (start unflagged_target)) ->
        columns_added evs = 0).
Proof.
  apply (schema_rule_reports_columns_added flagged_env "job-1" "overwrite"
           schema_task [] (start unflagged_target)).
  reflexivity.
Defined.

(** The column the target lacked is added and counted; its rows stay. *)
Example incremental_schema :
  fst (processCollection flagged_env "job-1" "overwrite" schema_task []
                         (start unflagged_target))
  = Ok [succeeded "t" "schema" 1]
  /\ option_map
       (fun tb => (map column_name (tgt_columns tb), tgt_rows tb))
       (lookup "t"
          (tgt_tables
             (target (snd (processCollection flagged_env "job-1" "overwrite"
                             schema_task [] (start unflagged_target))))))
     = Some (["id"; "name"; "flag"], [[("id", Js.Num 7); ("name", Js.Str "old")]]).
Proof. vm_compute. split; reflexivity. Qed.

(** A source of 501 rows: two batch reads, 501 rows migrated. *)
Example two_batches_for_501_rows :
  sourceRows big_env "big" = 501
  /\ fst (migrateData big_env "big" [] [] (start big_target)) = Ok 501
  /\ fetches (trace (snd (migrateData big_env "big" [] [] (start big_target))))
     = [SrcSelect "big" 500 0; SrcSelect "big" 500 500].
Proof. vm_compute. repeat split. Qed.

(* ================================================================== *)
(** * The primary key of an upsert *)
(* ================================================================== *)

Lemma primaryKeyOf_none : primaryKeyOf [] = "id".
Proof. reflexivity. Qed.

Lemma primaryKeyOf_single (c : string) : c <> "" -> primaryKeyOf [c] = c.
Proof.
  intros H. unfold primaryKeyOf. destruct (String.eqb_spec c ""); congruence.
Qed.

(** Whatever the key, only its first column reaches the statement. *)
Lemma primaryKeyOf_first (c : string) (rest : list string) :
  primaryKeyOf (c :: rest) = primaryKeyOf [c].
Proof. reflexivity. Qed.

(** C2.  For a table whose primary key has two columns, the catalog
    query returns both, and every upsert names only the first as its
    conflict target. *)
Theorem upsert_conflict_target_is_first_key_column :
  Source.primary_key "orders" (source orders_env)
  = Answer ["tenant_id"; "order_id"]
  /\ primaryKeyOf ["tenant_id"; "order_id"] = "tenant_id"
  /\ upsert_conflicts
       (trace (snd (upsertData orders_env "orders" [] [] (start orders_target))))
     = ["tenant_id"; "tenant_id"].
Proof. vm_compute. repeat split. Qed.

(* ================================================================== *)
(** * The role of the target session *)
(* ================================================================== *)

(** ** Runs that end in a given role *)

Lemma same_role_refl (w : World) : same_role w w.
Proof. reflexivity. Qed.

Lemma same_role_trans (a b c : World) :
  same_role a b -> same_role b c -> same_role a c.
Proof. unfold same_role. congruence. Qed.

Lemma restores_lands {A} (m : M A) : lands RoleDefault m -> restores m.
Proof. intros H w _. apply H. Qed.

Lemma lands_bind {A B} (r : Role) (m : M A) (f : A -> M B) :
  sure m -> (forall a, lands r (f a)) -> lands r (bind m f).
Proof.
  intros Hm Hf w. rewrite run_bind. destruct (Hm w) as [a Ha].
  destruct (m w) as [x w1]; cbn [fst] in Ha; subst x. apply Hf.
Qed.

Lemma lands_then {A B} (r : Role) (m : M A) (f : A -> M B) :
  lands r m -> (forall a, keeps same_role (f a)) -> lands r (bind m f).
Proof.
  intros Hm Hf w. rewrite run_bind. specialize (Hm w).
  destruct (m w) as [[a|e|] w1]; cbn [snd] in *; try exact Hm.
  rewrite (Hf a w1). exact Hm.
Qed.

Lemma returns_in_lands {A} (r : Role) (m : M A) : lands r m -> returns_in r m.
Proof. intros H w a _. apply H. Qed.

Lemma returns_in_bind {A B} (r : Role) (m : M A) (f : A -> M B) :
  (forall a, returns_in r (f a)) -> returns_in r (bind m f).
Proof.
  intros Hf w b. rewrite run_bind.
  destruct (m w) as [[a|e|] w1]; cbn [fst]; try discriminate. apply Hf.
Qed.

Lemma lands_try_catch {A} (r : Role) (m : M A) (h : string -> M A) :
  total m -> returns_in r m -> (forall e, lands r (h e)) ->
  lands r (try_catch m h).
Proof.
  intros Ht Hm Hh w. rewrite run_try_catch. specialize (Ht w).
  specialize (Hm w). destruct (m w) as [[a|e|] w1]; cbn [fst snd] in *.
  - now apply (Hm a).
  - apply Hh.
  - contradiction.
Qed.

Lemma sure_for_each_in {A S} (xs : list A) (body : A -> S -> M S) (acc : S) :
  (forall x s, In x xs -> sure (body x s)) -> sure (for_each xs body acc).
Proof.
  revert acc. induction xs as [|x r IH]; intros acc Hb; cbn [for_each].
  - apply sure_ret.
  - apply sure_bind; [apply Hb; now left|].
    intros s. apply IH. intros y s' Hy. apply Hb. now right.
Qed.

Lemma In_firstn {A} (n : nat) (l : list A) (x : A) :
  In x (firstn n l) -> In x l.
Proof.
  revert l. induction n as [|n IH]; intros [|y l]; cbn; try tauto.
  intros [H|H]; [now left | right; now apply IH].
Qed.

Lemma In_skipn {A} (n : nat) (l : list A) (x : A) :
  In x (skipn n l) -> In x l.
Proof.
  revert l. induction n as [|n IH]; intros [|y l]; cbn; try tauto.
  intros H. right. now apply IH.
Qed.

Section Role.

Variable env : Env.

Lemma role_logger (l : Level) (message : string) :
  keeps same_role (logger l message).
Proof. intros w. reflexivity. Qed.

Lemma role_log_lines (lines : list LogLine) : keeps same_role (log_lines lines).
Proof.
  unfold log_lines.
  apply (keeps_for_each _ same_role_refl same_role_trans).
  intros l u. apply role_logger.
Qed.

Lemma select_rows (t : string) (limit offset : nat) (data : list Row) :
  Source.select t limit offset (source env) = Answer data ->
  forall row, In row data -> In row (tableRows env t).
Proof.
  unfold Source.select, tableRows. destruct (lookup t (source env)) as [tb|];
    [|discriminate].
  intros H row Hrow. apply Answer_inj in H. subst data.
  eapply In_skipn, In_firstn, Hrow.
Qed.

Lemma prepareAll_run (data : list Row) (json arr : list string) (w : World) :
  exists w1,
    prepareAll data json arr w
    = (Ok (map (fun row => fst (prepareRowForInsert row json arr)) data), w1)
    /\ role w1 = role w.
Proof.
  unfold prepareAll. cbv zeta. rewrite run_bind.
  pose proof (sure_log_lines
                (concat (map snd (map (fun row => prepareRowForInsert row json arr)
                                      data))) w) as [u Hu].
  pose proof (role_log_lines
                (concat (map snd (map (fun row => prepareRowForInsert row json arr)
                                      data))) w) as Hr.
  destruct (log_lines _ w) as [x w1]. cbn [fst snd] in *. subst x.
  exists w1. split; [|exact Hr]. cbn [ret]. rewrite map_map. reflexivity.
Qed.

Hypothesis role_answered : role_statements_answered env.

Lemma sure_setRole (r : Role) : sure (setRole env r).
Proof. intros w. unfold setRole. rewrite role_answered. now exists tt. Qed.

Lemma lands_setRole (r : Role) : lands r (setRole env r).
Proof. intros w. unfold setRole. rewrite role_answered. reflexivity. Qed.

Lemma sure_logFailedRow (t : string) (row : Row) :
  loggable row -> sure (logFailedRow t row).
Proof.
  unfold loggable, logFailedRow. destruct (Js.stringify (Js.Obj row));
    [intros _; apply sure_logger | congruence].
Qed.

End Role.

(* ================================================================== *)
(** * Further properties of the type preparer *)
(* ================================================================== *)

Lemma chars_app (a b : string) :
  Js.chars (a ++ b) = (Js.chars a ++ Js.chars b)%list.
Proof.
  unfold Js.chars. induction a as [|c a IH]; [reflexivity|].
  cbn [String.append list_ascii_of_string app]. now rewrite IH.
Qed.

(** The escape of one character reads back as one character of a
    string body. *)
Lemma scan_quote_char (c : ascii) (rest : list ascii) :
  Js.scan_string (Js.chars (Js.quote_char c) ++ rest) = Js.scan_string rest.
Proof. destruct c as [[] [] [] [] [] [] [] []]; reflexivity. Qed.

Lemma scan_quote_body (s : string) (rest : list ascii) :
  Js.scan_string (Js.chars (Js.quote_body s) ++ rest) = Js.scan_string rest.
Proof.
  induction s as [|c s IH]; [reflexivity|].
  cbn [Js.quote_body]. now rewrite chars_app, <- app_assoc, scan_quote_char.
Qed.

Lemma scan_value_string (fuel : nat) (r : list ascii) :
  Js.scan_value (S fuel) (Js.dquote :: r) = Js.scan_string r.
Proof. reflexivity. Qed.

(** What [JSON.stringify] makes of a string is a text [JSON.parse]
    accepts. *)
Lemma parse_ok_quote (s : string) : Js.parse_ok (Js.quote s) = true.
Proof.
  unfold Js.parse_ok, Js.quote.
  rewrite chars_app, chars_app. cbn [Js.chars Js.dq list_ascii_of_string app].
  match goal with
  | |- context [Js.scan_value ?f _] => destruct f as [|fuel] eqn:E; [lia|]
  end.
  rewrite scan_value_string.
  change (list_ascii_of_string (Js.quote_body s)) with (Js.chars (Js.quote_body s)).
  rewrite scan_quote_body. reflexivity.
Qed.

(** X1.  A string bound for a JSON column is stored as a text that
    parses as JSON: as it is when it parses already, as its JSON string
    literal otherwise; nothing is logged. *)
Theorem json_column_string_is_valid_json
    (jsonColumns arrayColumns : list string) (key s : string) :
  Js.includes jsonColumns key = true ->
  exists text,
    prepareValue jsonColumns arrayColumns key (Js.Str s) = (Js.Str text, [])
    /\ Js.parse_ok text = true
    /\ (Js.parse_ok s = true -> text = s)
    /\ (Js.parse_ok s = false -> text = Js.quote s).
Proof.
  intros Hkey. unfold prepareValue. cbn [Js.is_nullish Js.is_object Js.typeof].
  rewrite Hkey. destruct (Js.parse_ok s) eqn:Hs.
  - exists s. repeat split; [exact Hs | discriminate].
  - exists (Js.quote s). repeat split; [apply parse_ok_quote | discriminate].
Qed.

Lemma json_column_string_is_valid_json_witness :
  exists text,
    prepareValue ["payload"] [] "payload" (Js.Str "plain text") = (Js.Str text, [])
    /\ Js.parse_ok text = true
    /\ (Js.parse_ok "plain text" = true -> text = "plain text")
    /\ (Js.parse_ok "plain text" = false -> text = Js.quote "plain text").
Proof.
  apply (json_column_string_is_valid_json ["payload"] [] "payload" "plain text").
  reflexivity.
Defined.

(** X2.  A native array of text elements without a backslash, bound
    for an ARRAY column, is stored as a literal that the server reads
    back as the same elements, double quotes, commas and braces
    included; the empty array is stored as the empty literal. *)
Theorem array_column_round_trip
    (jsonColumns arrayColumns : list string) (key : string)
    (elems : list string) :
  Js.includes jsonColumns key = false ->
  Js.includes arrayColumns key = true ->
  Forall no_backslash elems ->
  exists literal,
    prepareValue jsonColumns arrayColumns key (Js.Arr (map Js.Str elems))
    = (Js.Str literal, [])
    /\ PgArray.parse literal = Some (map Some elems).
Proof.
  intros Hjson Harr Hall. unfold prepareValue. cbn [Js.is_nullish].
  rewrite Hjson, Harr. eexists. split; [reflexivity|].
  now apply array_round_trip_without_backslash.
Qed.

Lemma array_column_round_trip_witness :
  exists literal,
    prepareValue [] ["tags"] "tags"
      (Js.Arr (map Js.Str ["a,b"; "say " ++ Js.dq ++ "hi" ++ Js.dq; "{x}"]))
    = (Js.Str literal, [])
    /\ PgArray.parse literal
       = Some (map Some ["a,b"; "say " ++ Js.dq ++ "hi" ++ Js.dq; "{x}"]).
Proof.
  apply (array_column_round_trip [] ["tags"] "tags"
           ["a,b"; "say " ++ Js.dq ++ "hi" ++ Js.dq; "{x}"]);
    [reflexivity | reflexivity |].
  repeat constructor; unfold no_backslash; cbn; intuition discriminate.
Defined.

(* ================================================================== *)
(** * The sequence a default names *)
(* ================================================================== *)

Lemma first_match_skip (p l : list ascii) :
  ~ In SeqName.quote p -> SeqName.first_match (p ++ l)%list = SeqName.first_match l.
Proof.
  induction p as [|c p IH]; intros Hp; [reflexivity|].
  cbn [app SeqName.first_match].
  destruct (Ascii.eqb_spec c SeqName.quote) as [->|_].
  - exfalso. apply Hp. now left.
  - apply IH. intros H. apply Hp. now right.
Qed.

Lemma run_body (body rest : list ascii) :
  ~ In SeqName.quote body ->
  SeqName.run (body ++ SeqName.quote :: rest)%list = Some (body, rest).
Proof.
  induction body as [|c b IH]; intros Hb.
  - cbn [app SeqName.run]. now rewrite Ascii.eqb_refl.
  - cbn [app SeqName.run].
    destruct (Ascii.eqb_spec c SeqName.quote) as [->|_].
    + exfalso. apply Hb. now left.
    + rewrite IH; [reflexivity|]. intros H. apply Hb. now right.
Qed.

Lemma last_component_plain (n acc : list ascii) :
  ~ In "."%char n -> SeqName.last_component n acc = (rev acc ++ n)%list.
Proof.
  revert acc. induction n as [|c n IH]; intros acc Hn.
  - cbn. now rewrite app_nil_r.
  - cbn [SeqName.last_component].
    destruct (Ascii.eqb_spec c "."%char) as [->|_].
    + exfalso. apply Hn. now left.
    + rewrite IH by (intros H; apply Hn; now right).
      cbn [rev]. now rewrite <- app_assoc.
Qed.

Lemma last_component_dot (a n acc : list ascii) :
  SeqName.last_component (a ++ "."%char :: n)%list acc
  = SeqName.last_component n [].
Proof.
  revert acc. induction a as [|c a IH]; intros acc.
  - reflexivity.
  - cbn [app SeqName.last_component]. destruct (Ascii.eqb c "."%char); apply IH.
Qed.

Lemma list_ascii_app (a b : string) :
  list_ascii_of_string (a ++ b)
  = (list_ascii_of_string a ++ list_ascii_of_string b)%list.
Proof. exact (chars_app a b). Qed.

Lemma In_app_not {A} (x : A) (a b : list A) :
  ~ In x a -> ~ In x b -> ~ In x (a ++ b)%list.
Proof. intros Ha Hb H. apply in_app_or in H as [H|H]; auto. Qed.

(** X3.  The sequence of a serial column is read off its default: of
    the first text between single quotes the part after the last dot,
    so the name itself whether or not a schema qualifies it. *)
Theorem sequence_name_of_default (before schema seq after : string) :
  lacks "'" before -> lacks "'" schema -> lacks "'" seq -> lacks "." seq ->
  seq <> "" ->
  SeqName.extract (before ++ "'" ++ schema ++ "." ++ seq ++ "'" ++ after)
  = Some seq
  /\ SeqName.extract (before ++ "'" ++ seq ++ "'" ++ after) = Some seq.
Proof.
  unfold lacks. intros Hb Hs Hq Hdot Hne.
  assert (Hseq : exists c r, list_ascii_of_string seq = c :: r).
  { destruct seq as [|c r]; [congruence|]. now exists c, (list_ascii_of_string r). }
  destruct Hseq as [c [r Hcr]].
  unfold SeqName.extract. split.
  - rewrite !list_ascii_app. cbn [list_ascii_of_string app].
    rewrite (first_match_skip _ _ Hb). cbn [SeqName.first_match].
    rewrite Ascii.eqb_refl.
    replace (list_ascii_of_string schema
             ++ "."%char :: list_ascii_of_string seq
             ++ "'"%char :: list_ascii_of_string after)%list
      with ((list_ascii_of_string schema ++ "."%char :: list_ascii_of_string seq)
            ++ SeqName.quote :: list_ascii_of_string after)%list
      by (now rewrite <- app_assoc).
    rewrite run_body.
    + destruct (list_ascii_of_string schema) as [|s0 sch] eqn:Hsch;
        cbn [app]; rewrite <- ?Hsch.
      * change ("."%char :: list_ascii_of_string seq)
          with ([] ++ "."%char :: list_ascii_of_string seq)%list.
        rewrite last_component_dot, (last_component_plain _ _ Hdot).
        cbn [rev app]. now rewrite string_of_list_ascii_of_string.
      * change (s0 :: (sch ++ "."%char :: list_ascii_of_string seq)%list)
          with ((s0 :: sch) ++ "."%char :: list_ascii_of_string seq)%list.
        rewrite last_component_dot, (last_component_plain _ _ Hdot).
        cbn [rev app]. now rewrite string_of_list_ascii_of_string.
    + apply In_app_not; [exact Hs|]. intros [H|H]; [discriminate H|now apply Hq].
  - rewrite !list_ascii_app. cbn [list_ascii_of_string app].
    rewrite (first_match_skip _ _ Hb). cbn [SeqName.first_match].
    rewrite Ascii.eqb_refl.
    change ("'"%char :: list_ascii_of_string after)
      with (SeqName.quote :: list_ascii_of_string after).
    rewrite (run_body _ _ Hq), Hcr, <- Hcr.
    rewrite (last_component_plain _ _ Hdot).
    cbn [rev app]. now rewrite string_of_list_ascii_of_string.
Qed.

Lemma sequence_name_of_default_witness :
  SeqName.extract ("nextval(" ++ "'" ++ "public" ++ "." ++ "users_id_seq"
                   ++ "'" ++ "::regclass)")
  = Some "users_id_seq"
  /\ SeqName.extract ("nextval(" ++ "'" ++ "users_id_seq" ++ "'" ++ "::regclass)")
     = Some "users_id_seq".
Proof.
  apply (sequence_name_of_default "nextval(" "public" "users_id_seq"
           "::regclass)");
    unfold lacks; cbn; intuition discriminate.
Defined.

(* ================================================================== *)
(** * Further properties of the engine *)
(* ================================================================== *)

(** ** Statements that leave the target as it is *)

Lemma update_same {V : Type} (k : string) (v : V) (l : list (string * V)) :
  lookup k l = Some v -> update k (fun _ => v) l = l.
Proof.
  induction l as [|[k' v'] r IH]; cbn [lookup update]; [reflexivity|].
  destruct (String.eqb k k') eqn:E.
  - intros H. now injection H as ->.
  - intros H. now rewrite IH.
Qed.

Lemma on_table_keep {A} (t : string) (db : TargetDb) (f : TargetTable -> Reply A) :
  snd (Target.on_table t db (fun tb => (f tb, tb))) = db.
Proof.
  unfold Target.on_table. destruct (lookup t (tgt_tables db)) as [tb|] eqn:E;
    [|reflexivity].
  cbn [snd]. unfold Target.with_tables. rewrite (update_same _ _ _ E).
  now destruct db.
Qed.

Lemma same_session_refl (w : World) : same_session w w.
Proof. now split. Qed.

Lemma same_session_trans (a b c : World) :
  same_session a b -> same_session b c -> same_session a c.
Proof. intros [H1 H2] [H3 H4]. split; congruence. Qed.

Section Session.

Variable env : Env.

Lemma session_ask_source {A} (s : Stmt) (answer : SourceDb -> Reply A) :
  keeps same_session (ask_source env s answer).
Proof.
  intros w. unfold ask_source. destruct (faults env s (clock w)); now split.
Qed.

Lemma session_ask_store {A} (s : Stmt) (answer : JobStore -> Reply A * JobStore) :
  keeps same_session (ask_store env s answer).
Proof.
  intros w. unfold ask_store. destruct (faults env s (clock w)); now split.
Qed.

(** A statement whose answer leaves the database as it is. *)
Lemma session_ask_target {A} (s : Stmt) (answer : TargetDb -> Reply A * TargetDb) :
  (forall db, snd (answer db) = db) ->
  keeps same_session (ask_target env s answer).
Proof.
  intros H w. unfold ask_target. destruct (faults env s (clock w));
    split; cbn; auto.
Qed.

Lemma session_logger (l : Level) (message : string) :
  keeps same_session (logger l message).
Proof. intros w. now split. Qed.

Lemma session_logMigration (id c : string) (l : Level) (msg : string) :
  keeps same_session (logMigration env id c l msg).
Proof.
  unfold logMigration.
  apply (keeps_try_catch _ same_session_trans);
    [apply session_ask_store | intros e; apply session_logger].
Qed.

Lemma session_count (t : string) :
  keeps same_session (ask_target env (CountRows t) (Target.count t)).
Proof. apply session_ask_target. intros db. apply on_table_keep. Qed.

Lemma session_serial_columns (t : string) :
  keeps same_session (ask_target env (SerialColumns t) (Target.serial_columns t)).
Proof.
  apply session_ask_target. intros db. unfold Target.serial_columns.
  now destruct (lookup t (tgt_tables db)).
Qed.

Lemma session_max_of (t c : string) :
  keeps same_session (ask_target env (MaxOf t c) (Target.max_of t c)).
Proof. apply session_ask_target. intros db. apply on_table_keep. Qed.

Lemma session_setval (seq : string) (next : Z) :
  keeps same_session (ask_target env (Setval seq next) (Target.setval seq next)).
Proof. now apply session_ask_target. Qed.

Lemma session_add_unique (t n cols : string) :
  keeps same_session
    (ask_target env (AddUnique t n cols) (Target.add_unique t n cols)).
Proof. apply session_ask_target. intros db. apply on_table_keep. Qed.

Lemma session_resetSequences (t : string) :
  keeps same_session (resetSequences env t).
Proof.
  unfold resetSequences.
  keeps_steps same_session_refl same_session_trans
    ltac:(first [ apply session_serial_columns | apply session_max_of
                | apply session_setval | apply session_logger ]).
Qed.

Lemma session_copyConstraints (t : string) :
  keeps same_session (copyConstraints env t).
Proof.
  unfold copyConstraints.
  keeps_steps same_session_refl same_session_trans
    ltac:(first [ apply session_ask_source | apply session_add_unique
                | apply session_logger ]).
Qed.

Lemma sure_copyConstraints (t : string) : sure (copyConstraints env t).
Proof.
  unfold copyConstraints. apply sure_try_catch.
  - total_steps ltac:(solve [eauto with engine]).
  - intros e. apply sure_logger.
Qed.

End Session.

(** X4.  [logMigration] never throws.  The line reaches the job store,
    or, when the store refuses it, is dropped with an error in the
    application log; the target, its role and the job's own records
    are untouched either way. *)
Theorem logMigration_never_throws (env : Env) (id c : string) (l : Level)
    (msg : string) (w : World) :
  exists w',
    logMigration env id c l msg w = (Ok tt, w')
    /\ same_session w w' /\ same_records w w'
    /\ match faults env (InsertLog (logEntry id c l msg)) (clock w) with
       | None =>
           migration_logs (store w')
           = (migration_logs (store w) ++ [logEntry id c l msg])%list
           /\ applog w' = applog w
       | Some _ =>
           migration_logs (store w') = migration_logs (store w)
           /\ applog w' = (Error, "Failed to log migration:") :: applog w
       end.
Proof.
  unfold logMigration, logEntry. rewrite run_try_catch. unfold ask_store.
  destruct (faults env _ (clock w)) as [e|];
    eexists; (split; [reflexivity|]); repeat split.
Qed.

Lemma tableHasData_run (env : Env) (t : string) (w : World) :
  exists w',
    tableHasData env t w
    = (Ok match faults env (CountRows t) (clock w) with
          | Some _ => false
          | None => has_rows t (target w)
          end, w')
    /\ same_session w w'.
Proof.
  pose proof (session_count env t w) as Hs.
  unfold tableHasData. rewrite run_try_catch, run_bind.
  unfold ask_target in *. unfold has_rows.
  destruct (faults env (CountRows t) (clock w)) as [e|].
  - eexists. split; [reflexivity|]. now split.
  - unfold Target.count, Target.on_table in *.
    destruct (lookup t (tgt_tables (target w))) as [tb|];
      cbn [fst snd settle] in *; eexists; (split; [reflexivity|exact Hs]).
Qed.

Lemma resetSequences_run (env : Env) (t : string) (w : World) :
  exists w', resetSequences env t w = (Ok tt, w') /\ same_session w w'.
Proof.
  destruct (sure_resetSequences env t w) as [[] H].
  pose proof (session_resetSequences env t w) as Hs.
  destruct (resetSequences env t w) as [r w']. cbn [fst snd] in *. subst r.
  now exists w'.
Qed.

Lemma copyConstraints_run (env : Env) (t : string) (w : World) :
  exists w', copyConstraints env t w = (Ok tt, w') /\ same_session w w'.
Proof.
  destruct (sure_copyConstraints env t w) as [[] H].
  pose proof (session_copyConstraints env t w) as Hs.
  destruct (copyConstraints env t w) as [r w']. cbn [fst snd] in *. subst r.
  now exists w'.
Qed.

(** X5.  [tableHasData] never throws and changes nothing: it answers
    whether the target has the table with a row in it, and answers no
    when the count is refused. *)
Theorem tableHasData_never_throws (env : Env) (t : string) (w : World) :
  exists w',
    tableHasData env t w
    = (Ok match faults env (CountRows t) (clock w) with
          | Some _ => false
          | None => has_rows t (target w)
          end, w')
    /\ same_session w w'.
Proof. apply tableHasData_run. Qed.

(** X6.  [resetSequences] and [copyConstraints] never throw, whatever
    the databases refuse, and leave the rows of every table of the
    target and the role of its session as they were. *)
Theorem post_processing_never_throws (env : Env) (t : string) (w : World) :
  (exists w',
     resetSequences env t w = (Ok tt, w')
     /\ role w' = role w
     /\ forall t', targetRows t' (target w') = targetRows t' (target w))
  /\ (exists w',
        copyConstraints env t w = (Ok tt, w')
        /\ role w' = role w
        /\ forall t', targetRows t' (target w') = targetRows t' (target w)).
Proof.
  split.
  - destruct (resetSequences_run env t w) as [w' [E [Ht Hr]]].
    exists w'. repeat split; [exact E | exact Hr | intros t'; now rewrite Ht].
  - destruct (copyConstraints_run env t w) as [w' [E [Ht Hr]]].
    exists w'. repeat split; [exact E | exact Hr | intros t'; now rewrite Ht].
Qed.

(** ** The block that truncates *)

(** X7.  The block that truncates a target table gives the session its
    default role back on every way out, a refused TRUNCATE included,
    as long as the statement that sets the default role is answered;
    and a refused TRUNCATE is thrown on to the caller. *)
Theorem truncate_block_restores_role (env : Env) (id t : string) (w : World) :
  (forall n, faults env (SetRole RoleDefault) n = None) ->
  role w = RoleDefault ->
  role (snd (truncateTarget env id t w)) = RoleDefault
  /\ (forall e,
        faults env (SetRole RoleReplica) (clock w) = None ->
        faults env (Truncate t) (S (clock w)) = Some e ->
        fst (truncateTarget env id t w) = Throw e).
Proof.
  intros Hdefault Hw. unfold truncateTarget. rewrite run_bind.
  unfold setRole at 1 3.
  destruct (faults env (SetRole RoleReplica) (clock w)) as [e0|].
  - split; [exact Hw | discriminate].
  - unfold try_finally.
    match goal with
    | |- context [bind ?m ?f ?w1] =>
        assert (Htotal : total (bind m f))
          by total_steps ltac:(solve [eauto with engine]);
        specialize (Htotal w1)
    end.
    split.
    + match goal with
      | |- context [bind ?m ?f ?w1] => destruct (bind m f w1) as [[u|e|] w2]
      end; cbn [fst] in Htotal; [| |contradiction];
        unfold setRole; rewrite Hdefault; reflexivity.
    + intros e _ He. rewrite run_bind. unfold ask_target at 1.
      cbn [clock sent set_role set_trace set_clock]. rewrite He.
      unfold setRole. cbn [clock sent set_role set_trace set_clock].
      rewrite Hdefault. reflexivity.
Qed.

Lemma truncate_block_restores_role_witness :
  role (snd (truncateTarget locked_env "job-1" "users" (start ledger_target)))
  = RoleDefault
  /\ (forall e,
        faults locked_env (SetRole RoleReplica) (clock (start ledger_target)) = None ->
        faults locked_env (Truncate "users") (S (clock (start ledger_target)))
        = Some e ->
        fst (truncateTarget locked_env "job-1" "users" (start ledger_target))
        = Throw e).
Proof.
  apply (truncate_block_restores_role locked_env "job-1" "users"
           (start ledger_target)); [intros n; reflexivity | reflexivity].
Defined.

(** ** What migrateData counts *)

Lemma returns_bind_with {A B} (Q : A -> Prop) (P : B -> Prop)
    (m : M A) (f : A -> M B) :
  returns Q m -> (forall a, Q a -> returns P (f a)) -> returns P (bind m f).
Proof.
  intros Hm Hf w b. rewrite run_bind. specialize (Hm w).
  destruct (m w) as [[a|e|] w']; cbn [fst] in *; try discriminate.
  apply Hf. now apply Hm.
Qed.

Lemma returns_for_each_count {A} (xs : list A) (body : A -> nat -> M nat)
    (acc : nat) :
  (forall x s, returns (fun s' => s' <= S s) (body x s)) ->
  returns (fun s' => s' <= acc + List.length xs) (for_each xs body acc).
Proof.
  intros Hb. revert acc. induction xs as [|x r IH]; intros acc;
    cbn [for_each List.length].
  - apply returns_ret. lia.
  - apply (returns_bind_with (fun s' => s' <= S acc)); [apply Hb|].
    intros s Hs w n Hn. specialize (IH s w n Hn). cbv beta in *. lia.
Qed.

Lemma migrateData_loop_bound (env : Env) (fuel : nat) (t : string)
    (json arr : list string) (totalRows : nat) :
  forall offset totalMigrated,
    totalMigrated <= offset -> totalMigrated <= sourceRows env t ->
    returns (fun n => n <= sourceRows env t)
      (migrateData_loop env fuel t json arr totalRows offset totalMigrated).
Proof.
  induction fuel as [|fuel IH]; intros offset totalMigrated Hoff Hrows w n.
  - discriminate.
  - rewrite run_migrateData_loop, run_bind. unfold ask_source at 1.
    destruct (faults env (SrcSelect t batchSize offset) (clock w)) as [e|];
      [discriminate|].
    destruct (Source.select t batchSize offset (source env)) as [data|e]
      eqn:Hsel; cbn [settle]; [|discriminate].
    apply select_length in Hsel.
    destruct (Nat.eqb (List.length data) 0).
    { cbn [ret fst]. intros H. injection H as <-. exact Hrows. }
    rewrite run_bind.
    match goal with
    | |- context [prepareAll data json arr ?w0] =>
        destruct (prepareAll_run data json arr w0) as [w1 [Hrun _]]
    end.
    rewrite Hrun. cbv beta iota.
    clear Hrun.
    refine (returns_bind_with (fun tm' => tm' <= totalMigrated + List.length data)
              (fun n => n <= sourceRows env t) _ _ _ _ w1 n).
    + apply returns_try_catch.
      * do 4 (apply returns_bind; intros ?). apply returns_ret. lia.
      * intros e. do 2 (apply returns_bind; intros ?).
        apply (returns_bind_with (fun s' => s' <= totalMigrated + List.length data)).
        -- intros w2 k Hk.
           pose proof (returns_for_each_count
                         (map (fun row => fst (prepareRowForInsert row json arr)) data)
                         (fun row total =>
                            try_catch
                              (ask_target env (InsertRow t row)
                                          (Target.insert t [row]) ;;
                               ret (S total))
                              (fun rowError => logFailedRow t row ;; ret total))
                         totalMigrated) as Hcount.
           rewrite length_map in Hcount. apply (Hcount) with (w := w2); [|exact Hk].
           intros row total. apply returns_try_catch.
           ++ apply returns_bind; intros ?. apply returns_ret. lia.
           ++ intros e'. apply returns_bind; intros ?. apply returns_ret. lia.
        -- intros total Htotal. apply returns_bind; intros ?.
           apply returns_ret. exact Htotal.
    + intros tm' Htm'. unfold batchSize in *.
      destruct (Nat.ltb_spec (List.length data) 500) as [Hshort|Hfull].
      * apply returns_ret. lia.
      * apply IH; lia.
Qed.

(** X8.  Whatever the target refuses, the number [migrateData] returns
    is at most the number of rows the source holds: a row is counted
    once, when its batch or its own insert succeeded. *)
Theorem migrateData_counts_at_most_the_source (env : Env) (t : string)
    (json arr : list string) (w : World) (n : nat) :
  fst (migrateData env t json arr w) = Ok n -> n <= sourceRows env t.
Proof.
  unfold migrateData. rewrite run_bind.
  destruct (ask_source env (SrcCount t) (Source.count t) w) as [[totalRows|e|] w1];
    try discriminate.
  rewrite run_bind, run_logger. cbv beta iota. rewrite run_bind.
  pose proof (migrateData_loop_bound env (S totalRows) t json arr totalRows 0 0
                (Nat.le_refl 0) (Nat.le_0_l _)) as Hloop.
  match goal with
  | |- context [migrateData_loop env ?f t json arr ?r 0 0 ?w0] =>
      specialize (Hloop w0);
      destruct (migrateData_loop env f t json arr r 0 0 w0) as [[m|e|] w2]
  end; try discriminate.
  rewrite run_bind, run_logger. cbv beta iota. cbn [ret fst].
  intros H. injection H as <-. now apply Hloop.
Qed.

Lemma migrateData_counts_at_most_the_source_witness :
  501 <= sourceRows big_env "big".
Proof.
  apply (migrateData_counts_at_most_the_source big_env "big" [] []
           (start big_target) 501).
  vm_compute. reflexivity.
Defined.

(** ** A job that nothing refuses *)

Lemma update_update {V : Type} (k : string) (f g : V -> V)
    (l : list (string * V)) :
  update k g (update k f l) = update k (fun v => g (f v)) l.
Proof.
  induction l as [|[k' v'] r IH]; cbn [update]; [reflexivity|].
  destruct (String.eqb k k') eqn:E; cbn [update]; rewrite E;
    [reflexivity | now rewrite IH].
Qed.

Lemma update_ext {V : Type} (k : string) (f g : V -> V) (l : list (string * V)) :
  (forall v, f v = g v) -> update k f l = update k g l.
Proof.
  intros H. induction l as [|[k' v'] r IH]; cbn [update]; [reflexivity|].
  destruct (String.eqb k k'); now rewrite ?H, ?IH.
Qed.

Lemma update_const {V : Type} (k : string) (f : V -> V) (v : V)
    (l : list (string * V)) :
  lookup k l = Some v -> update k (fun _ => f v) l = update k f l.
Proof.
  induction l as [|[k' v'] r IH]; cbn [lookup update]; [reflexivity|].
  destruct (String.eqb k k').
  - intros H. now injection H as ->.
  - intros H. now rewrite IH.
Qed.

Lemma with_table_rows_twice (t : string) (a b : list Row) (db : TargetDb) :
  with_table_rows t b (with_table_rows t a db) = with_table_rows t b db.
Proof.
  unfold with_table_rows, Target.with_tables. cbn [tgt_tables tgt_sequences].
  now rewrite update_update.
Qed.

Lemma with_table_rows_same (t : string) (tb : TargetTable) (db : TargetDb) :
  lookup t (tgt_tables db) = Some tb ->
  with_table_rows t (tgt_rows tb) db = db.
Proof.
  intros H. unfold with_table_rows, Target.with_tables.
  rewrite <- (update_const t (Target.with_rows (tgt_rows tb)) tb _ H).
  replace (Target.with_rows (tgt_rows tb) tb) with tb by now destruct tb.
  rewrite (update_same _ _ _ H). now destruct db.
Qed.

Lemma lookup_with_table_rows (t : string) (rows : list Row) (tb : TargetTable)
    (db : TargetDb) :
  lookup t (tgt_tables db) = Some tb ->
  lookup t (tgt_tables (with_table_rows t rows db))
  = Some (Target.with_rows rows tb).
Proof. intros H. cbn [with_table_rows Target.with_tables tgt_tables]. now apply lookup_update. Qed.

Lemma insert_answer (t : string) (rows : list Row) (tb : TargetTable)
    (db : TargetDb) :
  lookup t (tgt_tables db) = Some tb ->
  Target.insert t rows db
  = (Answer tt, with_table_rows t (tgt_rows tb ++ rows) db).
Proof.
  intros H. unfold Target.insert, Target.on_table, with_table_rows. rewrite H.
  now rewrite (update_const t (Target.with_rows (tgt_rows tb ++ rows)) tb _ H).
Qed.

Lemma truncate_answer (t : string) (tb : TargetTable) (db : TargetDb) :
  lookup t (tgt_tables db) = Some tb ->
  Target.truncate t db = (Answer tt, with_table_rows t [] db).
Proof.
  intros H. unfold Target.truncate, Target.on_table, with_table_rows. rewrite H.
  now rewrite (update_const t (Target.with_rows []) tb _ H).
Qed.

Lemma select_answer (env : Env) (t : string) (limit offset : nat)
    (tb : SourceTable) :
  lookup t (source env) = Some tb ->
  Source.select t limit offset (source env)
  = Answer (firstn limit (skipn offset (src_rows tb))).
Proof. intros H. unfold Source.select. now rewrite H. Qed.

Lemma firstn_nil_inv {A} (n : nat) (l : list A) :
  0 < n -> firstn n l = [] -> l = [].
Proof. destruct n; [lia|]. now destruct l. Qed.

Lemma session_log_lines (lines : list LogLine) :
  keeps same_session (log_lines lines).
Proof.
  unfold log_lines.
  apply (keeps_for_each _ same_session_refl same_session_trans).
  intros l u. apply session_logger.
Qed.

Lemma prepareAll_session (data : list Row) (json arr : list string) (w : World) :
  exists w1,
    prepareAll data json arr w = (Ok (preparedRows json arr data), w1)
    /\ same_session w w1.
Proof.
  destruct (prepareAll_run data json arr w) as [w1 [E _]].
  exists w1. split; [exact E|].
  pose proof (session_log_lines
                (concat (map snd (map (fun row => prepareRowForInsert row json arr)
                                      data))) w) as Hs.
  unfold prepareAll in E. cbv zeta in E. rewrite run_bind in E.
  destruct (log_lines _ w) as [[u|e|] w2]; try discriminate.
  cbn [ret] in E. injection E as _ <-. exact Hs.
Qed.

Section Faultless.

Variable env : Env.
Hypothesis quiet_env : faultless env.

Lemma ask_source_faultless {A} (s : Stmt) (answer : SourceDb -> Reply A)
    (w : World) :
  exists w',
    ask_source env s answer w = (settle (answer (source env)), w')
    /\ same_session w w'.
Proof.
  unfold ask_source. rewrite quiet_env. eexists. split; [reflexivity|].
  now split.
Qed.

Lemma ask_target_faultless {A} (s : Stmt)
    (answer : TargetDb -> Reply A * TargetDb) (w : World) :
  exists w',
    ask_target env s answer w = (settle (fst (answer (target w))), w')
    /\ target w' = snd (answer (target w)) /\ role w' = role w.
Proof.
  unfold ask_target. rewrite quiet_env. eexists. split; [reflexivity|].
  now split.
Qed.

Lemma setRole_faultless (r : Role) (w : World) :
  exists w',
    setRole env r w = (Ok tt, w') /\ target w' = target w /\ role w' = r.
Proof.
  unfold setRole. rewrite quiet_env. eexists. split; [reflexivity|]. now split.
Qed.

End Faultless.

Lemma run_loop_block (env : Env) (fuel : nat) (t : string)
    (json arr : list string) (totalRows offset totalMigrated : nat) (w : World) :
  migrateData_loop env (S fuel) t json arr totalRows offset totalMigrated w
  = bind (ask_source env (SrcSelect t batchSize offset)
                     (Source.select t batchSize offset))
      (fun data =>
         if Nat.eqb (List.length data) 0 then ret totalMigrated
         else
           bind (prepareAll data json arr) (fun preparedData =>
           bind (batchBlock env t preparedData (List.length data) totalRows
                            totalMigrated)
             (fun totalMigrated' =>
                if Nat.ltb (List.length data) batchSize then ret totalMigrated'
                else migrateData_loop env fuel t json arr totalRows
                                      (offset + batchSize) totalMigrated')))
      w.
Proof. reflexivity. Qed.

Lemma ask_source_at (env : Env) {A} (s : Stmt) (answer : SourceDb -> Reply A)
    (a : A) (w : World) :
  faults env s (clock w) = None -> answer (source env) = Answer a ->
  exists w', ask_source env s answer w = (Ok a, w') /\ same_session w w'.
Proof.
  intros Hf Ha. unfold ask_source. rewrite Hf, Ha. eexists.
  split; [reflexivity|]. now split.
Qed.

Section Copy.

Variable env : Env.
Variable t : string.
Variables json arr : list string.
Variable srcT : SourceTable.
Hypothesis source_table : lookup t (source env) = Some srcT.

(** The source answers its queries on the table. *)
Hypothesis count_answered : forall n, faults env (SrcCount t) n = None.
Hypothesis select_answered :
  forall offset n, faults env (SrcSelect t batchSize offset) n = None.

(** The block of one batch gets every row of the batch into the
    table, one way or the other. *)
Hypothesis block_copies :
  forall preparedData totalRows totalMigrated w tb,
    lookup t (tgt_tables (target w)) = Some tb ->
    exists w',
      batchBlock env t preparedData (List.length preparedData) totalRows
                 totalMigrated w
      = (Ok (totalMigrated + List.length preparedData), w')
      /\ target w' = with_table_rows t (tgt_rows tb ++ preparedData) (target w)
      /\ role w' = RoleDefault.

(** The loop appends what is left of the source from [offset] on. *)
Lemma migrateData_loop_copies (totalRows : nat) :
  forall fuel offset totalMigrated w tb,
    lookup t (tgt_tables (target w)) = Some tb ->
    List.length (skipn offset (src_rows srcT)) < batchSize * fuel ->
    exists w',
      migrateData_loop env fuel t json arr totalRows offset totalMigrated w
      = (Ok (totalMigrated + List.length (skipn offset (src_rows srcT))), w')
      /\ target w'
         = with_table_rows t
             (tgt_rows tb ++ preparedRows json arr (skipn offset (src_rows srcT)))
             (target w)
      /\ (role w = RoleDefault -> role w' = RoleDefault).
Proof.
  induction fuel as [|fuel IH]; intros offset totalMigrated w tb Htb Hfuel;
    [lia|].
  rewrite run_loop_block, run_bind.
  destruct (ask_source_at env (SrcSelect t batchSize offset)
              (Source.select t batchSize offset) _ w
              (select_answered offset (clock w))
              (select_answer env t batchSize offset srcT source_table))
    as [w0 [E0 [Ht0 Hr0]]].
  rewrite E0.
  set (rest := skipn offset (src_rows srcT)) in *.
  pose proof (firstn_skipn batchSize rest) as Hsplit.
  pose proof (length_firstn batchSize rest) as Hlen.
  destruct (Nat.eqb_spec (List.length (firstn batchSize rest)) 0) as [Hzero|Hsome].
  - assert (Hrest : rest = []).
    { apply (firstn_nil_inv batchSize); [unfold batchSize; lia|].
      now apply length_zero_iff_nil. }
    rewrite Hrest. cbn [ret List.length preparedRows map].
    exists w0. rewrite Nat.add_0_r, app_nil_r, Ht0.
    split; [reflexivity|]. split; [|congruence].
    symmetry. now apply with_table_rows_same.
  - rewrite run_bind.
    destruct (prepareAll_session (firstn batchSize rest) json arr w0)
      as [w1 [E1 [Ht1 Hr1]]].
    rewrite E1. cbv beta iota. rewrite run_bind.
    assert (Htb1 : lookup t (tgt_tables (target w1)) = Some tb)
      by (rewrite Ht1, Ht0; exact Htb).
    destruct (block_copies (preparedRows json arr (firstn batchSize rest))
                totalRows totalMigrated w1 tb Htb1) as [w5 [E5 [Ht5 Hr5]]].
    unfold preparedRows at 2 3 in E5. rewrite length_map in E5.
    fold (preparedRows json arr (firstn batchSize rest)) in E5.
    rewrite E5. cbv beta iota.
    rewrite Ht1, Ht0 in Ht5.
    destruct (Nat.ltb_spec (List.length (firstn batchSize rest)) batchSize)
      as [Hshort|Hfull].
    + assert (Hall : firstn batchSize rest = rest).
      { apply firstn_all2. rewrite Hlen in Hshort. lia. }
      rewrite Hall in *. rewrite run_ret. exists w5.
      split; [reflexivity|]. split; [exact Ht5 | intros _; exact Hr5].
    + assert (Htb5 : lookup t (tgt_tables (target w5))
                     = Some (Target.with_rows
                               (tgt_rows tb
                                ++ preparedRows json arr (firstn batchSize rest))
                               tb))
        by (rewrite Ht5; now apply lookup_with_table_rows).
      assert (Hnext : skipn (offset + batchSize) (src_rows srcT)
                      = skipn batchSize rest)
        by (subst rest; rewrite skipn_skipn; f_equal; lia).
      assert (Hcount : List.length rest
                       = List.length (firstn batchSize rest)
                         + List.length (skipn batchSize rest))
        by (rewrite <- length_app, Hsplit; reflexivity).
      destruct (IH (offset + batchSize)
                   (totalMigrated + List.length (firstn batchSize rest))
                   w5 _ Htb5) as [w' [E' [Ht' Hr']]].
      { rewrite Hnext. rewrite Hlen in Hfull. unfold batchSize in *. lia. }
      exists w'. rewrite E', Hnext. split; [now rewrite Hcount, Nat.add_assoc|].
      split; [|intros _; now apply Hr'].
      rewrite Ht', Hnext, Ht5, with_table_rows_twice.
      cbn [Target.with_rows tgt_rows]. f_equal.
      rewrite <- app_assoc. f_equal.
      unfold preparedRows. rewrite <- map_app. now rewrite Hsplit.
Qed.

Lemma migrateData_copies_with (tb : TargetTable) (w : World) :
  lookup t (tgt_tables (target w)) = Some tb ->
  exists w',
    migrateData env t json arr w = (Ok (List.length (src_rows srcT)), w')
    /\ target w'
       = with_table_rows t (tgt_rows tb ++ preparedRows json arr (src_rows srcT))
                         (target w)
    /\ (role w = RoleDefault -> role w' = RoleDefault).
Proof.
  intros Htb. unfold migrateData. rewrite run_bind.
  destruct (ask_source_at env (SrcCount t) (Source.count t)
              (List.length (src_rows srcT)) w (count_answered (clock w)))
    as [w0 [E0 [Ht0 Hr0]]].
  { unfold Source.count. now rewrite source_table. }
  rewrite E0. rewrite run_bind, run_logger. cbv beta iota. rewrite run_bind.
  set (w1 := set_applog _ w0).
  assert (Htb1 : lookup t (tgt_tables (target w1)) = Some tb)
    by (subst w1; cbn [target set_applog]; now rewrite Ht0).
  destruct (migrateData_loop_copies
              (List.length (src_rows srcT)) (S (List.length (src_rows srcT)))
              0 0 w1 tb Htb1) as [w2 [E2 [Ht2 Hr2]]].
  { cbn [skipn]. unfold batchSize. lia. }
  cbn [skipn Nat.add] in E2, Ht2. rewrite E2. cbv beta iota.
  rewrite run_bind, run_logger. cbv beta iota. rewrite run_ret.
  eexists. split; [reflexivity|]. cbn [target role set_applog].
  split.
  - rewrite Ht2. subst w1. cbn [target set_applog]. now rewrite Ht0.
  - intros Hw. apply Hr2. subst w1. cbn [role set_applog]. now rewrite Hr0.
Qed.

End Copy.

(** The batch insert goes through. *)
Lemma batch_accepted (env : Env) (t : string) (preparedData : list Row)
    (totalRows totalMigrated : nat) (w : World) (tb : TargetTable) :
  faultless env ->
  lookup t (tgt_tables (target w)) = Some tb ->
  exists w',
    batchBlock env t preparedData (List.length preparedData) totalRows
               totalMigrated w
    = (Ok (totalMigrated + List.length preparedData), w')
    /\ target w' = with_table_rows t (tgt_rows tb ++ preparedData) (target w)
    /\ role w' = RoleDefault.
Proof.
  intros Hq Htb. unfold batchBlock. rewrite run_try_catch, run_bind.
  destruct (setRole_faultless env Hq RoleReplica w) as [w2 [E2 [Ht2 Hr2]]].
  rewrite E2. cbv beta iota. rewrite run_bind.
  destruct (ask_target_faultless env Hq (InsertBatch t preparedData)
              (Target.insert t preparedData) w2) as [w3 [E3 [Ht3 Hr3]]].
  assert (Htb2 : lookup t (tgt_tables (target w2)) = Some tb)
    by (rewrite Ht2; exact Htb).
  rewrite (insert_answer _ _ _ _ Htb2) in E3, Ht3. cbn [fst snd settle] in E3, Ht3.
  rewrite E3. cbv beta iota. rewrite run_bind.
  destruct (setRole_faultless env Hq RoleDefault w3) as [w4 [E4 [Ht4 Hr4]]].
  rewrite E4. cbv beta iota. rewrite run_bind, run_logger. cbv beta iota.
  rewrite run_ret. eexists. split; [reflexivity|].
  cbn [target role set_applog]. split; [|exact Hr4].
  now rewrite Ht4, Ht3, Ht2.
Qed.

Lemma migrateData_copies (env : Env) (t : string) (json arr : list string)
    (srcT : SourceTable) (tb : TargetTable) (w : World) :
  faultless env ->
  lookup t (source env) = Some srcT ->
  lookup t (tgt_tables (target w)) = Some tb ->
  exists w',
    migrateData env t json arr w = (Ok (List.length (src_rows srcT)), w')
    /\ target w'
       = with_table_rows t (tgt_rows tb ++ preparedRows json arr (src_rows srcT))
                         (target w)
    /\ (role w = RoleDefault -> role w' = RoleDefault).
Proof.
  intros Hq Hsrc Htb.
  apply (migrateData_copies_with env t json arr srcT Hsrc); try exact Htb.
  - intros n. apply Hq.
  - intros offset n. apply Hq.
  - intros pd totalRows tm w0 tb0 Htb0. now apply batch_accepted.
Qed.

(** X9.  When nothing is refused, [migrateData] returns the number of
    rows of the source table and leaves the target table with the
    rows it had followed by the prepared rows of the source, in the
    order of the source; a session in its default role ends in it. *)
Theorem migrateData_appends_every_row (env : Env) (t : string)
    (json arr : list string) (srcT : SourceTable) (tb : TargetTable)
    (w : World) :
  faultless env ->
  lookup t (source env) = Some srcT ->
  lookup t (tgt_tables (target w)) = Some tb ->
  exists w',
    migrateData env t json arr w = (Ok (List.length (src_rows srcT)), w')
    /\ target w'
       = with_table_rows t (tgt_rows tb ++ preparedRows json arr (src_rows srcT))
                         (target w)
    /\ (role w = RoleDefault -> role w' = RoleDefault).
Proof. apply migrateData_copies. Qed.

Lemma migrateData_appends_every_row_witness :
  exists w',
    migrateData isolation_env "good" [] [] (start stale_target)
    = (Ok (List.length (src_rows users_table)), w')
    /\ target w'
       = with_table_rows "good"
           (tgt_rows stale_table ++ preparedRows [] [] (src_rows users_table))
           (target (start stale_target))
    /\ (role (start stale_target) = RoleDefault -> role w' = RoleDefault).
Proof.
  apply (migrateData_appends_every_row isolation_env "good" [] [] users_table
           stale_table (start stale_target));
    [intros s n; reflexivity | reflexivity | reflexivity].
Defined.

Lemma has_rows_false (t : string) (tb : TargetTable) (db : TargetDb) :
  lookup t (tgt_tables db) = Some tb -> has_rows t db = false ->
  tgt_rows tb = [].
Proof.
  unfold has_rows. intros ->. destruct (tgt_rows tb); [reflexivity|discriminate].
Qed.

Lemma overwriteRule_replaces (env : Env) (id t : string)
    (json arr : list string) (srcT : SourceTable) (tb : TargetTable)
    (w : World) :
  faultless env ->
  lookup t (source env) = Some srcT ->
  lookup t (tgt_tables (target w)) = Some tb ->
  role w = RoleDefault ->
  exists w',
    overwriteRule env id t json arr w = (Ok (List.length (src_rows srcT)), w')
    /\ target w'
       = with_table_rows t (preparedRows json arr (src_rows srcT)) (target w)
    /\ role w' = RoleDefault.
Proof.
  intros Hq Hsrc Htb Hw. unfold overwriteRule. rewrite run_bind.
  destruct (ask_target_faultless env Hq (HasTable t) (Target.has_table t) w)
    as [w0 [E0 [Ht0 Hr0]]].
  rewrite E0. unfold Target.has_table in *. cbn [fst snd settle] in *.
  unfold has_key. rewrite Htb. cbn [negb]. cbv beta iota.
  rewrite run_bind, run_ret. cbv beta iota. rewrite run_bind.
  destruct (tableHasData_run env t w0) as [w1 [E1 [Ht1 Hr1]]].
  rewrite E1, Hq. cbv beta iota. rewrite run_bind.
  assert (Htb1 : lookup t (tgt_tables (target w1)) = Some tb)
    by (rewrite Ht1, Ht0; exact Htb).
  assert (Hrole1 : role w1 = RoleDefault) by congruence.
  assert (Hemptied :
            exists w2 tb2,
              (if has_rows t (target w0)
               then truncateTarget env id t
               else logMigration env id t Info "Table is empty, skipping truncate")
                w1 = (Ok tt, w2)
              /\ lookup t (tgt_tables (target w2)) = Some tb2
              /\ tgt_rows tb2 = []
              /\ target w2 = with_table_rows t (tgt_rows tb2) (target w)
              /\ role w2 = RoleDefault).
  { destruct (has_rows t (target w0)) eqn:Hrows.
    - unfold truncateTarget. rewrite run_bind.
      destruct (setRole_faultless env Hq RoleReplica w1) as [w2 [E2 [Ht2 Hr2]]].
      rewrite E2. cbv beta iota. unfold try_finally. rewrite run_bind.
      destruct (ask_target_faultless env Hq (Truncate t) (Target.truncate t) w2)
        as [w3 [E3 [Ht3 Hr3]]].
      assert (Htb2 : lookup t (tgt_tables (target w2)) = Some tb)
        by (rewrite Ht2; exact Htb1).
      rewrite (truncate_answer _ _ _ Htb2) in E3, Ht3.
      cbn [fst snd settle] in E3, Ht3. rewrite E3. cbv beta iota.
      rewrite run_bind.
      destruct (logMigration_run env id t Info "Table truncated" w3)
        as [w4 [E4 [Ht4 [Hr4 _]]]].
      rewrite E4. cbv beta iota. rewrite run_bind.
      destruct (resetSequences_run env t w4) as [w5 [E5 [Ht5 Hr5]]].
      rewrite E5. cbv beta iota.
      destruct (logMigration_run env id t Info "Sequences reset" w5)
        as [w6 [E6 [Ht6 [Hr6 _]]]].
      rewrite E6.
      destruct (setRole_faultless env Hq RoleDefault w6) as [w7 [E7 [Ht7 Hr7]]].
      rewrite E7. exists w7, (Target.with_rows [] tb).
      assert (Ht : target w7 = with_table_rows t [] (target w))
        by (rewrite Ht7, Ht6, Ht5, Ht4, Ht3, Ht2, Ht1, Ht0; reflexivity).
      split; [reflexivity|]. rewrite Ht. split; [|now repeat split].
      now apply lookup_with_table_rows.
    - destruct (logMigration_run env id t Info
                  "Table is empty, skipping truncate" w1)
        as [w2 [E2 [Ht2 [Hr2 _]]]].
      exists w2, tb. split; [exact E2|].
      rewrite Ht0 in Hrows.
      pose proof (has_rows_false _ _ _ Htb Hrows) as Hnone.
      rewrite Ht2, Ht1, Ht0. split; [exact Htb|]. split; [exact Hnone|].
      split; [|congruence]. symmetry. now apply with_table_rows_same. }
  destruct Hemptied as [w2 [tb2 [E2 [Htb2 [Hnone [Ht2 Hr2]]]]]].
  rewrite E2. cbv beta iota. rewrite run_bind.
  destruct (migrateData_copies env t json arr srcT tb2 w2 Hq Hsrc Htb2)
    as [w3 [E3 [Ht3 Hr3]]].
  rewrite E3. cbv beta iota. rewrite run_bind.
  destruct (resetSequences_run env t w3) as [w4 [E4 [Ht4 Hr4]]].
  rewrite E4. cbv beta iota. rewrite run_bind.
  destruct (copyConstraints_run env t w4) as [w5 [E5 [Ht5 Hr5]]].
  rewrite E5. cbv beta iota. rewrite run_bind.
  match goal with
  | |- context [logMigration env id t Info ?m w5] =>
      destruct (logMigration_run env id t Info m w5) as [w6 [E6 [Ht6 [Hr6 _]]]]
  end.
  rewrite E6. cbv beta iota. rewrite run_ret.
  exists w6. split; [reflexivity|]. split.
  - rewrite Ht6, Ht5, Ht4, Ht3, Ht2, Hnone, with_table_rows_twice. reflexivity.
  - rewrite Hr6, Hr5, Hr4. now apply Hr3.
Qed.

(** X10.  When nothing is refused and the target has the table, the
    overwrite rule returns the number of rows of the source table and
    leaves the target table with its columns and with exactly the
    prepared rows of the source, in the order of the source, whatever
    rows it held before; the session ends in its default role. *)
Theorem overwrite_replaces_the_rows (env : Env) (id t : string)
    (json arr : list string) (srcT : SourceTable) (tb : TargetTable)
    (w : World) :
  faultless env ->
  lookup t (source env) = Some srcT ->
  lookup t (tgt_tables (target w)) = Some tb ->
  role w = RoleDefault ->
  exists w' tb',
    overwriteRule env id t json arr w = (Ok (List.length (src_rows srcT)), w')
    /\ lookup t (tgt_tables (target w')) = Some tb'
    /\ tgt_rows tb' = preparedRows json arr (src_rows srcT)
    /\ tgt_columns tb' = tgt_columns tb
    /\ role w' = RoleDefault.
Proof.
  intros Hq Hsrc Htb Hw.
  destruct (overwriteRule_replaces env id t json arr srcT tb w Hq Hsrc Htb Hw)
    as [w' [E [Ht Hr]]].
  exists w', (Target.with_rows (preparedRows json arr (src_rows srcT)) tb).
  split; [exact E|]. split; [|now repeat split].
  rewrite Ht. now apply lookup_with_table_rows.
Qed.

Lemma overwrite_replaces_the_rows_witness :
  exists w' tb',
    overwriteRule isolation_env "job-1" "good" [] [] (start stale_target)
    = (Ok (List.length (src_rows users_table)), w')
    /\ lookup "good" (tgt_tables (target w')) = Some tb'
    /\ tgt_rows tb' = preparedRows [] [] (src_rows users_table)
    /\ tgt_columns tb' = tgt_columns stale_table
    /\ role w' = RoleDefault.
Proof.
  apply (overwrite_replaces_the_rows isolation_env "job-1" "good" [] []
           users_table stale_table (start stale_target));
    [intros s n; reflexivity | reflexivity | reflexivity | reflexivity].
Defined.

(** ** One statement per row *)

Lemma statements_app (a b : list Event) :
  statements (a ++ b) = (statements b ++ statements a)%list.
Proof. unfold statements. now rewrite rev_app_distr, map_app. Qed.

Lemma accepted_app (p : Stmt -> bool) (a b : list Event) :
  accepted p (a ++ b) = accepted p a + accepted p b.
Proof. unfold accepted. now rewrite filter_app, length_app. Qed.

Lemma accepted_one (p : Stmt -> bool) (s : Stmt) (r : Role) (ok : bool) :
  p s = true ->
  accepted p [{| ev_stmt := s; ev_role := r; ev_ok := ok |}]
  = if ok then 1 else 0.
Proof. intros H. unfold accepted. cbn. rewrite H. now destruct ok. Qed.

(** A loop whose body sends one statement per element and never
    throws: the statements it sent, and what it counted. *)
Lemma for_each_statements {A S} (stmt : A -> Stmt) (p : Stmt -> bool)
    (measure : S -> nat) (credit : nat) (xs : list A) (body : A -> S -> M S) :
  (forall x, p (stmt x) = true) ->
  (forall x s w,
     exists ok s' w',
       body x s w = (Ok s', w')
       /\ trace w' = {| ev_stmt := stmt x; ev_role := role w; ev_ok := ok |}
                     :: trace w
       /\ role w' = role w
       /\ measure s' = measure s + (if ok then credit else 0)) ->
  forall s w,
    exists evs s' w',
      for_each xs body s w = (Ok s', w')
      /\ trace w' = (evs ++ trace w)%list
      /\ role w' = role w
      /\ statements evs = map stmt xs
      /\ measure s' = measure s + credit * accepted p evs.
Proof.
  intros Hp Hbody. induction xs as [|x r IH]; intros s w; cbn [for_each map].
  - exists [], s, w. repeat split. cbn. lia.
  - rewrite run_bind.
    destruct (Hbody x s w) as [ok [s1 [w1 [E1 [Ht1 [Hr1 Hm1]]]]]].
    rewrite E1. destruct (IH s1 w1) as [evs [s2 [w2 [E2 [Ht2 [Hr2 [Hs2 Hm2]]]]]]].
    exists (evs ++ [{| ev_stmt := stmt x; ev_role := role w; ev_ok := ok |}])%list,
      s2, w2.
    split; [exact E2|]. split; [now rewrite Ht2, Ht1, <- app_assoc|].
    split; [congruence|]. split.
    + rewrite statements_app, Hs2. reflexivity.
    + rewrite accepted_app, Hm2, Hm1, (accepted_one p _ _ _ (Hp x)).
      destruct ok; lia.
Qed.

Lemma trace_log_lines (lines : list LogLine) (w : World) :
  exists w',
    log_lines lines w = (Ok tt, w') /\ trace w' = trace w /\ role w' = role w.
Proof.
  destruct (sure_log_lines lines w) as [[] H].
  assert (Hk : keeps (fun a b => trace b = trace a /\ role b = role a)
                 (log_lines lines)).
  { unfold log_lines. apply keeps_for_each.
    - now split.
    - intros a b c [H1 H2] [H3 H4]. split; congruence.
    - intros l u w0. now split. }
  specialize (Hk w). destruct (log_lines lines w) as [r w'].
  cbn [fst snd] in *. subst r. now exists w'.
Qed.

Section Rows.

Variable env : Env.

(** A statement to the target comes back or throws, and the trace
    remembers which. *)
Lemma ask_target_event {A} (s : Stmt) (answer : TargetDb -> Reply A * TargetDb)
    (w : World) :
  exists ok w',
    trace w' = {| ev_stmt := s; ev_role := role w; ev_ok := ok |} :: trace w
    /\ role w' = role w
    /\ ((ok = true /\ exists a, ask_target env s answer w = (Ok a, w'))
        \/ (ok = false /\ exists e, ask_target env s answer w = (Throw e, w'))).
Proof.
  unfold ask_target. destruct (faults env s (clock w)) as [e|].
  - exists false, (sent s false w). split; [reflexivity|].
    split; [reflexivity|]. right. split; [reflexivity|]. now exists e.
  - destruct (fst (answer (target w))) as [a|e].
    + exists true, (set_target (snd (answer (target w))) (sent s true w)).
      split; [reflexivity|]. split; [reflexivity|].
      left. split; [reflexivity|]. now exists a.
    + exists false, (set_target (snd (answer (target w))) (sent s false w)).
      split; [reflexivity|]. split; [reflexivity|].
      right. split; [reflexivity|]. now exists e.
Qed.

Lemma ask_source_answered {A} (s : Stmt) (answer : SourceDb -> Reply A)
    (a : A) (w : World) :
  faults env s (clock w) = None -> answer (source env) = Answer a ->
  ask_source env s answer w = (Ok a, sent s true w).
Proof. intros Hf Ha. unfold ask_source. now rewrite Hf, Ha. Qed.

Lemma upsert_body (t key : string) (json arr : list string) (row : Row)
    (count : nat) (w : World) :
  exists ok s' w',
    (let prepared := prepareRowForInsert row json arr in
     log_lines (snd prepared) ;;
     let preparedRow := fst prepared in
     try_catch
       (ask_target env (Upsert t preparedRow key)
                   (Target.upsert t preparedRow key) ;;
        ret (S count))
       (fun e =>
          logger Error ("Upsert failed for row in " ++ t ++ ": " ++ e) ;;
          ret count)) w = (Ok s', w')
    /\ trace w'
       = {| ev_stmt := Upsert t (fst (prepareRowForInsert row json arr)) key;
            ev_role := role w; ev_ok := ok |} :: trace w
    /\ role w' = role w
    /\ s' = count + (if ok then 1 else 0).
Proof.
  cbv zeta. rewrite run_bind.
  destruct (trace_log_lines (snd (prepareRowForInsert row json arr)) w)
    as [w1 [E1 [Ht1 Hr1]]].
  rewrite E1. rewrite run_try_catch, run_bind.
  destruct (ask_target_event
              (Upsert t (fst (prepareRowForInsert row json arr)) key)
              (Target.upsert t (fst (prepareRowForInsert row json arr)) key) w1)
    as [ok [w2 [Ht2 [Hr2 [[-> [a E2]]|[-> [e E2]]]]]]]; rewrite E2.
  - exists true. eexists. eexists. split; [reflexivity|].
    rewrite Ht2, Ht1, Hr1, Hr2, Hr1. repeat split. lia.
  - exists false. eexists. eexists. split; [reflexivity|].
    cbn [trace role set_applog]. rewrite Ht2, Ht1, Hr1, Hr2, Hr1.
    repeat split. lia.
Qed.

Lemma insert_body (t : string) (json arr : list string) (row : Row)
    (inserted : nat) (w : World) :
  exists ok s' w',
    (let prepared := prepareRowForInsert row json arr in
     log_lines (snd prepared) ;;
     let preparedRow := fst prepared in
     try_catch
       (ask_target env (InsertRow t preparedRow)
                   (Target.insert t [preparedRow]) ;;
        ret (S inserted))
       (fun e =>
          (if negb (Js.str_includes e "duplicate key")
              && negb (Js.str_includes e "unique constraint")
           then logger Error ("Insert failed for row in " ++ t ++ ": " ++ e)
           else ret tt) ;;
          ret inserted)) w = (Ok s', w')
    /\ trace w'
       = {| ev_stmt := InsertRow t (fst (prepareRowForInsert row json arr));
            ev_role := role w; ev_ok := ok |} :: trace w
    /\ role w' = role w
    /\ s' = inserted + (if ok then 1 else 0).
Proof.
  cbv zeta. rewrite run_bind.
  destruct (trace_log_lines (snd (prepareRowForInsert row json arr)) w)
    as [w1 [E1 [Ht1 Hr1]]].
  rewrite E1. rewrite run_try_catch, run_bind.
  destruct (ask_target_event
              (InsertRow t (fst (prepareRowForInsert row json arr)))
              (Target.insert t [fst (prepareRowForInsert row json arr)]) w1)
    as [ok [w2 [Ht2 [Hr2 [[-> [a E2]]|[-> [e E2]]]]]]]; rewrite E2.
  - exists true. eexists. eexists. split; [reflexivity|].
    rewrite Ht2, Ht1, Hr1, Hr2, Hr1. repeat split. lia.
  - exists false. rewrite run_bind.
    destruct (negb (Js.str_includes e "duplicate key")
              && negb (Js.str_includes e "unique constraint"));
      eexists; eexists; (split; [reflexivity|]);
      cbn [trace role set_applog]; rewrite Ht2, Ht1, Hr1, Hr2, Hr1;
      repeat split; lia.
Qed.

End Rows.

(** X11.  Once the source has answered the key and row queries,
    [upsertData] never throws: it sends one upsert per source row, in
    the order of the source, each with the prepared row and the
    conflict column, goes on after a refused one, and returns the
    number of upserts that were accepted. *)
Theorem upsertData_one_statement_per_row (env : Env) (t : string)
    (json arr : list string) (srcT : SourceTable) (w : World) :
  lookup t (source env) = Some srcT ->
  faults env (SrcPrimaryKey t) (clock w) = None ->
  faults env (SrcSelectAll t) (S (clock w)) = None ->
  exists evs w',
    upsertData env t json arr w = (Ok (accepted is_upsert evs), w')
    /\ trace w' = (evs ++ trace w)%list
    /\ role w' = role w
    /\ statements evs
       = SrcPrimaryKey t :: SrcSelectAll t
         :: map (fun row => Upsert t (fst (prepareRowForInsert row json arr))
                                   (primaryKeyOf (src_primary_key srcT)))
                (src_rows srcT).
Proof.
  intros Hsrc Hpk Hall. unfold upsertData. rewrite run_bind.
  rewrite (ask_source_answered env _ _ (src_primary_key srcT) w Hpk)
    by (unfold Source.primary_key; now rewrite Hsrc).
  cbv beta iota zeta. rewrite run_bind.
  rewrite (ask_source_answered env _ _ (src_rows srcT)
             (sent (SrcPrimaryKey t) true w))
    by (try exact Hall; unfold Source.select_all; now rewrite Hsrc).
  cbv beta iota.
  destruct (for_each_statements
              (fun row => Upsert t (fst (prepareRowForInsert row json arr))
                                 (primaryKeyOf (src_primary_key srcT)))
              is_upsert (fun n : nat => n) 1 (src_rows srcT)
              (fun row count =>
                 let prepared := prepareRowForInsert row json arr in
                 log_lines (snd prepared) ;;
                 let preparedRow := fst prepared in
                 try_catch
                   (ask_target env
                      (Upsert t preparedRow (primaryKeyOf (src_primary_key srcT)))
                      (Target.upsert t preparedRow
                                     (primaryKeyOf (src_primary_key srcT))) ;;
                    ret (S count))
                   (fun e =>
                      logger Error ("Upsert failed for row in " ++ t ++ ": " ++ e) ;;
                      ret count))
              (fun _ => eq_refl)
              (fun row count w0 =>
                 upsert_body env t (primaryKeyOf (src_primary_key srcT))
                             json arr row count w0)
              0 (sent (SrcSelectAll t) true (sent (SrcPrimaryKey t) true w)))
    as [evs [n [w' [E [Ht [Hr [Hs Hn]]]]]]].
  cbv zeta in E. rewrite E.
  exists (evs ++ [{| ev_stmt := SrcSelectAll t; ev_role := role w; ev_ok := true |};
                  {| ev_stmt := SrcPrimaryKey t; ev_role := role w; ev_ok := true |}])%list,
    w'.
  split; [|split; [|split]].
  - rewrite accepted_app. cbv beta in Hn. rewrite Hn.
    unfold accepted at 2. cbn [filter ev_stmt ev_ok andb List.length].
    do 2 f_equal; lia.
  - rewrite Ht. cbn [trace sent set_trace set_clock role]. now rewrite <- app_assoc.
  - exact Hr.
  - rewrite statements_app, Hs. reflexivity.
Qed.

Lemma upsertData_one_statement_per_row_witness :
  exists evs w',
    upsertData orders_env "orders" [] [] (start orders_target)
    = (Ok (accepted is_upsert evs), w')
    /\ trace w' = (evs ++ trace (start orders_target))%list
    /\ role w' = role (start orders_target)
    /\ statements evs
       = SrcPrimaryKey "orders" :: SrcSelectAll "orders"
         :: map (fun row => Upsert "orders" (fst (prepareRowForInsert row [] []))
                                   (primaryKeyOf (src_primary_key orders_table)))
                (src_rows orders_table).
Proof.
  apply (upsertData_one_statement_per_row orders_env "orders" [] []
           orders_table (start orders_target)); reflexivity.
Defined.

(** X12.  Once the source has answered the row query, [insertIgnoreData]
    never throws: it sends one insert per source row, in the order of
    the source, each with the prepared row, goes on after a refused
    one whatever the reason of the refusal, and returns the number of
    inserts that were accepted. *)
Theorem insertIgnoreData_one_statement_per_row (env : Env) (t : string)
    (json arr : list string) (srcT : SourceTable) (w : World) :
  lookup t (source env) = Some srcT ->
  faults env (SrcSelectAll t) (clock w) = None ->
  exists evs w',
    insertIgnoreData env t json arr w = (Ok (accepted is_row_insert evs), w')
    /\ trace w' = (evs ++ trace w)%list
    /\ role w' = role w
    /\ statements evs
       = SrcSelectAll t
         :: map (fun row => InsertRow t (fst (prepareRowForInsert row json arr)))
                (src_rows srcT).
Proof.
  intros Hsrc Hall. unfold insertIgnoreData. rewrite run_bind.
  rewrite (ask_source_answered env _ _ (src_rows srcT) w Hall)
    by (unfold Source.select_all; now rewrite Hsrc).
  cbv beta iota.
  destruct (for_each_statements
              (fun row => InsertRow t (fst (prepareRowForInsert row json arr)))
              is_row_insert (fun n : nat => n) 1 (src_rows srcT)
              (fun row inserted =>
                 let prepared := prepareRowForInsert row json arr in
                 log_lines (snd prepared) ;;
                 let preparedRow := fst prepared in
                 try_catch
                   (ask_target env (InsertRow t preparedRow)
                               (Target.insert t [preparedRow]) ;;
                    ret (S inserted))
                   (fun e =>
                      (if negb (Js.str_includes e "duplicate key")
                          && negb (Js.str_includes e "unique constraint")
                       then logger Error ("Insert failed for row in " ++ t
                                          ++ ": " ++ e)
                       else ret tt) ;;
                      ret inserted))
              (fun _ => eq_refl)
              (fun row inserted w0 => insert_body env t json arr row inserted w0)
              0 (sent (SrcSelectAll t) true w))
    as [evs [n [w' [E [Ht [Hr [Hs Hn]]]]]]].
  cbv zeta in E. rewrite E.
  exists (evs ++ [{| ev_stmt := SrcSelectAll t; ev_role := role w; ev_ok := true |}])%list,
    w'.
  split; [|split; [|split]].
  - rewrite accepted_app. cbv beta in Hn. rewrite Hn.
    unfold accepted at 2. cbn [filter ev_stmt ev_ok andb List.length].
    do 2 f_equal; lia.
  - rewrite Ht. cbn [trace sent set_trace set_clock role]. now rewrite <- app_assoc.
  - exact Hr.
  - rewrite statements_app, Hs. reflexivity.
Qed.

Lemma insertIgnoreData_one_statement_per_row_witness :
  (exists evs w',
     insertIgnoreData tags_env "tags" [] [] (start tags_target)
     = (Ok (accepted is_row_insert evs), w')
     /\ trace w' = (evs ++ trace (start tags_target))%list
     /\ role w' = role (start tags_target)
     /\ statements evs
        = SrcSelectAll "tags"
          :: map (fun row => InsertRow "tags" (fst (prepareRowForInsert row [] [])))
                 (src_rows tags_table))
  /\ fst (insertIgnoreData tags_env "tags" [] [] (start tags_target)) = Ok 2
  /\ map ev_ok (rev (trace (snd (insertIgnoreData tags_env "tags" [] []
                                   (start tags_target)))))
     = [true; true; false; true].
Proof.
  split; [|split; reflexivity].
  apply (insertIgnoreData_one_statement_per_row tags_env "tags" [] []
           tags_table (start tags_target)); reflexivity.
Defined.

(** ** copyConstraints *)

(** X13.  Once the source has answered the constraint query,
    [copyConstraints] sends one ADD CONSTRAINT per unique constraint of
    the source table, in the order of the answer, and goes on after a
    refused one; it never throws. *)
Theorem copyConstraints_one_statement_per_constraint (env : Env) (t : string)
    (w : World) :
  faults env (SrcUniqueConstraints t) (clock w) = None ->
  exists evs w',
    copyConstraints env t w = (Ok tt, w')
    /\ trace w' = (evs ++ trace w)%list
    /\ statements evs
       = SrcUniqueConstraints t
         :: map (fun c => AddUnique t (fst c) (snd c)) (uniqueConstraintsOf env t).
Proof.
  intros Hq. unfold copyConstraints. rewrite run_try_catch, run_bind.
  rewrite (ask_source_answered env _ _ (uniqueConstraintsOf env t) w Hq)
    by (unfold Source.unique_constraints, uniqueConstraintsOf;
        now destruct (lookup t (source env))).
  cbv beta iota.
  destruct (for_each_statements
              (fun c : string * string => AddUnique t (fst c) (snd c))
              (fun _ => true) (fun _ : unit => 0) 0 (uniqueConstraintsOf env t)
              (fun constraint _ =>
                 try_catch
                   (ask_target env
                      (AddUnique t (fst constraint) (snd constraint))
                      (Target.add_unique t (fst constraint) (snd constraint)) ;;
                    logger Info ("Unique constraint " ++ fst constraint
                                 ++ " created"))
                   (fun e =>
                      if negb (Js.str_includes e "already exists")
                      then logger Warning ("Could not create constraint "
                                           ++ fst constraint ++ ": " ++ e)
                      else ret tt))
              (fun _ => eq_refl)) with (s := tt) (w := sent (SrcUniqueConstraints t) true w)
    as [evs [[] [w' [E [Ht [_ [Hs _]]]]]]].
  { intros c [] w0. rewrite run_try_catch, run_bind.
    destruct (ask_target_event env (AddUnique t (fst c) (snd c))
                (Target.add_unique t (fst c) (snd c)) w0)
      as [ok [w1 [Ht1 [Hr1 [[-> [a E1]]|[-> [e E1]]]]]]]; rewrite E1.
    - exists true, tt. eexists. split; [reflexivity|].
      cbn [trace role set_applog]. now rewrite Ht1, Hr1.
    - exists false, tt.
      destruct (negb (Js.str_includes e "already exists"));
        eexists; (split; [reflexivity|]);
        cbn [trace role set_applog ret]; now rewrite Ht1, Hr1. }
  rewrite E.
  exists (evs ++ [{| ev_stmt := SrcUniqueConstraints t; ev_role := role w;
                     ev_ok := true |}])%list, w'.
  split; [reflexivity|]. split.
  - rewrite Ht. cbn [trace sent set_trace set_clock]. now rewrite <- app_assoc.
  - rewrite statements_app, Hs. reflexivity.
Qed.

Lemma copyConstraints_one_statement_per_constraint_witness :
  (exists evs w',
     copyConstraints accounts_env "accounts" (start accounts_target) = (Ok tt, w')
     /\ trace w' = (evs ++ trace (start accounts_target))%list
     /\ statements evs
        = SrcUniqueConstraints "accounts"
          :: map (fun c => AddUnique "accounts" (fst c) (snd c))
                 (uniqueConstraintsOf accounts_env "accounts"))
  /\ map (fun e => (ev_stmt e, ev_ok e))
         (rev (trace (snd (copyConstraints accounts_env "accounts"
                             (start accounts_target)))))
     = [(SrcUniqueConstraints "accounts", true);
        (AddUnique "accounts" "accounts_email_key" "email", false);
        (AddUnique "accounts" "accounts_tenant_id_slug_key" "tenant_id, slug",
         true)].
Proof.
  split; [|reflexivity].
  apply (copyConstraints_one_statement_per_constraint accounts_env "accounts"
           (start accounts_target)); reflexivity.
Defined.

(** ** A job without its connections *)

(** X14.  When the job store has no row for the source or for the
    target connection, the job sends nothing to either database: it
    reads the two connections, marks its record failed with the
    message of the missing connection, and returns. *)
Theorem missing_connection_fails_the_job (env : Env)
    (migrationId sourceConnId targetConnId globalRule : string)
    (collections : list Collection) (w : World) (job : Migration) :
  lookup sourceConnId (connections (store w)) = None
  \/ lookup targetConnId (connections (store w)) = None ->
  lookup migrationId (migrations (store w)) = Some job ->
  (forall s n, job_record_stmt s = true -> faults env s n = None) ->
  exists duration evs w',
    executeMigration env migrationId sourceConnId targetConnId globalRule
                     collections w = (Ok tt, w')
    /\ lookup migrationId (migrations (store w'))
       = Some (failedJob job "Source or target connection not found" duration)
    /\ same_session w w'
    /\ trace w' = (evs ++ trace w)%list
    /\ statements evs
       = [SelectConnection sourceConnId; SelectConnection targetConnId;
          UpdateMigration migrationId
            (failedUpdate "Source or target connection not found" duration)].
Proof.
  intros Hmissing Hjob Hstore.
  unfold executeMigration. rewrite run_bind. cbn [now].
  unfold try_finally. rewrite run_try_catch, run_bind.
  unfold ask_store at 1.
  rewrite (Hstore (SelectConnection sourceConnId) _ eq_refl).
  cbn [Store.select_connection fst snd settle answered].
  rewrite run_bind. unfold ask_store at 1.
  rewrite (Hstore (SelectConnection targetConnId) _ eq_refl).
  cbn [Store.select_connection fst snd settle answered store set_store sent
       set_trace set_clock connections].
  assert (Hthrown :
            forall w0,
              match lookup sourceConnId (connections (store w)),
                    lookup targetConnId (connections (store w)) with
              | Some _, Some _ =>
                  results <- for_each collections
                               (processCollection env migrationId globalRule) [] ;;
                  finished <- now ;;
                  ask_store env
                    (UpdateMigration migrationId
                       (completedUpdate results (finished - clock w)))
                    (Store.update_migration migrationId
                       (completedUpdate results (finished - clock w))) ;;
                  logger Info ("Migration " ++ migrationId ++ " completed in "
                               ++ Js.of_Z (Z.of_nat (finished - clock w)) ++ "ms")
              | _, _ => throw "Source or target connection not found"
              end w0 = (Throw "Source or target connection not found", w0)).
  { intros w0. destruct Hmissing as [H|H]; rewrite H;
      [|destruct (lookup sourceConnId (connections (store w)))]; reflexivity. }
  rewrite Hthrown. rewrite run_bind, run_logger. cbv beta iota.
  rewrite run_bind. cbn [now]. unfold ask_store at 1.
  rewrite (Hstore (UpdateMigration migrationId _) _ eq_refl).
  cbn [Store.update_migration fst snd settle answered ret].
  eexists _, [_; _; _], _. split; [reflexivity|].
  cbn [store target role trace set_applog set_store sent set_trace set_clock
       migrations].
  split; [|split; [|split]].
  - erewrite lookup_update by exact Hjob. reflexivity.
  - now split.
  - reflexivity.
  - reflexivity.
Qed.

Lemma missing_connection_fails_the_job_witness :
  exists duration evs w',
    executeMigration isolation_env "job-1" "src" "elsewhere" "overwrite"
                     isolation_tasks (start empty_target) = (Ok tt, w')
    /\ lookup "job-1" (migrations (store w'))
       = Some (failedJob running_job "Source or target connection not found"
                         duration)
    /\ same_session (start empty_target) w'
    /\ trace w' = (evs ++ trace (start empty_target))%list
    /\ statements evs
       = [SelectConnection "src"; SelectConnection "elsewhere";
          UpdateMigration "job-1"
            (failedUpdate "Source or target connection not found" duration)].
Proof.
  apply (missing_connection_fails_the_job isolation_env "job-1" "src"
           "elsewhere" "overwrite" isolation_tasks (start empty_target)
           running_job);
    [right; reflexivity | reflexivity | intros s n _; reflexivity].
Defined.

(** ** The schema replayer *)

Lemma keeps_bind_returns (R : World -> World -> Prop)
    (R_trans : forall a b c, R a b -> R b c -> R a c)
    {A B} (Q : A -> Prop) (m : M A) (f : A -> M B) :
  returns Q m -> keeps R m -> (forall a, Q a -> keeps R (f a)) ->
  keeps R (bind m f).
Proof.
  intros Hq Hm Hf w. rewrite run_bind. specialize (Hm w). specialize (Hq w).
  destruct (m w) as [[a|e|] w']; cbn [fst snd] in *; try exact Hm.
  eapply R_trans; [exact Hm|]. now apply Hf, Hq.
Qed.

Section Replayer.

Variable env : Env.

Lemma returns_source_columns (s : Stmt) (t : string) :
  returns (fun cols => cols = sourceColumnsOf env t)
          (ask_source env s (Source.columns t)).
Proof.
  intros w cols H.
  destruct (ask_source env s (Source.columns t) w) as [r w'] eqn:E.
  cbn [fst] in H. subst r. apply (ask_source_ok env) in E as [E _].
  now apply source_columns_answer.
Qed.

Lemma emits_logMigration (p : Event -> bool) (id c : string) (l : Level)
    (msg : string) :
  (forall entry, admits p (InsertLog entry)) ->
  keeps (emits p) (logMigration env id c l msg).
Proof.
  intros Hp. unfold logMigration. apply (keeps_try_catch _ (emits_trans p)).
  - apply emits_ask_store, Hp.
  - intros e. apply emits_logger.
Qed.

Variable t : string.

Lemma keyed_log (id : string) (msg : string) :
  keeps (emits (key_of_serials env t)) (logMigration env id t Info msg).
Proof. apply emits_logMigration. intros entry r ok. reflexivity. Qed.

Ltac keyed_leaf id :=
  solve [ apply emits_logger
        | apply (keyed_log id)
        | (first [ apply emits_ask_store | apply emits_ask_source
                 | apply emits_ask_target | apply emits_setRole ]);
          intros ? ?; reflexivity ].

Ltac keyed id :=
  keeps_steps (emits_refl (key_of_serials env t))
              (emits_trans (key_of_serials env t)) ltac:(keyed_leaf id).

(** The statement that adds the key is sent for a table with a serial
    column only, and names the serial columns. *)
Lemma keyed_primary_key (id : string) :
  keeps (emits (key_of_serials env t))
    (if Nat.ltb 0 (List.length (filter hasNextvalDefault (sourceColumnsOf env t)))
     then
       try_catch
         (ask_target env
            (AddPrimaryKey t (t ++ "_pkey")
               (Js.join ", "
                  (map (fun c => ident (column_name c))
                       (filter hasNextvalDefault (sourceColumnsOf env t)))))
            (Target.add_index t (t ++ "_pkey")) ;;
          logMigration env id t Info "Primary key created")
         (fun e => logMigration env id t Info
                     ("Could not create primary key: " ++ e))
     else ret tt).
Proof.
  destruct (Nat.ltb 0 (List.length (filter hasNextvalDefault (sourceColumnsOf env t))))
    eqn:Hsome; [|apply (keeps_ret _ (emits_refl _))].
  apply (keeps_try_catch _ (emits_trans _)); [|intros e; apply keyed_log].
  apply (keeps_bind _ (emits_trans _)); [|intros _; apply keyed_log].
  apply emits_ask_target. intros r ok.
  unfold key_of_serials, serialColumns. cbn [ev_stmt].
  now rewrite !String.eqb_refl, Hsome.
Qed.

Lemma keyed_createTable (id : string) :
  keeps (emits (key_of_serials env t))
    (createTable env t (sourceColumnsOf env t)
                 (fun msg => logMigration env id t Info msg)).
Proof.
  unfold createTable, createSequences, getTableSequences.
  keeps_steps (emits_refl (key_of_serials env t))
              (emits_trans (key_of_serials env t))
              ltac:(first [ apply (keyed_primary_key id) | keyed_leaf id ]).
Qed.

Lemma keyed_migrateSchema (id : string) :
  keeps (emits (key_of_serials env t)) (migrateSchema env id t).
Proof.
  unfold migrateSchema. cbv zeta.
  apply (keeps_try_catch _ (emits_trans _)).
  - unfold getTableColumnsDetailed at 1.
    apply (keeps_bind_returns _ (emits_trans _)
             (fun cols => cols = sourceColumnsOf env t)).
    + apply returns_source_columns.
    + apply emits_ask_source. intros r ok. reflexivity.
    + intros cols ->.
      unfold addMissingColumns, addColumn, ensureSequence, syncIndexes,
        getTableColumnsDetailed.
      keeps_steps (emits_refl (key_of_serials env t))
                  (emits_trans (key_of_serials env t))
                  ltac:(first [ apply (keyed_createTable id) | keyed_leaf id ]).
  - intros e. keyed id.
Qed.

End Replayer.

(** X15.  The only primary key [migrateSchema] ever asks for is the one
    it derives itself: named after the table and made of the columns
    whose default calls [nextval].  For a table without such a column
    no primary key is asked for, whatever the key of the source. *)
Theorem primary_key_is_made_of_the_serial_columns (env : Env) (id t : string)
    (w : World) :
  exists evs,
    trace (snd (migrateSchema env id t w)) = (evs ++ trace w)%list
    /\ forallb (key_of_serials env t) evs = true.
Proof. apply keyed_migrateSchema. Qed.

(** X16.  [migrateSchema] never throws.  When the column query on the
    source is refused it returns the error as its only change and
    leaves the target alone; when the source has no column for the
    table it returns no change at all and leaves the target alone. *)
Theorem migrateSchema_never_throws (env : Env) (id t : string) (w : World) :
  exists changes w',
    migrateSchema env id t w = (Ok changes, w')
    /\ (forall e, faults env (SrcColumnsDetailed t) (clock w) = Some e ->
          changes = pushError (tableError t e) noChanges
          /\ same_session w w')
    /\ (faults env (SrcColumnsDetailed t) (clock w) = None ->
        sourceColumnsOf env t = [] ->
        changes = noChanges /\ same_session w w').
Proof.
  unfold migrateSchema. cbv zeta. rewrite run_try_catch, run_bind.
  unfold getTableColumnsDetailed at 1. unfold ask_source at 1.
  destruct (faults env (SrcColumnsDetailed t) (clock w)) as [e|] eqn:Hf.
  - rewrite run_bind.
    match goal with
    | |- context [logMigration env id t Info ?m ?w0] =>
        destruct (logMigration_run env id t Info m w0) as [w1 [E [Ht [Hr _]]]]
    end.
    rewrite E. cbv beta iota. rewrite run_ret.
    eexists _, w1. split; [reflexivity|]. split; [|discriminate].
    intros e' He'. injection He' as <-. split; [reflexivity|].
    split; [exact Ht | exact Hr].
  - assert (Hcols : Source.columns t (source env)
                    = Answer (sourceColumnsOf env t))
      by (unfold Source.columns, sourceColumnsOf;
          now destruct (lookup t (source env))).
    rewrite Hcols. cbn [settle answered].
    destruct (sourceColumnsOf env t) as [|col cols] eqn:Hsrc.
    + cbn [List.length Nat.eqb]. rewrite run_bind.
      match goal with
      | |- context [logMigration env id t Info ?m ?w0] =>
          destruct (logMigration_run env id t Info m w0) as [w1 [E [Ht [Hr _]]]]
      end.
      rewrite E. cbv beta iota. rewrite run_ret.
      exists noChanges, w1. split; [reflexivity|]. split; [discriminate|].
      intros _ _. split; [reflexivity|]. split; [exact Ht | exact Hr].
    + destruct (sure_migrateSchema env id t w) as [ch Hch].
      unfold migrateSchema in Hch. cbv zeta in Hch.
      rewrite run_try_catch, run_bind in Hch.
      unfold getTableColumnsDetailed at 1 in Hch. unfold ask_source at 1 in Hch.
      rewrite Hf, Hcols in Hch. cbn [settle answered] in Hch.
      match goal with
      | |- exists _ _, ?run = _ /\ _ => destruct run as [r w'] eqn:E
      end.
      cbn [fst] in Hch. subst r. exists ch, w'.
      split; [reflexivity|]. split; [discriminate|]. intros _ H. discriminate H.
Qed.

(** X17.  Under the schema rule a table is reported as a success
    whatever the target refuses: once the source has answered the
    column query, the entry is never the failed one. *)
Theorem schema_rule_reports_success_whatever_the_target_refuses (env : Env)
    (migrationId globalRule : string) (collection : Collection)
    (results : list TableResult) (w : World) :
  effectiveRule globalRule collection = "schema" ->
  (forall n, faults env (SrcColumns (name collection)) n = None) ->
  exists k w',
    processCollection env migrationId globalRule collection results w
    = (Ok (results ++ [succeeded (name collection) "schema" k])%list, w').
Proof.
  intros Hrule Hcols. unfold processCollection. cbv zeta. rewrite Hrule.
  rewrite run_bind, run_logger. cbv beta iota.
  rewrite run_try_catch, run_bind. unfold migrateCollection. rewrite run_bind.
  match goal with
  | |- context [logMigration env ?i ?c ?l ?m ?w0] =>
      destruct (logMigration_run env i c l m w0) as [w1 [E1 _]]
  end.
  rewrite E1. cbv beta iota. rewrite run_bind.
  unfold getTableColumns, ask_source. rewrite Hcols.
  assert (Hanswer : Source.columns (name collection) (source env)
                    = Answer (sourceColumnsOf env (name collection)))
    by (unfold Source.columns, sourceColumnsOf;
        now destruct (lookup (name collection) (source env))).
  rewrite Hanswer. cbn [settle answered]. cbv beta iota zeta.
  rewrite !run_bind, !run_logger. cbv beta iota.
  unfold dispatch. rewrite String.eqb_refl. run_head.
  match goal with
  | |- context [schemaRule env ?i ?c ?w0] =>
      destruct (schemaRule_run env i c w0) as [k [w2 [E2 _]]]
  end.
  rewrite E2. cbv beta iota. rewrite run_ret. now exists k, w2.
Qed.

Lemma schema_rule_reports_success_witness :
  exists k w',
    processCollection readonly_env "job-1" "overwrite" schema_task []
                      (start empty_target)
    = (Ok ([] ++ [succeeded (name schema_task) "schema" k])%list, w').
Proof.
  apply (schema_rule_reports_success_whatever_the_target_refuses readonly_env
           "job-1" "overwrite" schema_task [] (start empty_target));
    [reflexivity | intros n; reflexivity].
Defined.

(** The table was not created, the entry says success with no column
    added, and the refusal is left in the job's log. *)
Example refused_create_table_is_a_success :
  fst (processCollection readonly_env "job-1" "overwrite" schema_task []
                         (start empty_target))
  = Ok [succeeded "t" "schema" 0]
  /\ tgt_tables (target (snd (processCollection readonly_env "job-1" "overwrite"
                                schema_task [] (start empty_target)))) = []
  /\ In (logEntry "job-1" "t" Warning
           "Errors: permission denied for schema public")
        (migration_logs
           (store (snd (processCollection readonly_env "job-1" "overwrite"
                          schema_task [] (start empty_target))))).
Proof. vm_compute. repeat split. tauto. Qed.

(** ** The older serializer *)

(** X18.  Where [serializeJsonFields] returns, the type preparer with
    no column classified returns the same row and logs nothing,
    provided the row holds no date and no undefined value (the
    preparer keeps a date and turns undefined into null). *)
Theorem serializeJsonFields_agrees_with_the_preparer (row serialized : Row)
    (jsonColumns : list string) :
  serializeJsonFields row jsonColumns = Some serialized ->
  Forall (fun kv => Js.is_date (snd kv) = false /\ snd kv <> Js.Undefined) row ->
  prepareRowForInsert row [] [] = (serialized, []).
Proof.
  revert serialized. induction row as [|[key value] rest IH];
    intros serialized Hrun Hrow.
  - cbn in Hrun. injection Hrun as <-. reflexivity.
  - inversion Hrow as [|kv r [Hdate Hdef] Hrest]; subst. cbn [snd] in *.
    cbn [serializeJsonFields] in Hrun.
    destruct (if isObjectValue value
              then match Js.stringify value with
                   | Some s => Some (Js.Str s)
                   | None => None
                   end
              else Some value) as [v|] eqn:Hv; [|discriminate].
    destruct (serializeJsonFields rest jsonColumns) as [rest'|];
      [|discriminate].
    injection Hrun as <-. specialize (IH rest' eq_refl Hrest).
    unfold prepareRowForInsert in *. cbn [map fst snd concat].
    injection IH as IH1 IH2. rewrite IH1, IH2, app_nil_r.
    assert (Hprep : prepareValue [] [] key value = (v, [])).
    { unfold prepareValue. cbn [Js.includes existsb].
      destruct value;
        cbn [isObjectValue Js.is_object Js.typeof Js.is_nullish Js.is_date
             negb andb] in *;
        try congruence; try (injection Hv as <-; reflexivity);
        (destruct (Js.stringify _);
         [injection Hv as <-; reflexivity | discriminate]). }
    now rewrite Hprep.
Qed.

Lemma serializeJsonFields_agrees_witness :
  prepareRowForInsert [("id", Js.Num 1); ("points", Js.Arr [Js.Num 1; Js.Num 2])]
                      [] []
  = ([("id", Js.Num 1); ("points", Js.Str "[1,2]")], []).
Proof.
  apply (serializeJsonFields_agrees_with_the_preparer
           [("id", Js.Num 1); ("points", Js.Arr [Js.Num 1; Js.Num 2])]
           [("id", Js.Num 1); ("points", Js.Str "[1,2]")] ["points"]).
  - vm_compute. reflexivity.
  - repeat constructor; discriminate.
Defined.

(** ** validateMigration *)

(** X19.  [validateMigration] never throws and sends nothing to the
    target.  It finds a table valid exactly when the source answered
    both of its questions and has the table with a row in it: an
    empty table is as invalid as a missing one. *)
Theorem validateMigration_accepts_only_tables_with_rows (env : Env)
    (t : string) (w : World) :
  exists valid errors w',
    validateMigration env t w = (Ok (valid, errors), w')
    /\ same_session w w'
    /\ (valid = true <-> errors = [])
    /\ (valid = true <->
        faults env (HasTable t) (clock w) = None
        /\ faults env (SrcCount t) (S (clock w)) = None
        /\ 0 < sourceRows env t).
Proof.
  unfold validateMigration. rewrite run_bind, run_try_catch, run_bind.
  unfold ask_source at 1. unfold sourceHasTable, sourceRows, has_key.
  destruct (faults env (HasTable t) (clock w)) as [e|].
  { eexists _, _, _. split; [reflexivity|]. split; [now split|].
    cbn. split; split; intros H; try discriminate. now destruct H. }
  cbn [settle answered].
  destruct (lookup t (source env)) as [tb|] eqn:Hsrc; cbn [negb].
  - cbv beta iota. rewrite run_bind. unfold ask_source, Source.count.
    cbn [clock sent set_clock set_trace]. rewrite Hsrc.
    destruct (faults env (SrcCount t) (S (clock w))) as [e|].
    { eexists _, _, _. split; [reflexivity|]. split; [now split|].
      cbn. split; split; intros H; try discriminate. now destruct H as [_ [H _]]. }
    cbn [settle answered]. cbv beta iota.
    destruct (List.length (src_rows tb)) as [|n] eqn:Hlen; cbn [Nat.eqb].
    + eexists _, _, _. split; [reflexivity|]. split; [now split|].
      cbn. split; split; intros H; try discriminate. destruct H as [_ [_ H]]. lia.
    + eexists _, _, _. split; [reflexivity|]. split; [now split|].
      cbn. split; split; intros H; try reflexivity. repeat split. lia.
  - cbv beta iota.
    eexists _, _, _. split; [reflexivity|]. split; [now split|].
    cbn. split; split; intros H; try discriminate. destruct H as [_ [_ H]]. lia.
Qed.

(** ** What a job writes to the job store *)

Lemma lookup_update_other {V : Type} (k k' : string) (f : V -> V)
    (l : list (string * V)) :
  k' <> k -> lookup k' (update k f l) = lookup k' l.
Proof.
  intros Hk. induction l as [|[k0 v0] r IH]; cbn [lookup update]; [reflexivity|].
  destruct (String.eqb_spec k k0) as [->|Hne]; cbn [lookup].
  - destruct (String.eqb_spec k' k0); [contradiction|reflexivity].
  - now rewrite IH.
Qed.

Lemma own_record_refl (id : string) (w : World) : own_record id w w.
Proof. now split. Qed.

Lemma own_record_trans (id : string) (a b c : World) :
  own_record id a b -> own_record id b c -> own_record id a c.
Proof.
  intros [H1 H2] [H3 H4]. split; [congruence|].
  intros other Ho. now rewrite H4, H2.
Qed.

Lemma own_record_of_same_records (id : string) (w w' : World) :
  same_records w w' -> own_record id w w'.
Proof. intros [H1 H2]. split; [exact H1|]. intros other _. now rewrite H2. Qed.

Lemma keeps_weaken (R R' : World -> World -> Prop) {A} (m : M A) :
  (forall a b, R a b -> R' a b) -> keeps R m -> keeps R' m.
Proof. intros H Hm w. apply H, Hm. Qed.

Section OwnRecord.

Variable env : Env.
Variable id : string.

Lemma records_tables (globalRule : string) (collections : list Collection)
    (results : list TableResult) :
  keeps same_records
    (for_each collections (processCollection env id globalRule) results).
Proof.
  intros w.
  destruct (for_each_processCollection env id globalRule collections results w)
    as [rs [w' [E [H _]]]].
  now rewrite E.
Qed.

Lemma own_update (u : MigrationUpdate) :
  keeps (own_record id)
    (ask_store env (UpdateMigration id u) (Store.update_migration id u)).
Proof.
  intros w. unfold ask_store.
  destruct (faults env (UpdateMigration id u) (clock w)); [now split|].
  split; [reflexivity|]. intros other Ho.
  cbn [snd Store.update_migration store set_store migrations].
  now apply lookup_update_other.
Qed.

Lemma own_executeMigration (sourceConnId targetConnId globalRule : string)
    (collections : list Collection) :
  keeps (own_record id)
    (executeMigration env id sourceConnId targetConnId globalRule collections).
Proof.
  unfold executeMigration.
  keeps_steps (own_record_refl id) (own_record_trans id)
    ltac:(first
            [ apply own_update
            | apply (keeps_weaken same_records);
              [ apply own_record_of_same_records
              | first [ apply records_tables | apply records_select_connection
                      | apply records_logger ] ] ]).
Qed.

End OwnRecord.

(** X20.  Whatever the databases and the job store refuse, a job
    changes no connection and no record of [migrations] but its own. *)
Theorem job_writes_only_its_own_record (env : Env)
    (migrationId sourceConnId targetConnId globalRule : string)
    (collections : list Collection) (w : World) (other : string) :
  other <> migrationId ->
  connections
    (store (snd (executeMigration env migrationId sourceConnId targetConnId
                   globalRule collections w)))
  = connections (store w)
  /\ lookup other
       (migrations
          (store (snd (executeMigration env migrationId sourceConnId
                         targetConnId globalRule collections w))))
     = lookup other (migrations (store w)).
Proof.
  intros Ho.
  destruct (own_executeMigration env migrationId sourceConnId targetConnId
              globalRule collections w) as [H1 H2].
  split; [exact H1 | now apply H2].
Qed.

Lemma job_writes_only_its_own_record_witness :
  connections
    (store (snd (executeMigration ledger_env "job-2" "src" "tgt" "overwrite"
                   ledger_tasks (start ledger_target))))
  = connections (store (start ledger_target))
  /\ lookup "job-1"
       (migrations
          (store (snd (executeMigration ledger_env "job-2" "src" "tgt"
                         "overwrite" ledger_tasks (start ledger_target)))))
     = lookup "job-1" (migrations (store (start ledger_target))).
Proof.
  apply (job_writes_only_its_own_record ledger_env "job-2" "src" "tgt"
           "overwrite" ledger_tasks (start ledger_target) "job-1").
  discriminate.
Defined.

(** ** What the replayer adds *)

Lemma bind_at (R : World -> World -> Prop)
    (R_trans : forall a b c, R a b -> R b c -> R a c)
    {A B} (m : M A) (f : A -> M B) (w : World) :
  R w (snd (m w)) ->
  (forall a w1, m w = (Ok a, w1) -> R w1 (snd (f a w1))) ->
  R w (snd (bind m f w)).
Proof.
  intros Hm Hf. rewrite run_bind.
  destruct (m w) as [[a|e|] w1] eqn:E; cbn [snd] in *; try exact Hm.
  eapply R_trans; [exact Hm | now apply Hf].
Qed.

Lemma try_catch_at (R : World -> World -> Prop)
    (R_trans : forall a b c, R a b -> R b c -> R a c)
    {A} (m : M A) (h : string -> M A) (w : World) :
  R w (snd (m w)) ->
  (forall e w1, m w = (Throw e, w1) -> R w1 (snd (h e w1))) ->
  R w (snd (try_catch m h w)).
Proof.
  intros Hm Hh. rewrite run_try_catch.
  destruct (m w) as [[a|e|] w1] eqn:E; cbn [snd] in *; try exact Hm.
  eapply R_trans; [exact Hm | now apply Hh].
Qed.

Lemma keeps_for_each_in (R : World -> World -> Prop)
    (R_refl : forall w, R w w)
    (R_trans : forall a b c, R a b -> R b c -> R a c)
    {A S} (xs : list A) (body : A -> S -> M S) (acc : S) :
  (forall x s, In x xs -> keeps R (body x s)) ->
  keeps R (for_each xs body acc).
Proof.
  revert acc. induction xs as [|x r IH]; intros acc Hb; cbn [for_each].
  - now apply keeps_ret.
  - apply keeps_bind; [exact R_trans | apply Hb; now left |].
    intros s. apply IH. intros y s' Hy. apply Hb. now right.
Qed.

Lemma includes_In (xs : list string) (k : string) :
  In k xs -> Js.includes xs k = true.
Proof.
  intros H. unfold Js.includes. apply existsb_exists. exists k. split; [exact H|].
  apply String.eqb_refl.
Qed.

Section Additions.

Variable env : Env.
Variable t : string.
Variable id : string.
Variable db : TargetDb.

Lemma adds_log (msg : string) :
  keeps (emits (adds_missing_column env t db)) (logMigration env id t Info msg).
Proof. apply emits_logMigration. intros entry r ok. reflexivity. Qed.

Lemma creates_log (msg : string) :
  keeps (emits (creates_missing_index env t db)) (logMigration env id t Info msg).
Proof. apply emits_logMigration. intros entry r ok. reflexivity. Qed.

Ltac plain_leaf :=
  solve [ apply emits_logger
        | apply adds_log
        | apply creates_log
        | (first [ apply emits_ask_store | apply emits_ask_source
                 | apply emits_ask_target | apply emits_setRole ]);
          intros ? ?; reflexivity ].

Lemma adds_createTable (cols : list Column) :
  keeps (emits (adds_missing_column env t db))
    (createTable env t cols (fun msg => logMigration env id t Info msg)).
Proof.
  unfold createTable, createSequences, getTableSequences.
  keeps_steps (emits_refl (adds_missing_column env t db))
              (emits_trans (adds_missing_column env t db)) plain_leaf.
Qed.

Lemma adds_syncIndexes :
  keeps (emits (adds_missing_column env t db))
    (syncIndexes env t (fun msg => logMigration env id t Info msg)).
Proof.
  unfold syncIndexes.
  keeps_steps (emits_refl (adds_missing_column env t db))
              (emits_trans (adds_missing_column env t db)) plain_leaf.
Qed.

Lemma adds_addColumn (col : Column) (changes : SchemaChanges) :
  has_key t (tgt_tables db) = true ->
  Js.includes (map column_name (sourceColumnsOf env t)) (column_name col) = true ->
  Js.includes (targetColumnNames t db) (column_name col) = false ->
  keeps (emits (adds_missing_column env t db))
    (addColumn env t (fun msg => logMigration env id t Info msg) col changes).
Proof.
  intros Hhas Hsrc Hmiss. unfold addColumn, ensureSequence.
  keeps_steps (emits_refl (adds_missing_column env t db))
              (emits_trans (adds_missing_column env t db))
    ltac:(first
            [ plain_leaf
            | solve [ apply emits_ask_target; intros ? ?;
                      unfold adds_missing_column; cbn [ev_stmt];
                      now rewrite !String.eqb_refl, Hhas, Hsrc, Hmiss ] ]).
Qed.

Lemma creates_createTable (cols : list Column) :
  keeps (emits (creates_missing_index env t db))
    (createTable env t cols (fun msg => logMigration env id t Info msg)).
Proof.
  unfold createTable, createSequences, getTableSequences.
  keeps_steps (emits_refl (creates_missing_index env t db))
              (emits_trans (creates_missing_index env t db)) plain_leaf.
Qed.

Lemma creates_addMissingColumns (cols : list Column) :
  keeps (emits (creates_missing_index env t db))
    (addMissingColumns env t cols (fun msg => logMigration env id t Info msg)).
Proof.
  unfold addMissingColumns, addColumn, ensureSequence, getTableColumnsDetailed.
  keeps_steps (emits_refl (creates_missing_index env t db))
              (emits_trans (creates_missing_index env t db)) plain_leaf.
Qed.

End Additions.

Lemma target_columns_names (t : string) (db : TargetDb) (cols : list Column) :
  fst (Target.columns t db) = Answer cols ->
  map column_name cols = targetColumnNames t db.
Proof.
  unfold Target.columns, targetColumnNames.
  destruct (lookup t (tgt_tables db)); cbn [fst]; intros H;
    apply Answer_inj in H; now subst.
Qed.

(** X21.  Every column [migrateSchema] adds is added to a table the
    target had when the replay began: a column named as a column of the
    source table that the target table lacked then, added by the
    statement the replayer builds for it.  A column the target has is
    never added again, and none is added to a table that the replay
    creates. *)
Theorem added_columns_are_the_missing_ones (env : Env) (id t : string)
    (w : World) :
  exists evs,
    trace (snd (migrateSchema env id t w)) = (evs ++ trace w)%list
    /\ forallb (adds_missing_column env t (target w)) evs = true.
Proof.
  set (p := adds_missing_column env t (target w)).
  change (emits p w (snd (migrateSchema env id t w))).
  unfold migrateSchema. cbv zeta.
  apply (try_catch_at _ (emits_trans p)).
  2:{ intros e w1 _. apply (keeps_bind _ (emits_trans p));
        [apply adds_log | intros _; apply (keeps_ret _ (emits_refl p))]. }
  unfold getTableColumnsDetailed at 1.
  apply (bind_at _ (emits_trans p)).
  { apply emits_ask_source. intros r ok. reflexivity. }
  intros cols w1 E1. apply (ask_source_ok env) in E1 as [Hcols Ht1].
  apply source_columns_answer in Hcols. subst cols.
  destruct (Nat.eqb (List.length (sourceColumnsOf env t)) 0).
  { apply (keeps_bind _ (emits_trans p));
      [apply adds_log | intros _; apply (keeps_ret _ (emits_refl p))]. }
  apply (bind_at _ (emits_trans p)).
  { apply emits_ask_target. intros r ok. reflexivity. }
  intros tableExists w2 E2. apply (ask_target_ok env) in E2 as [Hexists Ht2].
  cbn [Target.has_table fst snd] in Hexists, Ht2.
  apply Answer_inj in Hexists. rewrite Ht1 in Hexists.
  apply (bind_at _ (emits_trans p)).
  2:{ intros branch w3 _. destruct (snd branch);
        [apply (keeps_ret _ (emits_refl p))|].
      apply (keeps_bind _ (emits_trans p));
        [apply adds_syncIndexes | intros _; apply (keeps_ret _ (emits_refl p))]. }
  destruct tableExists; cbn [negb]; [|apply adds_createTable].
  unfold addMissingColumns.
  apply (bind_at _ (emits_trans p)); [apply adds_log|].
  intros u w3 E3. apply (logMigration_ok env) in E3.
  unfold getTableColumnsDetailed.
  apply (bind_at _ (emits_trans p)).
  { apply emits_ask_target. intros r ok. reflexivity. }
  intros targetColumns w4 E4. apply (ask_target_ok env) in E4 as [Hanswer _].
  rewrite E3, Ht2, Ht1 in Hanswer. apply target_columns_names in Hanswer.
  cbv zeta. rewrite Hanswer.
  match goal with
  | |- context [if Nat.eqb ?n 0 then _ else _] => destruct (Nat.eqb n 0)
  end.
  { apply (keeps_bind _ (emits_trans p));
      [apply adds_log | intros _; apply (keeps_ret _ (emits_refl p))]. }
  apply (keeps_bind _ (emits_trans p)); [apply adds_log|]. intros _.
  apply (keeps_bind _ (emits_trans p));
    [|intros ch; apply (keeps_ret _ (emits_refl p))].
  apply (keeps_for_each_in _ (emits_refl p) (emits_trans p)).
  intros col ch Hcol. apply filter_In in Hcol as [Hin Hmiss].
  apply adds_addColumn.
  - now symmetry.
  - apply includes_In, in_map, Hin.
  - now apply negb_true_iff.
Qed.

Lemma source_indexes_answer (env : Env) (t : string)
    (indexes : list (string * string)) :
  Source.indexes t (source env) = Answer indexes ->
  indexes = filter (fun i => negb (endsWith (fst i) "_pkey"))
                   (sourceIndexesOf env t).
Proof.
  unfold Source.indexes, sourceIndexesOf.
  destruct (lookup t (source env)); intros H; apply Answer_inj in H; now subst.
Qed.

Lemma target_index_names_answer (t : string) (db : TargetDb)
    (names : list string) :
  fst (Target.index_names t db) = Answer names ->
  names = targetIndexNames t db.
Proof.
  unfold Target.index_names, targetIndexNames.
  destruct (lookup t (tgt_tables db)); cbn [fst]; intros H;
    apply Answer_inj in H; now subst.
Qed.

(** X22.  Every index [syncIndexes] creates is an index of the source
    table, by the definition the source gives for it, whose name the
    target did not have when the function was called, and never an
    index whose name ends in [_pkey]. *)
Theorem created_indexes_are_the_missing_ones (env : Env) (id t : string)
    (w : World) :
  exists evs,
    trace (snd (syncIndexes env t (fun msg => logMigration env id t Info msg) w))
    = (evs ++ trace w)%list
    /\ forallb (creates_missing_index env t (target w)) evs = true.
Proof.
  set (p := creates_missing_index env t (target w)).
  change (emits p w
            (snd (syncIndexes env t (fun msg => logMigration env id t Info msg) w))).
  unfold syncIndexes.
  apply (try_catch_at _ (emits_trans p)); [|intros e w1 _; apply creates_log].
  apply (bind_at _ (emits_trans p)).
  { apply emits_ask_source. intros r ok. reflexivity. }
  intros sourceIndexes w1 E1. apply (ask_source_ok env) in E1 as [Hsrc Ht1].
  apply source_indexes_answer in Hsrc.
  apply (bind_at _ (emits_trans p)).
  { apply emits_ask_target. intros r ok. reflexivity. }
  intros names w2 E2. apply (ask_target_ok env) in E2 as [Hnames _].
  rewrite Ht1 in Hnames. apply target_index_names_answer in Hnames.
  apply (keeps_for_each_in _ (emits_refl p) (emits_trans p)).
  intros idx [] Hidx. rewrite Hsrc in Hidx.
  apply filter_In in Hidx as [Hin Hpkey].
  destruct (negb (Js.includes names (fst idx))) eqn:Hmiss;
    [|apply (keeps_ret _ (emits_refl p))].
  apply (keeps_try_catch _ (emits_trans p)); [|intros e; apply creates_log].
  apply (keeps_bind _ (emits_trans p)); [apply creates_log|]. intros _.
  apply (keeps_bind _ (emits_trans p)); [|intros _; apply creates_log].
  apply emits_ask_target. intros r ok.
  unfold p, creates_missing_index. cbn [ev_stmt].
  rewrite String.eqb_refl, Hpkey, <- Hnames, Hmiss, !andb_true_r.
  cbn [andb]. apply existsb_exists. exists idx.
  split; [exact Hin|]. now rewrite !String.eqb_refl.
Qed.

(** ** The fallback, row by row *)

Section Fallback.

Variable env : Env.
Hypothesis batches_only : refuses_batches_only env.
Variable t : string.

Lemma setRole_accepted (r : Role) (w : World) :
  exists w',
    setRole env r w = (Ok tt, w') /\ target w' = target w /\ role w' = r.
Proof.
  unfold setRole. rewrite (proj2 batches_only (SetRole r)). eexists.
  split; [reflexivity|]. now split.
Qed.

Lemma rows_one_by_one (preparedData : list Row) :
  forall total w tb,
    lookup t (tgt_tables (target w)) = Some tb ->
    exists w',
      for_each preparedData
        (fun row total =>
           try_catch
             (ask_target env (InsertRow t row) (Target.insert t [row]) ;;
              ret (S total))
             (fun rowError => logFailedRow t row ;; ret total))
        total w
      = (Ok (total + List.length preparedData), w')
      /\ target w' = with_table_rows t (tgt_rows tb ++ preparedData) (target w)
      /\ role w' = role w.
Proof.
  induction preparedData as [|row rest IH]; intros total w tb Htb;
    cbn [for_each List.length].
  - exists w. rewrite Nat.add_0_r, app_nil_r. split; [reflexivity|].
    split; [|reflexivity]. symmetry. now apply with_table_rows_same.
  - rewrite run_bind, run_try_catch, run_bind. unfold ask_target at 1.
    rewrite (proj2 batches_only (InsertRow t row)).
    rewrite (insert_answer _ _ _ _ Htb). cbn [fst snd settle answered].
    cbv beta iota. rewrite run_ret. cbv beta iota.
    match goal with
    | |- context [for_each rest _ (S total) ?w1] =>
        destruct (IH (S total) w1 (Target.with_rows (tgt_rows tb ++ [row]) tb))
          as [w' [E [Ht Hr]]]
    end.
    { cbn [target set_target]. now apply lookup_with_table_rows. }
    exists w'. rewrite E. split; [f_equal; f_equal; lia|].
    split; [|exact Hr].
    rewrite Ht. cbn [target set_target sent set_trace set_clock].
    rewrite with_table_rows_twice. cbn [Target.with_rows tgt_rows].
    now rewrite <- app_assoc.
Qed.

Lemma batch_refused (preparedData : list Row) (totalRows totalMigrated : nat)
    (w : World) (tb : TargetTable) :
  lookup t (tgt_tables (target w)) = Some tb ->
  exists w',
    batchBlock env t preparedData (List.length preparedData) totalRows
               totalMigrated w
    = (Ok (totalMigrated + List.length preparedData), w')
    /\ target w' = with_table_rows t (tgt_rows tb ++ preparedData) (target w)
    /\ role w' = RoleDefault.
Proof.
  intros Htb. unfold batchBlock. rewrite run_try_catch, run_bind.
  destruct (setRole_accepted RoleReplica w) as [w2 [E2 [Ht2 Hr2]]].
  rewrite E2. cbv beta iota. rewrite run_bind. unfold ask_target at 1.
  destruct (faults env (InsertBatch t preparedData) (clock w2)) as [e|] eqn:Hf;
    [|now apply (proj1 batches_only) in Hf].
  rewrite run_bind, run_logger. cbv beta iota. rewrite run_bind.
  match goal with
  | |- context [setRole env RoleReplica ?w3] =>
      destruct (setRole_accepted RoleReplica w3) as [w4 [E4 [Ht4 Hr4]]]
  end.
  rewrite E4. cbv beta iota. rewrite run_bind.
  destruct (rows_one_by_one preparedData totalMigrated w4 tb)
    as [w5 [E5 [Ht5 Hr5]]].
  { rewrite Ht4. cbn [target set_applog sent set_trace set_clock].
    now rewrite Ht2. }
  rewrite E5. cbv beta iota. rewrite run_bind.
  destruct (setRole_accepted RoleDefault w5) as [w6 [E6 [Ht6 Hr6]]].
  rewrite E6. cbv beta iota. rewrite run_ret.
  exists w6. split; [reflexivity|]. split; [|exact Hr6].
  rewrite Ht6, Ht5, Ht4. cbn [target set_applog sent set_trace set_clock].
  now rewrite Ht2.
Qed.

End Fallback.

(** X23.  When the target refuses every batch insert and accepts the
    rows one by one, the fallback of [migrateData] gets every row in:
    the function returns the number of rows of the source table and
    leaves the target table with the rows it had followed by the
    prepared rows of the source, in the order of the source. *)
Theorem fallback_copies_every_row (env : Env) (t : string)
    (json arr : list string) (srcT : SourceTable) (tb : TargetTable)
    (w : World) :
  refuses_batches_only env ->
  lookup t (source env) = Some srcT ->
  lookup t (tgt_tables (target w)) = Some tb ->
  exists w',
    migrateData env t json arr w = (Ok (List.length (src_rows srcT)), w')
    /\ target w'
       = with_table_rows t (tgt_rows tb ++ preparedRows json arr (src_rows srcT))
                         (target w)
    /\ (role w = RoleDefault -> role w' = RoleDefault).
Proof.
  intros Hb Hsrc Htb.
  apply (migrateData_copies_with env t json arr srcT Hsrc); try exact Htb.
  - intros n. apply (proj2 Hb (SrcCount t)).
  - intros offset n. apply (proj2 Hb (SrcSelect t batchSize offset)).
  - intros pd totalRows tm w0 tb0 Htb0. now apply batch_refused.
Qed.

Lemma fallback_copies_every_row_witness :
  exists w',
    migrateData wide_env "good" [] [] (start stale_target)
    = (Ok (List.length (src_rows users_table)), w')
    /\ target w'
       = with_table_rows "good"
           (tgt_rows stale_table ++ preparedRows [] [] (src_rows users_table))
           (target (start stale_target))
    /\ (role (start stale_target) = RoleDefault -> role w' = RoleDefault).
Proof.
  apply (fallback_copies_every_row wide_env "good" [] [] users_table
           stale_table (start stale_target)); [|reflexivity|reflexivity].
  split.
  - intros t rows n. discriminate.
  - intros s n. destruct s; exact I || reflexivity.
Defined.

(** ** Overwriting into a target that lacks the table *)

Lemma ensures_ret {A} (Pre : World -> Prop) (a : A) (Post : A -> World -> Prop) :
  (forall w, Pre w -> Post a w) -> ensures Pre (ret a) Post.
Proof. intros H w Hw. exists a, w. split; [reflexivity | now apply H]. Qed.

Lemma ensures_bind {A B} (Pre : World -> Prop) (Mid : A -> World -> Prop)
    (Post : B -> World -> Prop) (m : M A) (f : A -> M B) :
  ensures Pre m Mid -> (forall a, ensures (Mid a) (f a) Post) ->
  ensures Pre (bind m f) Post.
Proof.
  intros Hm Hf w Hw. rewrite run_bind.
  destruct (Hm w Hw) as [a [w1 [E1 H1]]]. rewrite E1. now apply Hf.
Qed.

Lemma ensures_try_catch {A} (Pre : World -> Prop) (Post : A -> World -> Prop)
    (m : M A) (h : string -> M A) :
  ensures Pre m Post -> ensures Pre (try_catch m h) Post.
Proof.
  intros Hm w Hw. rewrite run_try_catch.
  destruct (Hm w Hw) as [a [w1 [E1 H1]]]. rewrite E1. now exists a, w1.
Qed.

Lemma ensures_weaken {A} (Pre Pre' : World -> Prop)
    (Post Post' : A -> World -> Prop) (m : M A) :
  (forall w, Pre' w -> Pre w) -> (forall a w, Post a w -> Post' a w) ->
  ensures Pre m Post -> ensures Pre' m Post'.
Proof.
  intros Hpre Hpost Hm w Hw. destruct (Hm w (Hpre w Hw)) as [a [w1 [E H]]].
  exists a, w1. split; [exact E | now apply Hpost].
Qed.

(** A run that always returns and keeps [R] takes [Pre] to whatever
    [R] makes of it. *)
Lemma ensures_sure_keeps {A} (R : World -> World -> Prop)
    (Pre Post : World -> Prop) (m : M A) :
  sure m -> keeps R m -> (forall w w', Pre w -> R w w' -> Post w') ->
  ensures Pre m (fun _ => Post).
Proof.
  intros Hs Hk H w Hw. destruct (Hs w) as [a Ha]. specialize (Hk w).
  destruct (m w) as [r w']. cbn [fst snd] in *. subst r.
  exists a, w'. split; [reflexivity|]. now apply (H w).
Qed.

Lemma same_tables_refl (w : World) : same_tables w w.
Proof. now split. Qed.

Lemma same_tables_trans (a b c : World) :
  same_tables a b -> same_tables b c -> same_tables a c.
Proof. intros [H1 H2] [H3 H4]. split; congruence. Qed.

Lemma same_tables_of_session (w w' : World) :
  same_session w w' -> same_tables w w'.
Proof. intros [H1 H2]. split; [now rewrite H1 | exact H2]. Qed.

Lemma stays_empty_refl (t : string) (names : list string) (w : World) :
  stays_empty t names w w.
Proof. now intros H. Qed.

Lemma stays_empty_trans (t : string) (names : list string) (a b c : World) :
  stays_empty t names a b -> stays_empty t names b c -> stays_empty t names a c.
Proof. unfold stays_empty. auto. Qed.

Lemma stays_empty_of_tables (t : string) (names : list string) (w w' : World) :
  same_tables w w' -> stays_empty t names w w'.
Proof.
  intros [Ht Hr] [Hrole [tb H]]. split; [congruence|]. exists tb. now rewrite Ht.
Qed.

Section Shape.

Variable env : Env.
Variable t : string.
Variable names : list string.

Lemma tables_ask_source {A} (s : Stmt) (answer : SourceDb -> Reply A) :
  keeps same_tables (ask_source env s answer).
Proof. intros w. apply same_tables_of_session, session_ask_source. Qed.

Lemma tables_logger (l : Level) (message : string) :
  keeps same_tables (logger l message).
Proof. intros w. now split. Qed.

Lemma tables_logMigration (id c : string) (l : Level) (msg : string) :
  keeps same_tables (logMigration env id c l msg).
Proof. intros w. apply same_tables_of_session, session_logMigration. Qed.

(** A statement whose answer leaves the tables as they are. *)
Lemma tables_ask_target {A} (s : Stmt) (answer : TargetDb -> Reply A * TargetDb) :
  (forall db, tgt_tables (snd (answer db)) = tgt_tables db) ->
  keeps same_tables (ask_target env s answer).
Proof.
  intros H w. unfold ask_target. destruct (faults env s (clock w));
    split; cbn; auto.
Qed.

Lemma tables_sequence_exists (n : string) :
  keeps same_tables
    (ask_target env (SequenceExists n) (Target.sequence_exists n)).
Proof. now apply tables_ask_target. Qed.

Lemma tables_create_sequence (sql n : string) (b : bool) :
  keeps same_tables
    (ask_target env (CreateSequence sql n b) (Target.create_sequence n b)).
Proof.
  apply tables_ask_target. intros db. unfold Target.create_sequence.
  destruct (has_key n (tgt_sequences db)); [destruct b|]; reflexivity.
Qed.

Lemma tables_createSequences (id : string) :
  keeps same_tables
    (createSequences env t (fun msg => logMigration env id t Info msg)).
Proof.
  unfold createSequences, getTableSequences.
  keeps_steps same_tables_refl same_tables_trans
    ltac:(first [ apply tables_ask_source | apply tables_logMigration
                | apply tables_sequence_exists | apply tables_create_sequence ]).
Qed.

(** A statement on the table that keeps its rows and the names of its
    columns. *)
Lemma stays_empty_ask_target {A} (s : Stmt)
    (answer : TargetDb -> Reply A * TargetDb) :
  (forall db tb,
     lookup t (tgt_tables db) = Some tb ->
     exists tb', lookup t (tgt_tables (snd (answer db))) = Some tb'
                 /\ tgt_rows tb' = tgt_rows tb
                 /\ map column_name (tgt_columns tb')
                    = map column_name (tgt_columns tb)) ->
  keeps (stays_empty t names) (ask_target env s answer).
Proof.
  intros H w. unfold ask_target. destruct (faults env s (clock w)).
  - intros [Hr [tb Htb]]. split; [exact Hr|]. now exists tb.
  - intros [Hr [tb [Htb [Hrows Hnames]]]]. split; [exact Hr|].
    destruct (H (target w) tb Htb) as [tb' [Htb' [Hrows' Hnames']]].
    exists tb'. cbn [target set_target]. split; [exact Htb'|].
    split; congruence.
Qed.

Lemma on_table_shape {A} (db : TargetDb) (tb : TargetTable)
    (k : TargetTable -> Reply A * TargetTable) :
  lookup t (tgt_tables db) = Some tb ->
  tgt_rows (snd (k tb)) = tgt_rows tb ->
  map column_name (tgt_columns (snd (k tb))) = map column_name (tgt_columns tb) ->
  exists tb', lookup t (tgt_tables (snd (Target.on_table t db k))) = Some tb'
              /\ tgt_rows tb' = tgt_rows tb
              /\ map column_name (tgt_columns tb')
                 = map column_name (tgt_columns tb).
Proof.
  intros Htb Hrows Hnames. unfold Target.on_table. rewrite Htb.
  destruct (k tb) as [r tb'] eqn:E. cbn [snd] in *.
  exists tb'. split; [|now split].
  cbn [Target.with_tables tgt_tables].
  now rewrite (lookup_update t (fun _ => tb') _ tb Htb).
Qed.

Lemma stays_empty_session {A} (m : M A) :
  keeps same_session m -> keeps (stays_empty t names) m.
Proof.
  intros H w. apply stays_empty_of_tables, same_tables_of_session, H.
Qed.

Lemma stays_empty_set_column_default (c seq : string) :
  keeps (stays_empty t names)
    (ask_target env (SetColumnDefault t c seq)
                (Target.set_column_default t c seq)).
Proof.
  apply stays_empty_ask_target. intros db tb Htb.
  unfold Target.set_column_default.
  destruct (has_key seq (tgt_sequences db)); [|now exists tb].
  apply on_table_shape; [exact Htb | reflexivity |].
  cbn [snd Target.with_columns tgt_columns]. rewrite map_map.
  apply map_ext. intros col. now destruct (String.eqb (column_name col) c).
Qed.

Lemma stays_empty_own_sequence (seq c : string) :
  keeps (stays_empty t names)
    (ask_target env (OwnSequence seq t c) (Target.own_sequence seq t c)).
Proof.
  apply stays_empty_ask_target. intros db tb Htb. unfold Target.own_sequence.
  destruct (has_key seq (tgt_sequences db) && has_key t (tgt_tables db));
    now exists tb.
Qed.

Lemma stays_empty_add_index (s : Stmt) (n : string) :
  keeps (stays_empty t names) (ask_target env s (Target.add_index t n)).
Proof.
  apply stays_empty_ask_target. intros db tb Htb. unfold Target.add_index.
  apply on_table_shape; [exact Htb | |];
    now destruct (Js.includes (tgt_indexes tb) n).
Qed.

Lemma stays_empty_index_names :
  keeps (stays_empty t names)
    (ask_target env (TgtIndexes t) (Target.index_names t)).
Proof.
  apply stays_empty_ask_target. intros db tb Htb. unfold Target.index_names.
  rewrite Htb. now exists tb.
Qed.

End Shape.

Lemma lookup_app_new {V : Type} (k : string) (v : V) (l : list (string * V)) :
  lookup k l = None -> lookup k (l ++ [(k, v)]) = Some v.
Proof.
  induction l as [|[k' v'] r IH]; cbn [lookup app].
  - now rewrite String.eqb_refl.
  - destruct (String.eqb k k'); [discriminate | exact IH].
Qed.

Lemma createdColumns_names (cols : list Column) :
  map column_name (createdColumns cols) = map column_name cols.
Proof.
  unfold createdColumns. rewrite map_map. apply map_ext.
  intros col. now destruct (hasNextvalDefault col).
Qed.

Section Creation.

Variable env : Env.
Hypothesis quiet_env : faultless env.
Variables id t : string.
Variable srcT : SourceTable.
Hypothesis source_table : lookup t (source env) = Some srcT.
Hypothesis has_columns : src_columns srcT <> [].

Lemma sure_log (msg : string) : sure (logMigration env id t Info msg).
Proof. apply sure_logMigration. Qed.

Lemma log_keeps_no_table (msg : string) :
  ensures (no_table t) (logMigration env id t Info msg) (fun _ => no_table t).
Proof.
  apply (ensures_sure_keeps same_tables);
    [apply sure_log | apply tables_logMigration |].
  intros w w' [Hr Hnone] [Ht Hr']. split; congruence.
Qed.

Lemma stays_empty_log (names : list string) (msg : string) :
  keeps (stays_empty t names) (logMigration env id t Info msg).
Proof. apply stays_empty_session, session_logMigration. Qed.

Ltac shape_leaf names :=
  solve [ apply stays_empty_log
        | apply stays_empty_set_column_default
        | apply stays_empty_own_sequence
        | apply stays_empty_add_index
        | apply stays_empty_index_names
        | apply stays_empty_session;
          first [ apply session_ask_source | apply session_logger ] ].

Ltac sure_leaf :=
  solve [ eauto using sure_log with engine
        | total_steps ltac:(solve [eauto using sure_log, sure_total with engine]) ].

Lemma createTable_creates :
  ensures (no_table t)
    (createTable env t (src_columns srcT)
                 (fun msg => logMigration env id t Info msg))
    (fun r w' =>
       snd r = false
       /\ empty_table t (map column_name (src_columns srcT)) w').
Proof.
  unfold createTable.
  apply (ensures_bind _ (fun _ => no_table t)); [apply log_keeps_no_table|].
  intros _.
  apply (ensures_bind _ (fun _ => no_table t)).
  { apply (ensures_sure_keeps same_tables).
    - apply sure_createSequences. intros m. apply sure_log.
    - apply tables_createSequences.
    - intros w w' [Hr Hnone] [Ht Hr']. split; congruence. }
  intros _.
  apply (ensures_bind _ (fun _ => no_table t)); [apply log_keeps_no_table|].
  intros _.
  apply (ensures_bind _
           (fun r w' =>
              r = None
              /\ empty_table t (map column_name (src_columns srcT)) w')).
  { apply ensures_try_catch. intros w [Hr Hnone]. rewrite run_bind.
    destruct (ask_target_faultless env quiet_env
                (CreateTable (createTableSQL t (src_columns srcT)) t
                             (createdColumns (src_columns srcT)))
                (Target.create_table t (createdColumns (src_columns srcT))) w)
      as [w1 [E1 [Ht1 Hr1]]].
    assert (Hanswer :
              Target.create_table t (createdColumns (src_columns srcT)) (target w)
              = (Answer tt,
                 Target.with_tables
                   (tgt_tables (target w)
                      ++ [(t, {| tgt_columns := createdColumns (src_columns srcT);
                                 tgt_rows := []; tgt_indexes := [] |})])%list
                   (target w)))
      by (unfold Target.create_table, has_key; now rewrite Hnone).
    rewrite Hanswer in E1, Ht1.
    cbn [fst snd settle] in E1, Ht1. rewrite E1. cbv beta iota. rewrite run_ret.
    exists None, w1. split; [reflexivity|]. split; [reflexivity|].
    split; [congruence|]. eexists. rewrite Ht1.
    cbn [Target.with_tables tgt_tables]. split; [now apply lookup_app_new|].
    split; [reflexivity|]. apply createdColumns_names. }
  intros [e|].
  { intros w [H _]. discriminate H. }
  apply (ensures_weaken
           (empty_table t (map column_name (src_columns srcT)))
           _ (fun r w' => snd r = false
                          /\ empty_table t (map column_name (src_columns srcT)) w')
           (fun r w' => snd r = false
                        /\ empty_table t (map column_name (src_columns srcT)) w'));
    [now intros w [_ H] | auto |].
  apply (ensures_bind _
           (fun _ => empty_table t (map column_name (src_columns srcT)))).
  { apply (ensures_sure_keeps (stays_empty t (map column_name (src_columns srcT))));
      [apply sure_log | apply stays_empty_log | auto]. }
  intros _.
  apply (ensures_bind _
           (fun _ => empty_table t (map column_name (src_columns srcT)))).
  { apply (ensures_sure_keeps (stays_empty t (map column_name (src_columns srcT))));
      [| |auto].
    - sure_steps sure_leaf.
    - keeps_steps (stays_empty_refl t (map column_name (src_columns srcT)))
                  (stays_empty_trans t (map column_name (src_columns srcT)))
                  ltac:(shape_leaf (map column_name (src_columns srcT))). }
  intros configured.
  apply (ensures_bind _
           (fun _ => empty_table t (map column_name (src_columns srcT)))).
  { apply (ensures_sure_keeps (stays_empty t (map column_name (src_columns srcT))));
      [| |auto].
    - sure_steps sure_leaf.
    - keeps_steps (stays_empty_refl t (map column_name (src_columns srcT)))
                  (stays_empty_trans t (map column_name (src_columns srcT)))
                  ltac:(shape_leaf (map column_name (src_columns srcT))). }
  intros _. apply ensures_ret. intros w H. now split.
Qed.

Lemma migrateSchema_creates :
  ensures (no_table t) (migrateSchema env id t)
    (fun _ => empty_table t (map column_name (src_columns srcT))).
Proof.
  unfold migrateSchema. cbv zeta. apply ensures_try_catch.
  apply (ensures_bind _ (fun cols w' => cols = src_columns srcT /\ no_table t w')).
  { intros w [Hr Hnone]. unfold getTableColumnsDetailed.
    destruct (ask_source_faultless env quiet_env (SrcColumnsDetailed t)
                (Source.columns t) w) as [w1 [E1 [Ht1 Hr1]]].
    unfold Source.columns in E1. rewrite source_table in E1. cbn [settle] in E1.
    exists (src_columns srcT), w1. split; [exact E1|].
    split; [reflexivity|]. split; congruence. }
  intros cols.
  apply (ensures_weaken
           (fun w => cols = src_columns srcT /\ no_table t w) _
           (fun _ => empty_table t (map column_name (src_columns srcT)))
           (fun _ => empty_table t (map column_name (src_columns srcT))));
    [auto | auto |].
  intros w [-> Hw]. revert w Hw.
  change (ensures (no_table t)
            (if Nat.eqb (List.length (src_columns srcT)) 0
             then
               logMigration env id t Info
                 ("Table " ++ t ++ " not found in source database") ;;
               ret noChanges
             else
               tableExists <- ask_target env (TableExists t)
                                         (Target.has_table t) ;;
               branch <- (if negb tableExists
                          then createTable env t (src_columns srcT)
                                 (fun msg => logMigration env id t Info msg)
                          else addMissingColumns env t (src_columns srcT)
                                 (fun msg => logMigration env id t Info msg)) ;;
               if snd branch then ret (fst branch)
               else syncIndexes env t
                      (fun msg => logMigration env id t Info msg) ;;
                    ret (fst branch))
            (fun _ => empty_table t (map column_name (src_columns srcT)))).
  destruct (src_columns srcT) as [|col cols] eqn:Hcols; [contradiction|].
  cbn [List.length Nat.eqb]. rewrite <- Hcols.
  apply (ensures_bind _ (fun b w' => b = false /\ no_table t w')).
  { intros w [Hr Hnone].
    destruct (ask_target_faultless env quiet_env (TableExists t)
                (Target.has_table t) w) as [w1 [E1 [Ht1 Hr1]]].
    assert (Hanswer : Target.has_table t (target w) = (Answer false, target w))
      by (unfold Target.has_table, has_key; now rewrite Hnone).
    rewrite Hanswer in E1, Ht1. cbn [fst snd settle] in E1, Ht1.
    exists false, w1. split; [exact E1|]. split; [reflexivity|].
    split; congruence. }
  intros [|]; [intros w [H _]; discriminate H|]. cbn [negb].
  apply (ensures_bind _
           (fun r w' => snd r = false
                        /\ empty_table t (map column_name (src_columns srcT)) w')).
  { apply (ensures_weaken (no_table t) _
             (fun r w' => snd r = false
                          /\ empty_table t (map column_name (src_columns srcT)) w')
             (fun r w' => snd r = false
                          /\ empty_table t (map column_name (src_columns srcT)) w'));
      [now intros w [_ H] | auto | apply createTable_creates]. }
  intros [ch [|]]; [intros w [H _]; discriminate H|]. cbn [snd fst].
  apply (ensures_weaken
           (empty_table t (map column_name (src_columns srcT))) _
           (fun _ => empty_table t (map column_name (src_columns srcT)))
           (fun _ => empty_table t (map column_name (src_columns srcT))));
    [now intros w [_ H] | auto |].
  apply (ensures_bind _
           (fun _ => empty_table t (map column_name (src_columns srcT))));
    [|intros _; now apply ensures_ret].
  apply (ensures_sure_keeps (stays_empty t (map column_name (src_columns srcT))));
    [| |auto].
  - apply sure_syncIndexes. intros m. apply sure_log.
  - unfold syncIndexes.
    keeps_steps (stays_empty_refl t (map column_name (src_columns srcT)))
                (stays_empty_trans t (map column_name (src_columns srcT)))
                ltac:(shape_leaf (map column_name (src_columns srcT))).
Qed.

End Creation.

(** X24.  When nothing is refused and the target lacks the table, the
    overwrite rule creates it and copies the source into it: it
    returns the number of rows of the source table and leaves the
    target with a table of that name whose columns have the names of
    the source columns, in their order, and whose rows are exactly
    the prepared rows of the source; the session ends in its default
    role. *)
Theorem overwrite_creates_a_missing_table (env : Env) (id t : string)
    (json arr : list string) (srcT : SourceTable) (w : World) :
  faultless env ->
  lookup t (source env) = Some srcT ->
  src_columns srcT <> [] ->
  lookup t (tgt_tables (target w)) = None ->
  role w = RoleDefault ->
  exists w' tb,
    overwriteRule env id t json arr w = (Ok (List.length (src_rows srcT)), w')
    /\ lookup t (tgt_tables (target w')) = Some tb
    /\ tgt_rows tb = preparedRows json arr (src_rows srcT)
    /\ map column_name (tgt_columns tb) = map column_name (src_columns srcT)
    /\ role w' = RoleDefault.
Proof.
  intros Hq Hsrc Hcols Hnone Hw. unfold overwriteRule. rewrite run_bind.
  destruct (ask_target_faultless env Hq (HasTable t) (Target.has_table t) w)
    as [w0 [E0 [Ht0 Hr0]]].
  assert (Hanswer : Target.has_table t (target w) = (Answer false, target w))
    by (unfold Target.has_table, has_key; now rewrite Hnone).
  rewrite Hanswer in E0, Ht0. cbn [fst snd settle] in E0, Ht0.
  rewrite E0. cbn [negb]. cbv beta iota. run_head.
  destruct (logMigration_run env id t Info
              "Target table does not exist, creating..." w0)
    as [w1 [E1 [Ht1 [Hr1 _]]]].
  rewrite E1. run_head.
  destruct (migrateSchema_creates env Hq id t srcT Hsrc Hcols w1)
    as [ch [w2 [E2 [Hr2 [tb [Htb [Hrows Hnames]]]]]]].
  { split; congruence. }
  rewrite E2. run_head.
  destruct (tableHasData_run env t w2) as [w3 [E3 [Ht3 Hr3]]].
  rewrite E3, Hq. unfold has_rows. rewrite Htb, Hrows. cbn [List.length Nat.ltb Nat.leb].
  run_head.
  destruct (logMigration_run env id t Info "Table is empty, skipping truncate" w3)
    as [w4 [E4 [Ht4 [Hr4 _]]]].
  rewrite E4. run_head.
  assert (Htb4 : lookup t (tgt_tables (target w4)) = Some tb)
    by (rewrite Ht4, Ht3; exact Htb).
  destruct (migrateData_copies env t json arr srcT tb w4 Hq Hsrc Htb4)
    as [w5 [E5 [Ht5 Hr5]]].
  rewrite E5. run_head.
  destruct (resetSequences_run env t w5) as [w6 [E6 [Ht6 Hr6]]].
  rewrite E6. run_head.
  destruct (copyConstraints_run env t w6) as [w7 [E7 [Ht7 Hr7]]].
  rewrite E7. run_head.
  match goal with
  | |- context [logMigration env id t Info ?m w7] =>
      destruct (logMigration_run env id t Info m w7) as [w8 [E8 [Ht8 [Hr8 _]]]]
  end.
  rewrite E8. run_head.
  exists w8, (Target.with_rows (tgt_rows tb ++ preparedRows json arr (src_rows srcT)) tb).
  split; [reflexivity|]. split.
  - rewrite Ht8, Ht7, Ht6, Ht5. now apply lookup_with_table_rows.
  - cbn [Target.with_rows tgt_rows tgt_columns]. rewrite Hrows.
    split; [reflexivity|]. split; [exact Hnames|].
    rewrite Hr8, Hr7, Hr6. apply Hr5. congruence.
Qed.

Lemma overwrite_creates_a_missing_table_witness :
  exists w' tb,
    overwriteRule isolation_env "job-1" "good" [] [] (start empty_target)
    = (Ok (List.length (src_rows users_table)), w')
    /\ lookup "good" (tgt_tables (target w')) = Some tb
    /\ tgt_rows tb = preparedRows [] [] (src_rows users_table)
    /\ map column_name (tgt_columns tb) = map column_name (src_columns users_table)
    /\ role w' = RoleDefault.
Proof.
  apply (overwrite_creates_a_missing_table isolation_env "job-1" "good" [] []
           users_table (start empty_target));
    [intros s n; reflexivity | reflexivity | discriminate | reflexivity
    | reflexivity].
Defined.

(* ================================================================== *)
(** * The replica role stays in its blocks *)
(* ================================================================== *)

Lemma calm_refl (w : World) : calm w w.
Proof. intros H. split; [exact H | apply emits_refl]. Qed.

Lemma calm_trans (a b c : World) : calm a b -> calm b c -> calm a c.
Proof.
  intros Hab Hbc Ha. destruct (Hab Ha) as [Hb Eab].
  destruct (Hbc Hb) as [Hc Ebc]. split; [exact Hc|].
  eapply emits_trans; eassumption.
Qed.

(** A run that ends in the default role however it goes, and sends
    statements of a block only, is calm. *)
Lemma calm_block {A} (m : M A) :
  restores m -> keeps (emits confined) m -> keeps calm m.
Proof. intros Hr He w Hw. split; [now apply Hr | apply He]. Qed.

Lemma admits_block (s : Stmt) : block_statement s = true -> admits confined s.
Proof. intros H [|] ok; [reflexivity | exact H]. Qed.

Lemma calm_sent (s : Stmt) (ok : bool) (w w' : World) :
  role w' = role w ->
  trace w' = {| ev_stmt := s; ev_role := role w; ev_ok := ok |} :: trace w ->
  calm w w'.
Proof.
  intros Hr Ht Hw. split; [congruence|].
  exists [{| ev_stmt := s; ev_role := role w; ev_ok := ok |}].
  split; [exact Ht|]. cbn [forallb confined ev_role]. now rewrite Hw.
Qed.

(** The prepared row serialises when the row does. *)
Lemma sequence_cons (x : option string) (r : list (option string)) :
  Js.sequence (x :: r) <> None <-> x <> None /\ Js.sequence r <> None.
Proof.
  cbn [Js.sequence]. destruct x as [s|]; [|intuition congruence].
  destruct (Js.sequence r); intuition congruence.
Qed.

Lemma stringify_Obj (fs : list (string * Js.value)) :
  Js.stringify (Js.Obj fs) <> None
  <-> Forall (fun kv => Js.stringify (snd kv) <> None) fs.
Proof.
  cbn [Js.stringify].
  match goal with
  | |- context [Js.sequence (?go fs)] => set (members := go)
  end.
  assert (H : Js.sequence (members fs) <> None
              <-> Forall (fun kv => Js.stringify (snd kv) <> None) fs).
  { induction fs as [|[k v] r IH].
    - cbn. split; [constructor | discriminate].
    - assert (Hstep :
                Js.sequence (members ((k, v) :: r)) <> None
                <-> Js.stringify v <> None /\ Js.sequence (members r) <> None).
      { destruct v;
          try (change (members ((k, Js.Undefined) :: r)) with (members r);
               cbn [Js.stringify]; intuition congruence);
          match goal with
          | |- context [members ((k, ?x) :: r)] =>
              change (members ((k, x) :: r))
                with (match Js.stringify x with
                      | Some s => Some (Js.quote k ++ ":" ++ s)
                      | None => None
                      end :: members r)
          end;
          rewrite sequence_cons;
          match goal with
          | |- context [match ?x with Some _ => _ | None => _ end] =>
              destruct x; intuition congruence
          end. }
      rewrite Hstep, IH. split.
      + intros [Hv Hr]. now constructor.
      + intros H. inversion H; subst. now split. }
  destruct (Js.sequence (members fs)); split; intros H0;
    try discriminate; try (apply H; congruence); try (apply H in H0; congruence).
Qed.

Lemma prepareValue_serialises (json arr : list string) (k : string)
    (v : Js.value) :
  Js.stringify v <> None ->
  Js.stringify (fst (prepareValue json arr k v)) <> None.
Proof.
  intros H. unfold prepareValue.
  repeat match goal with
         | |- context [if ?b then _ else _] => destruct b
         | |- context [match Js.stringify ?x with _ => _ end] =>
             destruct (Js.stringify x)
         | |- context [match ?x with Js.Null => _ | _ => _ end] => destruct x
         end; cbn [fst Js.stringify]; try discriminate; try exact H.
Qed.

Lemma prepared_loggable (row : Row) (json arr : list string) :
  loggable row -> loggable (fst (prepareRowForInsert row json arr)).
Proof.
  unfold loggable. rewrite !stringify_Obj. unfold prepareRowForInsert.
  cbn [fst]. rewrite map_map. cbn [fst snd].
  induction 1 as [|kv r Hv Hr IH]; cbn [map]; constructor; [|exact IH].
  cbn [snd]. now apply prepareValue_serialises.
Qed.

Lemma lookup_In {V : Type} (k : string) (l : list (string * V)) (v : V) :
  lookup k l = Some v -> exists k', In (k', v) l.
Proof.
  induction l as [|[k' v'] r IH]; cbn [lookup]; [discriminate|].
  destruct (String.eqb k k').
  - intros H. injection H as ->. exists k'. now left.
  - intros H. destruct (IH H) as [k'' Hin]. exists k''. now right.
Qed.

Lemma serialise_rows_loggable (env : Env) (t : string) (json arr : list string) :
  source_rows_serialise env -> rows_loggable env t json arr.
Proof.
  intros Hrows row Hrow. apply prepared_loggable.
  unfold tableRows in Hrow.
  destruct (lookup t (source env)) as [tb|] eqn:Ht; [|contradiction].
  apply lookup_In in Ht as [k Hin].
  unfold source_rows_serialise in Hrows. rewrite Forall_forall in Hrows.
  specialize (Hrows _ Hin). cbn [snd] in Hrows. rewrite Forall_forall in Hrows.
  now apply Hrows.
Qed.

Create HintDb calm discriminated.
#[global] Hint Extern 1 (keeps _ _) => progress cbv beta : calm.

Section Confinement.

Variable env : Env.

Lemma calm_ask_source {A} (s : Stmt) (answer : SourceDb -> Reply A) :
  keeps calm (ask_source env s answer).
Proof.
  intros w. unfold ask_source.
  destruct (faults env s (clock w)); eapply calm_sent; reflexivity.
Qed.

Lemma calm_ask_target {A} (s : Stmt) (answer : TargetDb -> Reply A * TargetDb) :
  keeps calm (ask_target env s answer).
Proof.
  intros w. unfold ask_target.
  destruct (faults env s (clock w)); eapply calm_sent; reflexivity.
Qed.

Lemma calm_ask_store {A} (s : Stmt) (answer : JobStore -> Reply A * JobStore) :
  keeps calm (ask_store env s answer).
Proof.
  intros w. unfold ask_store.
  destruct (faults env s (clock w)); eapply calm_sent; reflexivity.
Qed.

Lemma calm_logger (l : Level) (message : string) : keeps calm (logger l message).
Proof. intros w Hw. split; [exact Hw | now exists []]. Qed.

(** Setting the default role in the default role changes nothing,
    answered or not. *)
Lemma calm_setRole_default : keeps calm (setRole env RoleDefault).
Proof.
  intros w Hw. unfold setRole.
  destruct (faults env (SetRole RoleDefault) (clock w)); cbn [snd].
  - now apply (calm_sent (SetRole RoleDefault) false).
  - split; [reflexivity|].
    apply (emits_one confined (SetRole RoleDefault) true);
      [now apply admits_block | reflexivity].
Qed.

Hint Resolve calm_ask_source calm_ask_target calm_ask_store calm_logger
  calm_setRole_default : calm.

Ltac calm_steps :=
  keeps_steps calm_refl calm_trans ltac:(solve [eauto with calm]).

Lemma calm_logMigration (id c : string) (l : Level) (msg : string) :
  keeps calm (logMigration env id c l msg).
Proof. unfold logMigration. calm_steps. Qed.
Hint Resolve calm_logMigration : calm.

Lemma calm_resetSequences (t : string) : keeps calm (resetSequences env t).
Proof. unfold resetSequences. calm_steps. Qed.
Hint Resolve calm_resetSequences : calm.

Lemma calm_tableHasData (t : string) : keeps calm (tableHasData env t).
Proof. unfold tableHasData. calm_steps. Qed.
Hint Resolve calm_tableHasData : calm.

Lemma calm_copyConstraints (t : string) : keeps calm (copyConstraints env t).
Proof. unfold copyConstraints. calm_steps. Qed.
Hint Resolve calm_copyConstraints : calm.

Lemma calm_migrateSchema (id t : string) : keeps calm (migrateSchema env id t).
Proof.
  unfold migrateSchema, createTable, addMissingColumns, addColumn,
    ensureSequence, createSequences, syncIndexes, getTableSequences,
    getTableColumnsDetailed.
  calm_steps.
Qed.
Hint Resolve calm_migrateSchema : calm.

Lemma calm_log_lines (lines : list LogLine) : keeps calm (log_lines lines).
Proof. unfold log_lines. calm_steps. Qed.
Hint Resolve calm_log_lines : calm.

Lemma calm_logFailedRow (t : string) (row : Row) :
  keeps calm (logFailedRow t row).
Proof. unfold logFailedRow. calm_steps. Qed.
Hint Resolve calm_logFailedRow : calm.

Lemma calm_prepareAll (data : list Row) (json arr : list string) :
  keeps calm (prepareAll data json arr).
Proof. unfold prepareAll. calm_steps. Qed.
Hint Resolve calm_prepareAll : calm.

Lemma calm_upsertData (t : string) (json arr : list string) :
  keeps calm (upsertData env t json arr).
Proof. unfold upsertData. calm_steps. Qed.
Hint Resolve calm_upsertData : calm.

Lemma calm_insertIgnoreData (t : string) (json arr : list string) :
  keeps calm (insertIgnoreData env t json arr).
Proof. unfold insertIgnoreData. calm_steps. Qed.
Hint Resolve calm_insertIgnoreData : calm.

End Confinement.

#[global] Hint Resolve calm_ask_source calm_ask_target calm_ask_store
  calm_logger calm_setRole_default calm_logMigration calm_resetSequences
  calm_tableHasData calm_copyConstraints calm_migrateSchema calm_log_lines
  calm_logFailedRow calm_prepareAll calm_upsertData calm_insertIgnoreData
  : calm.

Lemma lands_try_finally {A} (r : Role) (m : M A) (f : M unit) :
  total m -> lands r f -> lands r (try_finally m f).
Proof.
  intros Hm Hf w. unfold try_finally. specialize (Hm w).
  destruct (m w) as [[a|e|] w1]; cbn [fst] in Hm; [| |contradiction];
    specialize (Hf w1); destruct (f w1) as [[u|e'|] w2]; exact Hf.
Qed.

Section Blocks.

Variable env : Env.
Hypothesis roles : role_statements_consistent env.

Ltac block_leaf :=
  first [ apply emits_logger
        | apply emits_ask_target; apply admits_block; reflexivity
        | apply emits_ask_store; apply admits_block; reflexivity
        | apply emits_setRole; apply admits_block; reflexivity ].

Ltac block_steps :=
  keeps_steps (emits_refl confined) (emits_trans confined) block_leaf.

(** Where the target never lets the session take the replica role,
    asking for it changes nothing. *)
Lemma calm_setRole_refused (r : Role) :
  (forall n, faults env (SetRole RoleReplica) n <> None) ->
  keeps calm (setRole env r).
Proof.
  intros Href. destruct r; [apply calm_setRole_default|].
  intros w. unfold setRole. specialize (Href (clock w)).
  destruct (faults env (SetRole RoleReplica) (clock w)); [|congruence].
  now apply (calm_sent (SetRole RoleReplica) false).
Qed.

(** The block that truncates. *)
Lemma calm_truncateTarget (id t : string) : keeps calm (truncateTarget env id t).
Proof.
  destruct roles as [Hans|Href].
  - apply calm_block.
    + apply restores_lands. unfold truncateTarget.
      apply lands_bind; [now apply sure_setRole|]. intros _.
      apply lands_try_finally; [|now apply lands_setRole].
      total_steps ltac:(solve [eauto with engine]).
    + unfold truncateTarget, logMigration, resetSequences. block_steps.
  - pose proof (fun r => calm_setRole_refused r Href) as Hset.
    unfold truncateTarget.
    keeps_steps calm_refl calm_trans ltac:(solve [eauto with calm]).
Qed.

(** The block of one batch, with its fallback. *)
Lemma calm_batchBlock (t : string) (preparedData : list Row)
    (batchLength totalRows totalMigrated : nat) :
  Forall loggable preparedData ->
  keeps calm (batchBlock env t preparedData batchLength totalRows totalMigrated).
Proof.
  intros Hrows. destruct roles as [Hans|Href].
  - apply calm_block.
    + apply restores_lands. unfold batchBlock. apply lands_try_catch.
      * total_steps ltac:(solve [eauto with engine]).
      * do 2 (apply returns_in_bind; intros ?).
        apply returns_in_lands, lands_then; [now apply lands_setRole|].
        intros _. apply (keeps_bind _ same_role_trans).
        -- apply role_logger.
        -- intros _. apply (keeps_ret _ same_role_refl).
      * intros e. apply lands_bind; [apply sure_logger|]. intros _.
        apply lands_bind; [now apply sure_setRole|]. intros _.
        apply lands_bind.
        -- apply sure_for_each_in. intros row total Hrow.
           apply sure_try_catch.
           ++ total_steps ltac:(solve [eauto with engine]).
           ++ intros _. apply sure_bind; [|intros _; apply sure_ret].
              apply sure_logFailedRow.
              rewrite Forall_forall in Hrows. now apply Hrows.
        -- intros total. apply lands_then; [now apply lands_setRole|].
           intros _. apply (keeps_ret _ same_role_refl).
    + unfold batchBlock, logFailedRow. block_steps.
  - pose proof (fun r => calm_setRole_refused r Href) as Hset.
    unfold batchBlock.
    keeps_steps calm_refl calm_trans ltac:(solve [eauto with calm]).
Qed.

Hypothesis rows : source_rows_serialise env.

Lemma calm_migrateData_loop (fuel : nat) (t : string) (json arr : list string)
    (totalRows : nat) :
  forall offset totalMigrated,
    keeps calm (migrateData_loop env fuel t json arr totalRows offset
                                 totalMigrated).
Proof.
  induction fuel as [|fuel IH]; intros offset totalMigrated w.
  - apply calm_refl.
  - rewrite run_loop_block.
    apply (bind_at _ calm_trans); [apply calm_ask_source|].
    intros data w1 E1. apply (ask_source_ok env) in E1 as [Hsel _].
    destruct (Nat.eqb (List.length data) 0); [apply calm_refl|].
    apply (bind_at _ calm_trans); [apply calm_prepareAll|].
    intros preparedData w2 E2.
    destruct (prepareAll_run data json arr w1) as [w2' [Hrun _]].
    rewrite Hrun in E2. injection E2 as <- _.
    apply (keeps_bind _ calm_trans).
    + apply calm_batchBlock. rewrite Forall_forall. intros row Hrow.
      apply in_map_iff in Hrow as [row0 [<- Hrow0]].
      apply (serialise_rows_loggable env t json arr rows).
      eapply select_rows; eassumption.
    + intros totalMigrated'. destruct (Nat.ltb (List.length data) batchSize);
        [apply (keeps_ret _ calm_refl) | apply IH].
Qed.

End Blocks.

Section Job.

Variable env : Env.
Hypothesis roles : role_statements_consistent env.
Hypothesis rows : source_rows_serialise env.

Lemma calm_migrateData (t : string) (json arr : list string) :
  keeps calm (migrateData env t json arr).
Proof.
  pose proof (calm_migrateData_loop env roles rows) as Hloop.
  unfold migrateData.
  keeps_steps calm_refl calm_trans ltac:(solve [eauto with calm]).
Qed.

Lemma calm_migrateCollection (id t rule : string) :
  keeps calm (migrateCollection env id t rule).
Proof.
  pose proof (calm_truncateTarget env roles) as Htruncate.
  pose proof calm_migrateData as Hdata.
  unfold migrateCollection, dispatch, schemaRule, overwriteRule, upsertRule,
    ignoreRule, getTableColumns.
  keeps_steps calm_refl calm_trans ltac:(solve [eauto with calm]).
Qed.

Lemma calm_executeMigration (migrationId sourceConnId targetConnId
    globalRule : string) (collections : list Collection) :
  keeps calm (executeMigration env migrationId sourceConnId targetConnId
                               globalRule collections).
Proof.
  pose proof calm_migrateCollection as Htable.
  unfold executeMigration, processCollection.
  keeps_steps calm_refl calm_trans ltac:(solve [eauto with calm]).
Qed.

End Job.

Lemma confined_sent_in_replica (evs : list Event) :
  forallb confined evs = true ->
  forallb block_statement (sent_in_replica evs) = true.
Proof.
  rewrite !forallb_forall. intros H s Hs. unfold sent_in_replica in Hs.
  apply in_flat_map in Hs as [e [He Hs]]. apply in_rev in He.
  specialize (H e He). unfold confined in H.
  destruct (ev_role e); [contradiction|].
  destruct Hs as [<-|[]]. exact H.
Qed.


